(** * Smart-home command assistant: backtracking parser, semantic extractor
      and device registry

    Shallow embedding of the Python sources:
    - [src/codeNew.py]: [tokenize], the grammar table [GRAMMAR],
      [parse_symbol], [parse_command], [parse_time_of_day],
      [parse_duration], [interpret], [DeviceController.set_device] and
      [SmartHomeAssistant.handle];
    - [src/code.py]: [tokenize], the grammar table [grammar],
      [parse_symbol] and [parse];
    - [src/hybrid_smart_home.py]: [extract_device] and
      [DeviceController.set_device] (the same two functions are in
      [src/hybrid_smart_home_assistant.py], with other messages).

    Modelling choices:
    - text is a byte string ([string]); the character classes of the
      regular expressions ([\s], [\d], [.]) and [lower], [strip], [split]
      are the ASCII ones;
    - a position in the token list is a natural number: the entry points
      start at index 0 and the evaluator only ever adds one to an index;
    - the trace, a list that Python shares between the recursive calls and
      appends to, is passed to each call and returned by it;
    - the Python recursion is unbounded; the evaluator takes a bound on the
      nesting depth and is shown to return within the depth of each of the
      two grammars;
    - a datetime is its day number and time of day, with the range and the
      exceptions of the [datetime] module; the readings of the clock and
      the fresh uuid are arguments;
    - logging, printing, sleeping and the scheduler thread are left out;
      the registry, the [events] table and the timer queue are explicit
      state. *)

From Stdlib Require Import ZArith Ascii String List Bool Lia.
From stdpp Require Import base option list gmap strings pretty.

Local Open Scope string_scope.
Local Open Scope list_scope.

(** ** Python string helpers *)

(** [sep.join(l)] *)
Definition join (sep : string) (l : list string) : string := String.concat sep l.

(** [drop_last s] is [s[:-1]]. *)
Fixpoint drop_last (s : string) : string :=
  match s with
  | EmptyString => EmptyString
  | String _ EmptyString => EmptyString
  | String a s' => String a (drop_last s')
  end.

(** [strip_prefix p s] is [Some (s[len(p):])] when [s.startswith(p)]. *)
Fixpoint strip_prefix (p s : string) : option string :=
  match p, s with
  | EmptyString, _ => Some s
  | String a p', String b s' => if Ascii.eqb a b then strip_prefix p' s' else None
  | String _ _, EmptyString => None
  end.

(** [str.isspace] on ASCII: tab to carriage return, the four separators
    0x1c to 0x1f, and the blank.  The regular-expression class [\s] and
    [str.split()] use the same set. *)
Definition is_space (c : ascii) : bool :=
  let n := nat_of_ascii c in
  ((9 <=? n) && (n <=? 13) || (28 <=? n) && (n <=? 32))%nat.

(** The class [\d] on ASCII. *)
Definition is_digit (c : ascii) : bool :=
  let n := nat_of_ascii c in ((48 <=? n) && (n <=? 57))%nat.

(** The class [.]: anything but a newline. *)
Definition is_not_newline (c : ascii) : bool :=
  negb (nat_of_ascii c =? 10)%nat.

(** The class [[.,;!?]] of [tokenize]. *)
Definition is_punctuation (c : ascii) : bool :=
  existsb (Ascii.eqb c) ["."; ","; ";"; "!"; "?"]%char.

Definition lower_char (c : ascii) : ascii :=
  let n := nat_of_ascii c in
  if ((65 <=? n) && (n <=? 90))%nat then ascii_of_nat (n + 32) else c.

(** [s.lower()] *)
Fixpoint lower (s : string) : string :=
  match s with
  | EmptyString => EmptyString
  | String c s' => String (lower_char c) (lower s')
  end.

Fixpoint lstrip (s : string) : string :=
  match s with
  | EmptyString => EmptyString
  | String c s' => if is_space c then lstrip s' else s
  end.

Fixpoint rstrip (s : string) : string :=
  match s with
  | EmptyString => EmptyString
  | String c s' =>
      match rstrip s' with
      | EmptyString => if is_space c then EmptyString else String c EmptyString
      | r => String c r
      end
  end.

(** [s.strip()] *)
Definition strip (s : string) : string := rstrip (lstrip s).

(** [re.sub(cls, '', s)] for a one-character class: the characters of the
    class are deleted. *)
Fixpoint remove_chars (cls : ascii -> bool) (s : string) : string :=
  match s with
  | EmptyString => EmptyString
  | String c s' => if cls c then remove_chars cls s' else String c (remove_chars cls s')
  end.

(** [s.split()]: the maximal runs of non-blank characters; [word] is the
    run being read. *)
Fixpoint split_from (word : string) (s : string) : list string :=
  match s with
  | EmptyString => match word with EmptyString => [] | _ => [word] end
  | String c s' =>
      if is_space c
      then match word with
           | EmptyString => split_from EmptyString s'
           | _ => word :: split_from EmptyString s'
           end
      else split_from (word +:+ String c EmptyString) s'
  end.

Definition split (s : string) : list string := split_from EmptyString s.

(** [needle in hay] *)
Fixpoint contains (needle hay : string) : bool :=
  if String.prefix needle hay then true
  else match hay with
       | EmptyString => false
       | String _ hay' => contains needle hay'
       end.

(** [s.replace("  ", " ")]: non-overlapping occurrences, left to right. *)
Fixpoint replace_double_space (s : string) : string :=
  match s with
  | String " " (String " " s') => String " " (replace_double_space s')
  | String c s' => String c (replace_double_space s')
  | EmptyString => EmptyString
  end.

(** [int(s)] for a run of decimal digits. *)
Definition digit_value (c : ascii) : Z := Z.of_nat (nat_of_ascii c) - 48.

Fixpoint int_from (acc : Z) (s : string) : Z :=
  match s with
  | EmptyString => acc
  | String c s' => int_from (10 * acc + digit_value c) s'
  end.

Definition int (s : string) : Z := int_from 0 s.

(** ** Python exceptions *)

Inductive exn := ValueError | OverflowError | AttributeError.

Inductive res (A : Type) :=
  | Ok (a : A)
  | Raise (e : exn).
Arguments Ok {A}.
Arguments Raise {A}.

(** Sequencing: an exception skips the rest ([x ← m; k]). *)
#[global] Instance res_bind : MBind res := fun A B f m =>
  match m with Ok a => f a | Raise e => Raise e end.

(** ** Regular expressions, as the [re] module matches them

    A backtracking matcher in continuation-passing style: alternatives are
    tried left to right, [?], [*], [+] and [{m,n}] take as much as they can
    and give back one character at a time, their lazy forms the other way
    round.  Repetition is only ever applied to a character class in the
    patterns of this program. *)

Inductive regex :=
  | Lit (s : string)
  | Rep (greedy : bool) (cls : ascii -> bool) (lo : nat) (hi : option nat)
  | Seq (r1 r2 : regex)
  | Alt (r1 r2 : regex)
  | Opt (r : regex)
  | Group (n : nat) (r : regex).

(** [r1 r2 ... rn] and [r1|r2|...|rn] *)
Fixpoint seqs (l : list regex) : regex :=
  match l with
  | [] => Lit EmptyString
  | [r] => r
  | r :: l' => Seq r (seqs l')
  end.

Fixpoint alts (l : list regex) : regex :=
  match l with
  | [] => Lit EmptyString
  | [r] => r
  | r :: l' => Alt r (alts l')
  end.

(** [\s+], [\s*], [\d+], [\d{1,2}], [.+?] *)
Definition ws_plus : regex := Rep true is_space 1 None.
Definition ws_star : regex := Rep true is_space 0 None.
Definition digits_plus : regex := Rep true is_digit 1 None.
Definition digits_1_2 : regex := Rep true is_digit 1 (Some 2).
Definition any_plus_lazy : regex := Rep false is_not_newline 1 None.

(** The text between two positions of a match: [s] minus its suffix [s']. *)
Definition consumed (s s' : string) : string :=
  String.substring 0 (String.length s - String.length s') s.

Definition may_take (hi : option nat) : bool :=
  match hi with Some O => false | _ => true end.

Section Matcher.
Context {R : Type}.

Fixpoint rep_greedy (cls : ascii -> bool) (lo : nat) (hi : option nat)
    (s : string) (k : string -> option R) : option R :=
  let stop := match lo with O => k s | S _ => None end in
  match s with
  | String c s' =>
      if cls c && may_take hi
      then match rep_greedy cls (Nat.pred lo) (Nat.pred <$> hi) s' k with
           | Some r => Some r
           | None => stop
           end
      else stop
  | EmptyString => stop
  end.

Fixpoint rep_lazy (cls : ascii -> bool) (lo : nat) (hi : option nat)
    (s : string) (k : string -> option R) : option R :=
  match (match lo with O => k s | S _ => None end) with
  | Some r => Some r
  | None =>
      match s with
      | String c s' =>
          if cls c && may_take hi
          then rep_lazy cls (Nat.pred lo) (Nat.pred <$> hi) s' k
          else None
      | EmptyString => None
      end
  end.

Fixpoint rmatch (r : regex) (s : string) (caps : gmap nat string)
    (k : string -> gmap nat string -> option R) : option R :=
  match r with
  | Lit l =>
      match strip_prefix l s with
      | Some s' => k s' caps
      | None => None
      end
  | Rep greedy cls lo hi =>
      (if greedy then rep_greedy else rep_lazy) cls lo hi s (fun s' => k s' caps)
  | Seq r1 r2 => rmatch r1 s caps (fun s' caps' => rmatch r2 s' caps' k)
  | Alt r1 r2 =>
      match rmatch r1 s caps k with
      | Some x => Some x
      | None => rmatch r2 s caps k
      end
  | Opt r' =>
      match rmatch r' s caps k with
      | Some x => Some x
      | None => k s caps
      end
  | Group n r' =>
      rmatch r' s caps (fun s' caps' => k s' (<[n := consumed s s']> caps'))
  end.
End Matcher.

(** A match object: the whole match and the groups that took part. *)
Record match_object := {
  group0 : string;
  groups : gmap nat string
}.

(** [m.group(n)] of a group that took part, [None] otherwise. *)
Definition group (m : match_object) (n : nat) : option string := groups m !! n.

(** [re.match(r, s)] *)
Definition re_match (r : regex) (s : string) : option match_object :=
  rmatch r s ∅ (fun s' caps => Some {| group0 := consumed s s'; groups := caps |}).

(** [re.search(r, s)]: the first position, from the left, with a match. *)
Fixpoint re_search (r : regex) (s : string) : option match_object :=
  match re_match r s with
  | Some m => Some m
  | None =>
      match s with
      | EmptyString => None
      | String _ s' => re_search r s'
      end
  end.

(** What a match is: [matches r w caps caps'] when [r] can match exactly
    the text [w], the groups going from [caps] to [caps'].  The matcher
    only ever answers with such matches ([rmatch_sound] below). *)
Fixpoint all_chars (cls : ascii -> bool) (w : string) : bool :=
  match w with
  | EmptyString => true
  | String c w' => cls c && all_chars cls w'
  end.

Inductive matches : regex -> string -> gmap nat string -> gmap nat string -> Prop :=
  | matches_lit l caps :
      matches (Lit l) l caps caps
  | matches_rep greedy cls lo hi w caps :
      all_chars cls w = true -> lo <= String.length w ->
      (forall n, hi = Some n -> String.length w <= n) ->
      matches (Rep greedy cls lo hi) w caps caps
  | matches_seq r1 r2 w1 w2 caps caps1 caps2 :
      matches r1 w1 caps caps1 -> matches r2 w2 caps1 caps2 ->
      matches (Seq r1 r2) (w1 +:+ w2) caps caps2
  | matches_alt_l r1 r2 w caps caps' :
      matches r1 w caps caps' -> matches (Alt r1 r2) w caps caps'
  | matches_alt_r r1 r2 w caps caps' :
      matches r2 w caps caps' -> matches (Alt r1 r2) w caps caps'
  | matches_opt_some r w caps caps' :
      matches r w caps caps' -> matches (Opt r) w caps caps'
  | matches_opt_none r caps :
      matches (Opt r) EmptyString caps caps
  | matches_group n r w caps caps' :
      matches r w caps caps' -> matches (Group n r) w caps (<[n := w]> caps').

(** Whether group [n] occurs in a pattern. *)
Fixpoint has_group (n : nat) (r : regex) : bool :=
  match r with
  | Lit _ | Rep _ _ _ _ => false
  | Seq r1 r2 | Alt r1 r2 => has_group n r1 || has_group n r2
  | Opt r' => has_group n r'
  | Group m r' => (n =? m)%nat || has_group n r'
  end.

(** ** [datetime] and [timedelta]

    A naive datetime is its proleptic Gregorian day number
    ([date.toordinal()], 1 for 0001-01-01 up to 3652059 for 9999-12-31)
    and its time of day. *)

Local Open Scope Z_scope.

Record datetime := {
  ordinal : Z;
  hour : Z;
  minute : Z;
  second : Z;
  microsecond : Z
}.

Definition MAXORDINAL : Z := 3652059.
Definition us_per_second : Z := 1000000.
Definition us_per_minute : Z := 60 * us_per_second.
Definition us_per_hour : Z := 60 * us_per_minute.
Definition us_per_day : Z := 24 * us_per_hour.

Definition valid_datetime (d : datetime) : Prop :=
  1 <= ordinal d <= MAXORDINAL /\ 0 <= hour d < 24 /\ 0 <= minute d < 60 /\
  0 <= second d < 60 /\ 0 <= microsecond d < 1000000.

(** Microseconds since the start of day 0. *)
Definition to_us (d : datetime) : Z :=
  ordinal d * us_per_day + hour d * us_per_hour + minute d * us_per_minute
  + second d * us_per_second + microsecond d.

Definition of_us (u : Z) : datetime := {|
  ordinal := u / us_per_day;
  hour := (u mod us_per_day) / us_per_hour;
  minute := (u mod us_per_hour) / us_per_minute;
  second := (u mod us_per_minute) / us_per_second;
  microsecond := u mod us_per_second
|}.

(** [a <= b]: the fields are compared in order. *)
Definition datetime_le (a b : datetime) : bool :=
  match ordinal a ?= ordinal b with
  | Lt => true | Gt => false
  | Eq =>
    match hour a ?= hour b with
    | Lt => true | Gt => false
    | Eq =>
      match minute a ?= minute b with
      | Lt => true | Gt => false
      | Eq =>
        match second a ?= second b with
        | Lt => true | Gt => false
        | Eq => microsecond a <=? microsecond b
        end
      end
    end
  end.

(** [timedelta(days=d, hours=h, minutes=m)], in microseconds; more than
    999999999 days either way is an OverflowError. *)
Definition timedelta (days hours minutes : Z) : res Z :=
  let us := days * us_per_day + hours * us_per_hour + minutes * us_per_minute in
  if (-999999999 <=? us / us_per_day) && (us / us_per_day <=? 999999999)
  then Ok us else Raise OverflowError.

(** [d + delta]: a day outside 1..MAXORDINAL is an OverflowError. *)
Definition datetime_add (d : datetime) (delta : Z) : res datetime :=
  let u := to_us d + delta in
  if (1 <=? u / us_per_day) && (u / us_per_day <=? MAXORDINAL)
  then Ok (of_us u) else Raise OverflowError.

(** [d.replace(hour=h, minute=0, second=0, microsecond=0)] *)
Definition replace_time (d : datetime) (h : Z) : res datetime :=
  if (0 <=? h) && (h <=? 23)
  then Ok {| ordinal := ordinal d; hour := h; minute := 0; second := 0;
             microsecond := 0 |}
  else Raise ValueError.

Local Close Scope Z_scope.

(** ** The recursive evaluator, generic in the grammar table and in the
       four messages it appends to the trace *)

(** One Python [(ok, index)] result together with the trace list after the
    call: the trace is a list object shared by all recursive calls, here
    threaded through them. *)
Definition outcome (T : Type) : Type := (bool * nat * list T)%type.

(** The four f-strings of [parse_symbol]. *)
Record messages (T : Type) := Messages {
  msg_match : string -> T;
  msg_mismatch : string -> option string -> T;
  msg_expand : string -> list string -> T;
  msg_backtrack : string -> list string -> T
}.
Arguments Messages {T}.
Arguments msg_match {T}.
Arguments msg_mismatch {T}.
Arguments msg_expand {T}.
Arguments msg_backtrack {T}.

Section Evaluator.
Context {T : Type}.
Variable M : messages T.
Variable G : gmap string (list (list string)).
Variable tokens : list string.

(** [if sym not in GRAMMAR: ...]: a terminal is compared with the token
    at [i], when there is one. *)
Definition parse_terminal (sym : string) (i : nat) (trace : list T) : outcome T :=
  match tokens !! i with
  | Some t =>
      if String.eqb t sym
      then (true, i + 1, trace ++ [msg_match M sym])
      else (false, i, trace ++ [msg_mismatch M sym (Some t)])
  | None => (false, i, trace ++ [msg_mismatch M sym None])
  end.

(** [for s2 in prod: ok, j = parse_symbol(s2, tokens, j, trace);
    if not ok: break], with [rec] the recursive call. *)
Fixpoint parse_members (rec : string -> nat -> list T -> option (outcome T))
    (prod : list string) (j : nat) (trace : list T) : option (outcome T) :=
  match prod with
  | [] => Some (true, j, trace)
  | s2 :: rest =>
      match rec s2 j trace with
      | None => None
      | Some (true, j', trace') => parse_members rec rest j' trace'
      | Some (false, j', trace') => Some (false, j', trace')
      end
  end.

(** [for prod in GRAMMAR[sym]: ...; return False, i] *)
Fixpoint parse_productions (rec : string -> nat -> list T -> option (outcome T))
    (sym : string) (i : nat) (prods : list (list string)) (trace : list T)
    : option (outcome T) :=
  match prods with
  | [] => Some (false, i, trace)
  | prod :: rest =>
      match parse_members rec prod i (trace ++ [msg_expand M sym prod]) with
      | None => None
      | Some (true, j, trace') => Some (true, j, trace')
      | Some (false, _, trace') =>
          parse_productions rec sym i rest (trace' ++ [msg_backtrack M sym prod])
      end
  end.

(** [parse_symbol(sym, tokens, i, trace)].  The Python function recurses
    without bound; [fuel] bounds the nesting depth of the calls and [None]
    means the bound was reached. *)
Fixpoint parse_symbol (fuel : nat) (sym : string) (i : nat) (trace : list T)
    : option (outcome T) :=
  match fuel with
  | O => None
  | S fuel' =>
      match G !! sym with
      | None => Some (parse_terminal sym i trace)
      | Some prods => parse_productions (parse_symbol fuel') sym i prods trace
      end
  end.

(** The same evaluator as a big-step relation, one rule per path through
    the body of [parse_symbol]; it has no bound on the nesting depth. *)
Inductive eval_symbol : string -> nat -> list T -> outcome T -> Prop :=
  | eval_terminal sym i trace :
      G !! sym = None ->
      eval_symbol sym i trace (parse_terminal sym i trace)
  | eval_nonterminal sym i trace prods r :
      G !! sym = Some prods ->
      eval_productions sym i prods trace r ->
      eval_symbol sym i trace r
with eval_members : list string -> nat -> list T -> outcome T -> Prop :=
  | eval_members_done j trace :
      eval_members [] j trace (true, j, trace)
  | eval_members_next s2 rest j trace j' trace' r :
      eval_symbol s2 j trace (true, j', trace') ->
      eval_members rest j' trace' r ->
      eval_members (s2 :: rest) j trace r
  | eval_members_break s2 rest j trace j' trace' :
      eval_symbol s2 j trace (false, j', trace') ->
      eval_members (s2 :: rest) j trace (false, j', trace')
with eval_productions
    : string -> nat -> list (list string) -> list T -> outcome T -> Prop :=
  | eval_productions_exhausted sym i trace :
      eval_productions sym i [] trace (false, i, trace)
  | eval_productions_return sym i prod rest trace j trace' :
      eval_members prod i (trace ++ [msg_expand M sym prod]) (true, j, trace') ->
      eval_productions sym i (prod :: rest) trace (true, j, trace')
  | eval_productions_backtrack sym i prod rest trace j trace' r :
      eval_members prod i (trace ++ [msg_expand M sym prod]) (false, j, trace') ->
      eval_productions sym i rest (trace' ++ [msg_backtrack M sym prod]) r ->
      eval_productions sym i (prod :: rest) trace r.

Scheme eval_symbol_mut := Minimality for eval_symbol Sort Prop
  with eval_members_mut := Minimality for eval_members Sort Prop
  with eval_productions_mut := Minimality for eval_productions Sort Prop.
Combined Scheme eval_mutind
  from eval_symbol_mut, eval_members_mut, eval_productions_mut.

(** Nesting depth needed by a symbol: [depth_ok n sym] holds when [n]
    nested calls are enough whatever the tokens are. *)
Fixpoint depth_ok (n : nat) (sym : string) : bool :=
  match n with
  | O => false
  | S n' =>
      match G !! sym with
      | None => true
      | Some prods => forallb (forallb (depth_ok n')) prods
      end
  end.
End Evaluator.

(** ** Trace events of the data model

    The same evaluator run with constructors in place of the f-strings. *)
Inductive event :=
  | Expand (symbol : string) (production : list string)
  | MatchTerminal (symbol : string)
  | MismatchTerminal (symbol : string) (found : option string)
  | Backtrack (symbol : string) (production : list string).

Definition event_messages : messages event := {|
  msg_match := MatchTerminal;
  msg_mismatch := MismatchTerminal;
  msg_expand := Expand;
  msg_backtrack := Backtrack
|}.

(** Reading a trace line back: the terminal of a "matched" line. *)
Definition matched_line (pre : string) (line : string) : option string :=
  match strip_prefix pre line with
  | Some rest => Some (drop_last rest)
  | None => None
  end.

(** ** [src/codeNew.py] *)
Module CodeNew.

(** [tokenize(s)] *)
Definition tokenize (s : string) : list string :=
  split (remove_chars is_punctuation (lower (strip s))).

Definition GRAMMAR : gmap string (list (list string)) :=
  list_to_map [
    ("COMMAND", [["ACTION"]; ["SCHEDULE"]]);
    ("ACTION", [["VERB"; "SWITCH"; "DEVICE"]]);
    ("VERB", [["turn"]; ["switch"]]);
    ("SWITCH", [["on"]; ["off"]]);
    ("DEVICE", [["the"; "ROOM"; "DEVICE_NP"]; ["DEVICE_NP"; "in"; "ROOM"]; ["DEVICE_NP"]]);
    ("ROOM", [["living"; "room"]; ["kitchen"]; ["bedroom"]; ["bathroom"]]);
    ("DEVICE_NP", [["light"]; ["lights"]; ["fan"]; ["heater"]; ["air"; "conditioner"]]);
    ("SCHEDULE", [["REMIND_PHRASE"; "TASK"; "TIME_PHRASE"]]);
    ("REMIND_PHRASE", [["remind"; "me"; "to"]; ["set"; "alarm"; "for"]; ["schedule"; "a"]]);
    ("TASK", [["take"; "medicine"]; ["water"; "the"; "plants"];
              ["meeting"; "with"; "team"]; ["read"; "the"; "book"]]);
    ("TIME_PHRASE", [["at"; "TIME"]; ["after"; "DURATION"]; ["tomorrow"; "at"; "TIME"]]);
    ("TIME", [["6"; "pm"]; ["7"; "am"]; ["3"; "pm"]; ["9"; "am"]]);
    ("DURATION", [["1"; "hour"]; ["2"; "hours"]; ["30"; "minutes"]])
  ].

(** The trace lines of [parse_symbol]. *)
Definition trace_messages : messages string := {|
  msg_match sym := "✓ Matched '" +:+ sym +:+ "'";
  msg_mismatch sym found :=
    "❌ Expected '" +:+ sym +:+ "', got '" +:+ default "EOF" found +:+ "'";
  msg_expand sym prod := "Expanding " +:+ sym +:+ " → " +:+ join " " prod;
  msg_backtrack sym prod := "Backtrack on " +:+ sym +:+ " → " +:+ join " " prod
|}.

(** Nesting depth of [GRAMMAR]: COMMAND, ACTION, DEVICE, ROOM, terminal. *)
Definition depth : nat := 5.

Definition parse_symbol (sym : string) (tokens : list string) (i : nat)
    (trace : list string) : option (outcome string) :=
  parse_symbol trace_messages GRAMMAR tokens depth sym i trace.

(** [parse_command(tokens)]: a fresh trace list, the start symbol from
    index 0, and [ok and idx == len(tokens)]. *)
Definition parse_command (tokens : list string) : option (bool * list string) :=
  match parse_symbol "COMMAND" tokens 0 [] with
  | None => None
  | Some (ok, idx, trace) => Some (ok && (idx =? length tokens)%nat, trace)
  end.

(** *** Interpreter *)

Definition am_pm : regex := alts [Lit "am"; Lit "pm"].

(** [(\d{1,2})\s*(am|pm)] *)
Definition time_of_day_re : regex :=
  seqs [Group 1 digits_1_2; ws_star; Group 2 am_pm].

(** [parse_time_of_day(t, ref)], with [ref] given. *)
Definition parse_time_of_day (t : string) (ref : datetime) : res datetime :=
  match re_match time_of_day_re t with
  | None => Raise ValueError
  | Some m =>
      let h := int (default "" (group m 1)) in
      let ampm := default "" (group m 2) in
      let h := if String.eqb ampm "pm" && negb (h =? 12)%Z then (h + 12)%Z else h in
      let h := if String.eqb ampm "am" && (h =? 12)%Z then 0%Z else h in
      dt ← replace_time ref h;
      if datetime_le dt ref
      then day ← timedelta 1 0 0; datetime_add dt day
      else Ok dt
  end.

(** [parse_duration(num, unit, ref)], with [ref] given. *)
Definition parse_duration (num : Z) (unit : string) (ref : datetime) : res datetime :=
  if contains "hour" unit
  then delta ← timedelta 0 num 0; datetime_add ref delta
  else delta ← timedelta 0 0 num; datetime_add ref delta.

(** [(turn|switch)\s+(on|off)\s+(?:the\s+)?((?:living|kitchen|bedroom|bathroom)\s+)?(lights?|fan|heater|air conditioner)] *)
Definition device_re : regex :=
  seqs [Group 1 (alts [Lit "turn"; Lit "switch"]); ws_plus;
        Group 2 (alts [Lit "on"; Lit "off"]); ws_plus;
        Opt (seqs [Lit "the"; ws_plus]);
        Opt (Group 3 (seqs [alts [Lit "living"; Lit "kitchen"; Lit "bedroom";
                                  Lit "bathroom"]; ws_plus]));
        Group 4 (alts [seqs [Lit "light"; Opt (Lit "s")]; Lit "fan";
                       Lit "heater"; Lit "air conditioner"])].

(** [(remind me to|set alarm for|schedule a)\s+(.+?)\s+(at\s+\d{1,2}\s*(?:am|pm)|after\s+\d+\s+(?:hours|minutes)|tomorrow\s+at\s+\d{1,2}\s*(?:am|pm))] *)
Definition schedule_re : regex :=
  seqs [Group 1 (alts [Lit "remind me to"; Lit "set alarm for"; Lit "schedule a"]);
        ws_plus; Group 2 any_plus_lazy; ws_plus;
        Group 3 (alts [
          seqs [Lit "at"; ws_plus; digits_1_2; ws_star; am_pm];
          seqs [Lit "after"; ws_plus; digits_plus; ws_plus;
                alts [Lit "hours"; Lit "minutes"]];
          seqs [Lit "tomorrow"; ws_plus; Lit "at"; ws_plus; digits_1_2; ws_star;
                am_pm]])].

(** [(\d+)] and [(\d{1,2}\s*(?:am|pm))] *)
Definition number_re : regex := Group 1 digits_plus.
Definition clock_re : regex := Group 1 (seqs [digits_1_2; ws_star; am_pm]).

(** The dict returned by [interpret]: it has one of three shapes, told
    apart by its ['action_type'] ('device', 'schedule' or None); the keys
    that a shape leaves at None are omitted. *)
Inductive semantics :=
  | sem_device (command_text device state : string)
  | sem_schedule (command_text task : string) (scheduled_time : datetime)
  | sem_none (command_text : string).

Definition action_type (sem : semantics) : option string :=
  match sem with
  | sem_device _ _ _ => Some "device"
  | sem_schedule _ _ _ => Some "schedule"
  | sem_none _ => None
  end.

(** [re.search(r, s).group(1)]; [None.group] is an AttributeError. *)
Definition search_group1 (r : regex) (s : string) : res string :=
  match re_search r s with
  | Some m => Ok (default "" (group m 1))
  | None => Raise AttributeError
  end.

(** [interpret(text)]; [now] is what [datetime.now()] returns in it.
    Groups 1, 2 and 4 of the device pattern and 2 and 3 of the schedule
    pattern take part in every match. *)
Definition interpret (text : string) (now : datetime) : res semantics :=
  let joined := join " " (tokenize text) in
  match re_search device_re joined with
  | Some m =>
      let room := strip (default "" (group m 3)) in
      let device := strip (room +:+ " " +:+ default "" (group m 4)) in
      Ok (sem_device text device (default "" (group m 2)))
  | None =>
      match re_search schedule_re joined with
      | Some m =>
          let phrase := default "" (group m 3) in
          t ← (if contains "after" phrase then
                 n ← search_group1 number_re phrase;
                 let unit := if contains "hour" phrase then "hours" else "minutes" in
                 parse_duration (int n) unit now
               else if contains "tomorrow" phrase then
                 hr ← search_group1 clock_re phrase;
                 day ← timedelta 1 0 0;
                 ref ← datetime_add now day;
                 parse_time_of_day hr ref
               else
                 hr ← search_group1 clock_re phrase;
                 parse_time_of_day hr now);
          Ok (sem_schedule text (strip (default "" (group m 2))) t)
      | None => Ok (sem_none text)
      end
  end.

(** *** Device controller *)

(** [self.devices] after [__init__]: each device name with the value of
    the ['state'] key of its dict. *)
Definition initial_devices : gmap string string :=
  list_to_map [
    ("living room lights", "off");
    ("kitchen fan", "off");
    ("bedroom heater", "off");
    ("bathroom lights", "off");
    ("air conditioner", "off")
  ].

(** [set_device(name, state)]: the returned flag and the devices after
    the call (the log lines are left out). *)
Definition set_device (devices : gmap string string) (name state : string)
    : bool * gmap string string :=
  let name := replace_double_space (strip name) in
  match devices !! name with
  | Some old => (true, <[name := state]> devices)
  | None => (false, devices)
  end.

(** *** The assistant *)

(** A row of the [events] table; the two times are kept as datetimes
    where the row has their ISO text. *)
Record event_row := {
  ts_created : datetime;
  row_command_text : string;
  row_action_type : string;
  target : string;
  row_scheduled_time : option datetime;
  status : string;
  meta : list (string * string)
}.

(** What [handle] reads and writes: the controller's devices, the
    [events] table keyed by id, and the scheduler's queue. *)
Record world := {
  devices : gmap string string;
  events : gmap string event_row;
  timers : list (datetime * string)
}.

(** The ["result"] text of the returned dict. *)
Inductive result_text :=
  | device_executed      (* "✅ Device command executed" *)
  | unknown_device       (* "⚠️ Unknown device" *)
  | reminder_set (t : datetime)  (* "🕒 Reminder set for {t}" *)
  | not_recognized.      (* "❌ Command not recognized" *)

Record response := {
  ok : bool;
  trace : list string;
  result : result_text
}.

(** [persist_event(ev)]: INSERT OR REPLACE by id. *)
Definition persist_event (id : string) (ev : event_row) (w : world) : world :=
  {| devices := devices w; events := <[id := ev]> (events w); timers := timers w |}.

(** [handle(text)].  [clock] is the value of [datetime.now()] inside
    [interpret], [now] the one read by [handle], [id] the fresh uuid. *)
Definition handle (text : string) (clock now : datetime) (id : string) (w : world)
    : option (res (response * world)) :=
  match parse_command (tokenize text) with
  | None => None
  | Some (ok, trace) =>
      Some (
        sem ← interpret text clock;
        match sem with
        | sem_device _ device state =>
            let '(done, devices') := set_device (devices w) device state in
            let ev := {| ts_created := now; row_command_text := text;
                         row_action_type := "device"; target := device;
                         row_scheduled_time := None;
                         status := if done then "done" else "failed";
                         meta := [("state", state)] |} in
            let w' := {| devices := devices'; events := events w;
                         timers := timers w |} in
            Ok ({| ok := ok; trace := trace;
                   result := if done then device_executed else unknown_device |},
                persist_event id ev w')
        | sem_schedule _ task t =>
            let w' := {| devices := devices w; events := events w;
                         timers := timers w ++ [(t, task)] |} in
            let ev := {| ts_created := now; row_command_text := text;
                         row_action_type := "schedule"; target := task;
                         row_scheduled_time := Some t; status := "scheduled";
                         meta := [] |} in
            Ok ({| ok := ok; trace := trace; result := reminder_set t |},
                persist_event id ev w')
        | sem_none _ =>
            Ok ({| ok := false; trace := trace; result := not_recognized |}, w)
        end)
  end.

End CodeNew.

(** ** [src/code.py] *)
Module Code.

(** [s.endswith('.')] *)
Definition ends_with_dot (s : string) : bool :=
  match String.get (String.length s - 1) s with
  | Some c => Ascii.eqb c "."
  | None => false
  end.

(** [tokenize(s)]: one final full stop is dropped before the split. *)
Definition tokenize (s : string) : list string :=
  let s := lower (strip s) in
  split (if ends_with_dot s then drop_last s else s).

Definition grammar : gmap string (list (list string)) :=
  list_to_map [
    ("COMMAND", [["ACTION"]]);
    ("ACTION", [["VERB"; "SWITCH"; "TARGET"]]);
    ("VERB", [["turn"]; ["switch"]]);
    ("SWITCH", [["on"]; ["off"]]);
    ("TARGET", [["ALL_PHRASE"]; ["DEVICE_PHRASE"]; ["DEVICE_IN_ROOM"]]);
    ("ALL_PHRASE", [["all"; "DEVICE_PLURAL"]]);
    ("DEVICE_PHRASE", [["LOCATION_OPT"; "DEVICE_NP"]]);
    ("DEVICE_IN_ROOM", [["DEVICE_NP"; "in"; "ROOM"]]);
    ("LOCATION_OPT", [["the"; "ROOM"]; ["in"; "ROOM"]; ["the"]; []]);
    ("DEVICE_NP", [["lights"]; ["light"]; ["fan"]; ["fans"];
                   ["heater"]; ["air"; "conditioner"]; ["conditioner"]]);
    ("DEVICE_PLURAL", [["lights"]; ["fans"]]);
    ("ROOM", [["living"; "room"]; ["kitchen"]; ["bedroom"]; ["bathroom"]])
  ].

(** [' '.join(prod) if prod else 'ε'] *)
Definition show_production (prod : list string) : string :=
  match prod with [] => "ε" | _ => join " " prod end.

Definition trace_messages : messages string := {|
  msg_match sym := "Matched terminal '" +:+ sym +:+ "'";
  msg_mismatch sym found :=
    "❌ Expected '" +:+ sym +:+ "', got '" +:+ default "EOF" found +:+ "'";
  msg_expand sym prod := "Expanding " +:+ sym +:+ " → " +:+ show_production prod;
  msg_backtrack sym prod :=
    "Backtrack on rule " +:+ sym +:+ " → " +:+ show_production prod
|}.

(** Nesting depth of [grammar]: COMMAND, ACTION, TARGET, DEVICE_PHRASE,
    LOCATION_OPT, ROOM, terminal. *)
Definition depth : nat := 7.

Definition parse_symbol (symbol : string) (tokens : list string) (i : nat)
    (trace : list string) : option (outcome string) :=
  parse_symbol trace_messages grammar tokens depth symbol i trace.

(** [parse(tokens, show_trace)]: the verdict [ok and index == len(tokens)]
    and the lines printed when [show_trace] is set. *)
Definition parse (tokens : list string) (show_trace : bool)
    : option (bool * list string) :=
  match parse_symbol "COMMAND" tokens 0 [] with
  | None => None
  | Some (ok, index, trace) =>
      Some (ok && (index =? length tokens)%nat,
            if show_trace then "" :: "--- PARSING TRACE ---" :: trace else [])
  end.

End Code.

(** ** [src/hybrid_smart_home.py] *)
Module Hybrid.

Definition DEFAULT_LIGHT : string := "living room light".

(** [self.devices] after [__init__] *)
Definition initial_devices : gmap string string :=
  list_to_map [
    ("living room light", "off");
    ("kitchen fan", "off");
    ("bedroom heater", "off")
  ].

(** [set_device(device, state)]: the returned flag and the devices after
    the call (the printed lines are left out). *)
Definition set_device (devices : gmap string string) (device state : string)
    : bool * gmap string string :=
  match devices !! device with
  | Some _ => (true, <[device := state]> devices)
  | None => (false, devices)
  end.

(** [extract_device(text)] *)
Definition extract_device (text : string) : option string :=
  if contains "living" text && contains "light" text then Some "living room light"
  else if contains "kitchen" text && contains "fan" text then Some "kitchen fan"
  else if contains "heater" text then Some "bedroom heater"
  else if contains "light" text then Some DEFAULT_LIGHT
  else None.

End Hybrid.

(** ** Device-name resolution as the specification words it

    Stated from the specification, to be compared with [CodeNew.interpret]
    and [Hybrid.extract_device]: an explicit room with a device gives
    "room device"; a device alone gives the configured default room of its
    class, or a distinguishable error when none is configured; no device
    gives Unrecognized. *)
Inductive resolution :=
  | Resolved (name : string)
  | UnresolvedDevice
  | Unrecognized.

Definition spec_resolve_device (default_room : string -> option string)
    (room device : option string) : resolution :=
  match device with
  | None => Unrecognized
  | Some d =>
      match room with
      | Some r => Resolved (r +:+ " " +:+ d)
      | None =>
          match default_room d with
          | Some r => Resolved (r +:+ " " +:+ d)
          | None => UnresolvedDevice
          end
      end
  end.

(** What the two extractors answer, read as a resolution. *)
Definition interpret_resolution (r : res CodeNew.semantics) : resolution :=
  match r with
  | Ok (CodeNew.sem_device _ device _) => Resolved device
  | _ => Unrecognized
  end.

Definition extract_resolution (r : option string) : resolution :=
  match r with
  | Some device => Resolved device
  | None => Unrecognized
  end.

(** The terminals of the "matched" lines of a trace, in order, for the two
    trace formats. *)
Definition codenew_matched : string -> option string := matched_line "✓ Matched '".
Definition code_matched : string -> option string := matched_line "Matched terminal '".

(** An ambiguous toy grammar: both alternatives of S succeed on a leading
    "a", the second one would also take a following "b". *)
Definition toy_grammar : gmap string (list (list string)) :=
  list_to_map [("S", [["a"]; ["a"; "b"]])].

(** The law of the top-level entry points: [run] is the evaluation of the
    start symbol from 0, [verdict] what the entry point answers. *)
Definition top_level_law (tokens : list string)
    (run : option (outcome string)) (verdict : option bool) : Prop :=
  exists ok idx trace,
    run = Some (ok, idx, trace) /\
    verdict = Some (ok && (idx =? length tokens)%nat) /\
    (ok && (idx =? length tokens)%nat = true <-> ok = true /\ idx = length tokens) /\
    (ok = true -> idx < length tokens -> ok && (idx =? length tokens)%nat = false).

(** Sample values for the examples: 2026-11-03 10:30:00 and a fresh
    assistant. *)
Definition sample_now : datetime :=
  {| ordinal := 739923; hour := 10; minute := 30; second := 0; microsecond := 0 |}.

Definition fresh_world : CodeNew.world :=
  {| CodeNew.devices := CodeNew.initial_devices; CodeNew.events := ∅;
     CodeNew.timers := [] |}.

(** ** Time resolution as the specification words it *)

(** The text "H am" or "H pm". *)
Definition clock_text (H : Z) (pm : bool) : string :=
  pretty H +:+ " " +:+ (if pm then "pm" else "am").

(** The hour of the day that "H am/pm" means on a 12-hour clock: "12 pm"
    is hour 12 and "12 am" is hour 0. *)
Definition twelve_hour_clock (H : Z) (pm : bool) : Z :=
  if pm then (if (H =? 12)%Z then 12 else H + 12)%Z
  else (if (H =? 12)%Z then 0 else H)%Z.

(** Day [day] at [h]:00:00. *)
Definition at_hour (day h : Z) : datetime :=
  {| ordinal := day; hour := h; minute := 0; second := 0; microsecond := 0 |}.

(** The next strictly future occurrence of [h]:00 seen from [ref]: today
    if that is still ahead, tomorrow otherwise. *)
Definition next_occurrence (h : Z) (ref : datetime) : datetime :=
  if (to_us ref <? to_us (at_hour (ordinal ref) h))%Z
  then at_hour (ordinal ref) h
  else at_hour (ordinal ref + 1) h.

(** The hour [parse_time_of_day] reads from its text, after the am/pm
    adjustment; [None] when the pattern does not match. *)
Definition matched_hour (t : string) : option Z :=
  match re_match CodeNew.time_of_day_re t with
  | None => None
  | Some m =>
      let h := int (default "" (group m 1)) in
      let ampm := default "" (group m 2) in
      let h := if String.eqb ampm "pm" && negb (h =? 12)%Z then (h + 12)%Z else h in
      let h := if String.eqb ampm "am" && (h =? 12)%Z then 0%Z else h in
      Some h
  end.

(** The room words and device nouns of the device pattern of
    [CodeNew.interpret]. *)
Definition room_words : list string := ["living"; "kitchen"; "bedroom"; "bathroom"].
Definition device_nouns : list string :=
  ["light"; "lights"; "fan"; "heater"; "air conditioner"].

(** The configuration of the specification's example: default room
    "kitchen" for the fan; and the one with no default at all. *)
Definition kitchen_default (device : string) : option string :=
  if String.eqb device "fan" then Some "kitchen" else None.
Definition no_default (device : string) : option string := None.

(** ** Invariants of the evaluator, used in the proofs below *)

(** A call from [i]: the position never moves back, a failure returns [i],
    and a call that starts inside the input ends inside it. *)
Definition position_law {T} (tokens : list string) (i : nat) (r : outcome T) : Prop :=
  let '(ok, j, _) := r in
  i <= j /\ (ok = false -> j = i) /\ (i <= length tokens -> j <= length tokens).

(** The members of a production from [i]: the same without the clause on
    failure (the loop breaks with the position of the failing member). *)
Definition members_position_law {T} (tokens : list string) (i : nat)
    (r : outcome T) : Prop :=
  let '(_, j, _) := r in i <= j /\ (i <= length tokens -> j <= length tokens).

(** The call appends [evs] to the trace; every matched item of [evs] is a
    token of the input; on success the tokens between the two positions
    occur, in order, among the matched items. *)
Definition trace_law {T} (matched : T -> option string) (tokens : list string)
    (i : nat) (trace : list T) (r : outcome T) : Prop :=
  let '(ok, j, trace') := r in
  exists evs, trace' = trace ++ evs /\
    Forall (fun s => s ∈ tokens) (omap matched evs) /\
    (ok = true -> exists seg, drop i tokens = seg ++ drop j tokens /\
                   seg `sublist_of` omap matched evs).

(** The text a repetition of a class may take. *)
Definition rep_law (cls : ascii -> bool) (lo : nat) (hi : option nat) (w : string) : Prop :=
  all_chars cls w = true /\ lo <= String.length w /\
  (forall n, hi = Some n -> String.length w <= n).

(** ** Proof tactics *)

Ltac unfold_units :=
  unfold to_us, of_us, at_hour, MAXORDINAL in *;
  change us_per_day with 86400000000%Z in *;
  change us_per_hour with 3600000000%Z in *;
  change us_per_minute with 60000000%Z in *;
  change us_per_second with 1000000%Z in *;
  simpl in *.

Ltac invert H := inversion H; subst; clear H.

Ltac inv_matches :=
  repeat match goal with
  | H : matches (Seq _ _) _ _ _ |- _ => invert H
  | H : matches (Alt _ _) _ _ _ |- _ => invert H
  | H : matches (Opt _) _ _ _ |- _ => invert H
  | H : matches (Group _ _) _ _ _ |- _ => invert H
  | H : matches (Lit _) _ _ _ |- _ => invert H
  | H : matches (Rep _ _ _ _) _ _ _ |- _ => invert H
  end.

Ltac solve_elem_of :=
  apply list_elem_of_In; vm_compute; repeat (first [left; reflexivity | right]).

(** ** The language of a grammar table

    [derives G sym w]: the token list [w] can be derived from [sym] with
    the productions of the table [G]; a symbol absent from the table is a
    terminal and derives itself. *)
Inductive derives (G : gmap string (list (list string)))
    : string -> list string -> Prop :=
  | derives_terminal sym :
      G !! sym = None -> derives G sym [sym]
  | derives_nonterminal sym prods prod w :
      G !! sym = Some prods -> prod ∈ prods -> derives_members G prod w ->
      derives G sym w
with derives_members (G : gmap string (list (list string)))
    : list string -> list string -> Prop :=
  | derives_members_nil :
      derives_members G [] []
  | derives_members_cons s2 rest w1 w2 :
      derives G s2 w1 -> derives_members G rest w2 ->
      derives_members G (s2 :: rest) (w1 ++ w2).

Scheme derives_mut := Minimality for derives Sort Prop
  with derives_members_mut := Minimality for derives_members Sort Prop.
Combined Scheme derives_mutind from derives_mut, derives_members_mut.

(** The longest and the shortest token list a symbol can derive within
    nesting depth [n]. *)
Fixpoint max_yield (G : gmap string (list (list string))) (n : nat) (sym : string) : nat :=
  match n with
  | O => 0
  | S n' =>
      match G !! sym with
      | None => 1
      | Some prods =>
          foldr Nat.max 0 (map (fun prod => foldr Nat.add 0 (map (max_yield G n') prod)) prods)
      end
  end.

Fixpoint min_yield (G : gmap string (list (list string))) (n : nat) (sym : string) : nat :=
  match n with
  | O => 0
  | S n' =>
      match G !! sym with
      | None => 1
      | Some [] => 0
      | Some (prod :: prods) =>
          foldr Nat.min (foldr Nat.add 0 (map (min_yield G n') prod))
            (map (fun prod => foldr Nat.add 0 (map (min_yield G n') prod)) prods)
      end
  end.

(** The Expand and Backtrack items of the productions of a symbol that
    were tried and abandoned, in table order. *)
Definition abandoned_items {T} (M : messages T) (sym : string)
    (prods : list (list string)) : list T :=
  prods ≫= (fun prod => [msg_expand M sym prod; msg_backtrack M sym prod]).

(** ** What a token is made of *)

(** The ASCII capitals, which [lower] rewrites. *)
Definition is_upper (c : ascii) : bool :=
  let n := nat_of_ascii c in ((65 <=? n) && (n <=? 90))%nat.

(** A character that [tokenize] of codeNew.py lets into a token: no
    punctuation of the class [[.,;!?]], no capital, no blank. *)
Definition token_char (c : ascii) : bool :=
  (negb (is_punctuation c) && negb (is_upper c)) && negb (is_space c).

(** A character that [tokenize] of code.py lets into a token: no capital,
    no blank. *)
Definition word_char (c : ascii) : bool :=
  negb (is_upper c) && negb (is_space c).

(** A character of an input with nothing to tokenize. *)
Definition blank_or_punctuation (c : ascii) : bool :=
  is_space c || is_punctuation c.

(** The names a device intent of [CodeNew.interpret] can carry: a device
    noun, alone or after a room word. *)
Definition intent_names : list string :=
  device_nouns ++ (room ← room_words; noun ← device_nouns; [room +:+ " " +:+ noun]).

(** The token lists a symbol derives within nesting depth [n], production
    by production in table order. *)
Definition members_language (lang : string -> list (list string))
    (prod : list string) : list (list string) :=
  foldr (fun s2 acc => w1 ← lang s2; w2 ← acc; [w1 ++ w2]) [[]] prod.

Fixpoint language (G : gmap string (list (list string))) (n : nat) (sym : string)
    : list (list string) :=
  match n with
  | O => []
  | S n' =>
      match G !! sym with
      | None => [[sym]]
      | Some prods => prods ≫= members_language (language G n')
      end
  end.

(** Whether [parse_command] of codeNew.py and [parse] of code.py accept. *)
Definition codenew_accepts (tokens : list string) : bool :=
  bool_decide (fst <$> CodeNew.parse_command tokens = Some true).

Definition code_accepts (tokens : list string) : bool :=
  bool_decide (fst <$> Code.parse tokens false = Some true).

(** A verb, a switch word and then a device followed by "in" and a room:
    the sentences of the third alternative of TARGET in code.py. *)
Definition in_room_sentence (tokens : list string) : Prop :=
  exists v s w, tokens = v :: s :: w /\ derives Code.grammar "DEVICE_IN_ROOM" w.

(** ** hybrid_smart_home_assistant.py

    [normalize], [cfg_device_match] and [extract_state] read the same in
    hybrid_smart_home.py; the device controller and [extract_device] are
    those of [Hybrid]. *)
Module HybridAssistant.

(** The class [\w] on ASCII: letters, digits and the underscore. *)
Definition is_word (c : ascii) : bool :=
  let n := nat_of_ascii c in
  ((48 <=? n) && (n <=? 57) || (65 <=? n) && (n <=? 90)
   || (97 <=? n) && (n <=? 122) || (n =? 95))%nat.

(** [normalize(text)]: [re.sub(r"[^\w\s]", "", text.lower())] *)
Definition normalize (text : string) : string :=
  remove_chars (fun c => negb (is_word c || is_space c)) (lower text).

(** [(living room light|kitchen fan|bedroom heater)] without its group *)
Definition device_names : regex :=
  alts [Lit "living room light"; Lit "kitchen fan"; Lit "bedroom heater"].

(** [(turn|switch)\s+(on|off)\s+(living room light|kitchen fan|bedroom heater)]
    and [(living room light|kitchen fan|bedroom heater)\s+(on|off)] *)
Definition patterns : list regex := [
  seqs [Group 1 (alts [Lit "turn"; Lit "switch"]); ws_plus;
        Group 2 (alts [Lit "on"; Lit "off"]); ws_plus; Group 3 device_names];
  seqs [Group 1 device_names; ws_plus; Group 2 (alts [Lit "on"; Lit "off"])]
].

(** [cfg_device_match(text)]: [any(re.search(p, text) for p in patterns)] *)
Definition cfg_device_match (text : string) : bool :=
  existsb (fun p => match re_search p text with Some _ => true | None => false end)
    patterns.

(** [extract_state(text)] *)
Definition extract_state (text : string) : option string :=
  if contains "on" text then Some "on"
  else if contains "off" text then Some "off"
  else None.

(** The four values [handle] gives to [log_event]; the id and the time
    that [log_event] adds to the row are left out. *)
Record log_entry := {
  log_command : string;
  log_intent : string;
  log_source : string;
  log_status : string
}.

(** What [handle] reads and writes: the controller's devices, the rows
    added to the [logs] table, oldest first, and the tasks given to the
    reminder scheduler. *)
Record world := {
  devices : gmap string string;
  logs : list log_entry;
  reminders : list string
}.

(** [log_event(cmd, intent, source, status)] *)
Definition log_event (cmd intent source status : string) (w : world) : world :=
  {| devices := devices w;
     logs := logs w ++ [{| log_command := cmd; log_intent := intent;
                           log_source := source; log_status := status |}];
     reminders := reminders w |}.

(** The device branch of [handle], which the source has twice, once with
    source "CFG" and once with "ML".  [not device or not state] holds
    exactly for [None]: neither extractor returns an empty string. *)
Definition device_command (command text source : string) (w : world) : world :=
  match Hybrid.extract_device text, extract_state text with
  | Some device, Some state =>
      let '(_, devices') := Hybrid.set_device (devices w) device state in
      log_event command "device" source "success"
        {| devices := devices'; logs := logs w; reminders := reminders w |}
  | _, _ => log_event command "device" source "failed" w
  end.

(** [handle(command)], the printed lines left out.  [predict] is
    [self.ml.predict], the trained classifier. *)
Definition handle (predict : string -> string) (command : string) (w : world)
    : world :=
  let text := normalize command in
  if cfg_device_match text then device_command command text "CFG" w
  else
    let intent := predict text in
    if String.eqb intent "device" then device_command command text "ML" w
    else if String.eqb intent "schedule" then
      log_event command "schedule" "ML" "scheduled"
        {| devices := devices w; logs := logs w;
           reminders := reminders w ++ [command] |}
    else w.

End HybridAssistant.

(** A character that [HybridAssistant.normalize] keeps: a small letter, a
    digit, the underscore or a blank. *)
Definition normal_char (c : ascii) : bool :=
  (HybridAssistant.is_word c || is_space c) && negb (is_upper c).

(** The world of a fresh hybrid assistant. *)
Definition fresh_hybrid_world : HybridAssistant.world :=
  {| HybridAssistant.devices := Hybrid.initial_devices;
     HybridAssistant.logs := [];
     HybridAssistant.reminders := [] |}.

(** ** The committed part of a trace

    The trace is the log of the whole search.  [committed] reads it back
    and leaves out the abandoned productions: a Backtrack line removes
    itself and everything back to, and with, the latest Expand line of the
    same production.  [expanded] and [backtracked] read the production of
    an Expand and of a Backtrack line. *)
Section Committed.
Context {T : Type}.
Variable expanded backtracked : T -> option string.

Fixpoint unwind (key : string) (kept : list T) : list T :=
  match kept with
  | [] => []
  | x :: kept' =>
      if decide (expanded x = Some key) then kept' else unwind key kept'
  end.

(** [kept] holds the lines kept so far, the latest first. *)
Fixpoint replay (kept : list T) (evs : list T) : list T :=
  match evs with
  | [] => kept
  | x :: evs' =>
      replay (match backtracked x with
              | Some key => unwind key kept
              | None => x :: kept
              end) evs'
  end.

Definition committed (trace : list T) : list T := rev (replay [] trace).
End Committed.

(** The production named by an "Expanding" and by a "Backtrack" line of
    the two programs. *)
Definition codenew_expanded : string -> option string := strip_prefix "Expanding ".
Definition codenew_backtracked : string -> option string := strip_prefix "Backtrack on ".
Definition code_expanded : string -> option string := strip_prefix "Expanding ".
Definition code_backtracked : string -> option string :=
  strip_prefix "Backtrack on rule ".

Definition codenew_committed : list string -> list string :=
  committed codenew_expanded codenew_backtracked.
Definition code_committed : list string -> list string :=
  committed code_expanded code_backtracked.

(** [below G s s']: [s'] occurs in a production of [s], or of a symbol
    below [s]. *)
Inductive below (G : gmap string (list (list string))) : string -> string -> Prop :=
  | below_member s prods prod s2 :
      G !! s = Some prods -> prod ∈ prods -> s2 ∈ prod -> below G s s2
  | below_trans s s2 s3 :
      below G s s2 -> below G s2 s3 -> below G s s3.

(** The Expand lines among [added] are those of [sym] and of symbols below
    it. *)
Definition expands_from {T} (M : messages T) (G : gmap string (list (list string)))
    (expanded : T -> option string) (sym : string) (added : list T) : Prop :=
  Forall (fun x => expanded x = None \/
                   exists s p, x = msg_expand M s p /\ is_Some (G !! s) /\
                               (s = sym \/ below G sym s)) added.

(** What a call does to the committed lines: it appends [evs] to the
    trace; replaying [evs] leaves the lines kept before alone and adds
    [added] on top; on success the matched lines of [added], oldest
    first, are exactly the tokens between the two positions. *)
Definition committed_law {T} (matched : T -> option string)
    (expanded backtracked : T -> option string) (good : list T -> Prop)
    (tokens : list string) (i : nat) (trace : list T) (r : outcome T) : Prop :=
  let '(ok, j, trace') := r in
  exists evs, trace' = trace ++ evs /\
    forall kept, exists added,
      replay expanded backtracked kept evs = added ++ kept /\ good added /\
      (ok = true -> drop i tokens = omap matched (rev added) ++ drop j tokens).

(** ** The command phrase of the device pattern

    What a match of the device pattern of [CodeNew.interpret] is made of,
    and the tokens of a command that begins with such a phrase. *)

(** One blank or more. *)
Definition blanks (ws : string) : Prop :=
  all_chars is_space ws = true /\ 1 <= String.length ws.

(** [phrase] is a verb, a switch word, an optional "the", an optional room
    word and a device noun, with blanks between them; [state] is its
    switch word and [device] its noun, after its room word when it has
    one. *)
Definition device_phrase (state device phrase : string) : Prop :=
  exists verb ws1 ws2 the_part room_part noun,
    phrase = verb +:+ ws1 +:+ state +:+ ws2 +:+ the_part +:+ room_part +:+ noun /\
    verb ∈ ["turn"; "switch"] /\ state ∈ ["on"; "off"] /\
    blanks ws1 /\ blanks ws2 /\
    (the_part = "" \/ exists ws, the_part = "the" +:+ ws /\ blanks ws) /\
    noun ∈ device_nouns /\
    ((room_part = "" /\ device = noun) \/
     exists room ws,
       room_part = room +:+ ws /\ room ∈ room_words /\ blanks ws /\
       device = room +:+ " " +:+ noun).

(** The device nouns as tokens, and the room words as an optional token. *)
Definition noun_tokens : list (list string) :=
  [["light"]; ["lights"]; ["fan"]; ["heater"]; ["air"; "conditioner"]].
Definition room_tokens : list (list string) :=
  [] :: ((fun room => [room]) <$> room_words).

(** The device pattern after its verb and its switch word:
    [(?:the\s+)?((?:living|kitchen|bedroom|bathroom)\s+)?(lights?|fan|heater|air conditioner)] *)
Definition device_tail : regex :=
  seqs [Opt (seqs [Lit "the"; ws_plus]);
        Opt (Group 3 (seqs [alts [Lit "living"; Lit "kitchen"; Lit "bedroom";
                                  Lit "bathroom"]; ws_plus]));
        Group 4 (alts [seqs [Lit "light"; Opt (Lit "s")]; Lit "fan";
                       Lit "heater"; Lit "air conditioner"])].

Definition starts_nonblank (s : string) : bool :=
  match s with
  | EmptyString => false
  | String c _ => negb (is_space c)
  end.

(** The groups after a match of [device_tail] on the tokens of a room and
    a noun. *)
Definition tail_groups (room noun : list string) (caps : gmap nat string)
    : gmap nat string :=
  <[4 := join " " noun]>
    (match room with
     | [] => caps
     | r :: _ => <[3 := r +:+ " "]> caps
     end).

(** The text after the last token of a match. *)
Definition rest_text (rest : list string) : string :=
  match rest with
  | [] => ""
  | _ => " " +:+ join " " rest
  end.

Ltac prefix_of a b :=
  lazymatch a with
  | b => constr:(EmptyString)
  | String ?c ?a' => let w := prefix_of a' b in constr:(String c w)
  end.

(** Reads [consumed a b] when [b] is a visible suffix of [a]; [lem] is
    the lemma [a = w +:+ b -> consumed a b = w]. *)
Ltac read_consumed lem :=
  repeat match goal with
  | |- context [consumed ?a ?b] =>
      let w := prefix_of a b in
      rewrite (lem w b a eq_refl)
  end.

(** An ASCII character: a byte below 128, which is a whole character of
    the text. *)
Definition is_ascii (c : ascii) : bool := (nat_of_ascii c <? 128)%nat.

(* ================================================================== *)
(** * Properties *)

(** ** The evaluator and its relation *)
Section EvaluatorFacts.
Context {T : Type}.
Variable M : messages T.
Variable G : gmap string (list (list string)).
Variable tokens : list string.

Local Abbreviation run := (parse_symbol M G tokens).
Local Abbreviation members := (@parse_members T).
Local Abbreviation productions := (parse_productions M).

Lemma parse_members_eval rec prod :
  (forall s j t r, rec s j t = Some r -> eval_symbol M G tokens s j t r) ->
  forall j trace r, members rec prod j trace = Some r ->
    eval_members M G tokens prod j trace r.
Proof.
  intros Hrec. induction prod as [|s2 rest IH]; intros j trace r; simpl.
  - intros [= <-]. constructor.
  - destruct (rec s2 j trace) as [[[[] j'] trace']|] eqn:E; [| |discriminate].
    + intros H. eapply eval_members_next; eauto.
    + intros [= <-]. eapply eval_members_break; eauto.
Qed.

Lemma parse_productions_eval rec sym i prods :
  (forall s j t r, rec s j t = Some r -> eval_symbol M G tokens s j t r) ->
  forall trace r, productions rec sym i prods trace = Some r ->
    eval_productions M G tokens sym i prods trace r.
Proof.
  intros Hrec. induction prods as [|prod rest IH]; intros trace r; simpl.
  - intros [= <-]. constructor.
  - destruct (members rec prod i _) as [[[[] j] trace']|] eqn:E; [| |discriminate].
    + intros [= <-]. apply eval_productions_return.
      eapply parse_members_eval; eauto.
    + intros H. eapply eval_productions_backtrack; [|apply IH, H].
      eapply parse_members_eval; eauto.
Qed.

(** Every result of the bounded function is a derivation. *)
Lemma parse_symbol_eval fuel : forall sym i trace r,
  run fuel sym i trace = Some r -> eval_symbol M G tokens sym i trace r.
Proof.
  induction fuel as [|fuel IH]; intros sym i trace r; simpl; [discriminate|].
  destruct (G !! sym) as [prods|] eqn:E.
  - intros H. eapply eval_nonterminal; [exact E|].
    eapply parse_productions_eval; eauto.
  - intros [= <-]. by constructor.
Qed.

(** Every derivation is found by the function once the bound is large
    enough, and by every larger bound. *)
Lemma eval_parse_symbol_mut :
  (forall sym i trace r, eval_symbol M G tokens sym i trace r ->
     exists n, forall m, n <= m -> run m sym i trace = Some r) /\
  (forall prod j trace r, eval_members M G tokens prod j trace r ->
     exists n, forall m, n <= m -> members (run m) prod j trace = Some r) /\
  (forall sym i prods trace r, eval_productions M G tokens sym i prods trace r ->
     exists n, forall m, n <= m -> productions (run m) sym i prods trace = Some r).
Proof.
  apply eval_mutind.
  - intros sym i trace E. exists 1. intros [|m] Hm; [lia|]. simpl. by rewrite E.
  - intros sym i trace prods r E _ [n IH]. exists (S n).
    intros [|m] Hm; [lia|]. simpl. rewrite E. apply IH. lia.
  - intros j trace. by exists 0.
  - intros s2 rest j trace j' trace' r _ [n1 IH1] _ [n2 IH2].
    exists (n1 `max` n2). intros m Hm. simpl.
    rewrite IH1 by lia. apply IH2. lia.
  - intros s2 rest j trace j' trace' _ [n IH]. exists n. intros m Hm. simpl.
    by rewrite IH.
  - intros sym i trace. by exists 0.
  - intros sym i prod rest trace j trace' _ [n IH]. exists n. intros m Hm.
    simpl. by rewrite IH.
  - intros sym i prod rest trace j trace' r _ [n1 IH1] _ [n2 IH2].
    exists (n1 `max` n2). intros m Hm. simpl.
    rewrite IH1 by lia. apply IH2. lia.
Qed.

Lemma eval_parse_symbol sym i trace r :
  eval_symbol M G tokens sym i trace r ->
  exists n, forall m, n <= m -> run m sym i trace = Some r.
Proof. apply eval_parse_symbol_mut. Qed.

(** The relation is functional: a call has at most one result. *)
Lemma eval_symbol_functional sym i trace r1 r2 :
  eval_symbol M G tokens sym i trace r1 ->
  eval_symbol M G tokens sym i trace r2 -> r1 = r2.
Proof.
  intros [n1 H1]%eval_parse_symbol [n2 H2]%eval_parse_symbol.
  specialize (H1 (n1 `max` n2)). specialize (H2 (n1 `max` n2)).
  rewrite H1 in H2 by lia. injection H2; [done | lia].
Qed.

Lemma parse_members_mono (rec1 rec2 : string -> nat -> list T -> option (outcome T)) prod :
  (forall s j t r, rec1 s j t = Some r -> rec2 s j t = Some r) ->
  forall j trace r, members rec1 prod j trace = Some r ->
    members rec2 prod j trace = Some r.
Proof.
  intros Hrec. induction prod as [|s2 rest IH]; intros j trace r; simpl; [done|].
  destruct (rec1 s2 j trace) as [[[[] j'] trace']|] eqn:E; [| |discriminate];
    rewrite (Hrec _ _ _ _ E); auto.
Qed.

Lemma parse_productions_mono (rec1 rec2 : string -> nat -> list T -> option (outcome T))
    sym i prods :
  (forall s j t r, rec1 s j t = Some r -> rec2 s j t = Some r) ->
  forall trace r, productions rec1 sym i prods trace = Some r ->
    productions rec2 sym i prods trace = Some r.
Proof.
  intros Hrec. induction prods as [|prod rest IH]; intros trace r; simpl; [done|].
  destruct (members rec1 prod i _) as [[[[] j] trace']|] eqn:E; [| |discriminate];
    rewrite (parse_members_mono _ _ _ Hrec _ _ _ E); auto.
Qed.

(** A larger bound never changes a result. *)
Lemma parse_symbol_fuel_S n : forall sym i trace r,
  run n sym i trace = Some r -> run (S n) sym i trace = Some r.
Proof.
  induction n as [|n IH]; intros sym i trace r; [discriminate|].
  change (run (S n) sym i trace) with
    (match G !! sym with
     | None => Some (parse_terminal M tokens sym i trace)
     | Some prods => productions (run n) sym i prods trace
     end).
  change (run (S (S n)) sym i trace) with
    (match G !! sym with
     | None => Some (parse_terminal M tokens sym i trace)
     | Some prods => productions (run (S n)) sym i prods trace
     end).
  destruct (G !! sym); [|done]. by apply parse_productions_mono.
Qed.

Lemma parse_symbol_fuel_mono n m sym i trace r :
  n <= m -> run n sym i trace = Some r -> run m sym i trace = Some r.
Proof. induction 1; auto using parse_symbol_fuel_S. Qed.

(** [depth_ok] is a sufficient bound: the function returns. *)
Lemma parse_members_total (rec : string -> nat -> list T -> option (outcome T)) prod :
  (forall s, s ∈ prod -> forall j t, is_Some (rec s j t)) ->
  forall j trace, is_Some (members rec prod j trace).
Proof.
  induction prod as [|s2 rest IH]; intros Hrec j trace; simpl; [by eexists|].
  destruct (Hrec s2 ltac:(left) j trace) as [[[[] j'] trace'] ->].
  - apply IH. intros s Hs. apply Hrec. by right.
  - by eexists.
Qed.

Lemma parse_productions_total (rec : string -> nat -> list T -> option (outcome T))
    sym i prods :
  (forall prod s, prod ∈ prods -> s ∈ prod -> forall j t, is_Some (rec s j t)) ->
  forall trace, is_Some (productions rec sym i prods trace).
Proof.
  induction prods as [|prod rest IH]; intros Hrec trace; simpl; [by eexists|].
  destruct (parse_members_total rec prod) with (j := i)
    (trace := trace ++ [msg_expand M sym prod]) as [[[[] j] trace'] ->].
  - intros s Hs. eapply Hrec; [left|done].
  - by eexists.
  - apply IH. intros prod' s Hp Hs. eapply Hrec; [by right|done].
Qed.

Lemma parse_symbol_total n : forall sym i trace,
  depth_ok G n sym = true -> is_Some (run n sym i trace).
Proof.
  induction n as [|n IH]; intros sym i trace; simpl; [discriminate|].
  destruct (G !! sym) as [prods|]; [|by eexists].
  intros Hok. apply parse_productions_total. intros prod s Hp Hs j t.
  apply IH. rewrite forallb_forall in Hok.
  specialize (Hok prod ltac:(by apply list_elem_of_In)).
  rewrite forallb_forall in Hok. apply Hok. by apply list_elem_of_In.
Qed.

Lemma depth_ok_terminal n sym : G !! sym = None -> depth_ok G (S n) sym = true.
Proof. intros E. simpl. by rewrite E. Qed.

(** A grammar all of whose symbols are within depth [n]. *)
Lemma depth_ok_all n :
  map_Forall (fun sym _ => depth_ok G (S n) sym = true) G ->
  forall sym, depth_ok G (S n) sym = true.
Proof.
  intros Hall sym. destruct (G !! sym) as [prods|] eqn:E.
  - exact (Hall sym prods E).
  - by apply depth_ok_terminal.
Qed.

(** *** Positions *)

Lemma eval_position_mut :
  (forall sym i trace r, eval_symbol M G tokens sym i trace r ->
     position_law tokens i r) /\
  (forall prod j trace r, eval_members M G tokens prod j trace r ->
     members_position_law tokens j r) /\
  (forall sym i prods trace r, eval_productions M G tokens sym i prods trace r ->
     position_law tokens i r).
Proof.
  apply eval_mutind; unfold position_law, members_position_law.
  - intros sym i trace _. unfold parse_terminal.
    destruct (tokens !! i) as [t|] eqn:E; [destruct (String.eqb t sym)|].
    + apply lookup_lt_Some in E. repeat split; [lia|done|lia].
    + done.
    + done.
  - done.
  - done.
  - intros s2 rest j trace j' trace' [[ok j''] tr''] _ (?&?&?) _ (?&?).
    split; [lia|]. intros. lia.
  - intros s2 rest j trace j' trace' _ (?&?&?). split; [lia|]. intros. lia.
  - done.
  - intros sym i prod rest trace j trace' _ (?&?). done.
  - intros sym i prod rest trace j trace' [[ok j''] tr''] _ _ _ IH. exact IH.
Qed.

Lemma parse_symbol_position fuel sym i trace ok j trace' :
  run fuel sym i trace = Some (ok, j, trace') ->
  i <= j /\ (ok = false -> j = i) /\ (i <= length tokens -> j <= length tokens).
Proof.
  intros H%parse_symbol_eval. by apply eval_position_mut in H.
Qed.
End EvaluatorFacts.

(** ** What a trace records *)
Section TraceFacts.
Context {T : Type}.
Variable M : messages T.
Variable G : gmap string (list (list string)).
Variable tokens : list string.

(** A reader of trace items that recognises the "matched" ones. *)
Variable matched : T -> option string.
Hypothesis matched_match : forall s, matched (msg_match M s) = Some s.
Hypothesis matched_mismatch : forall s f, matched (msg_mismatch M s f) = None.
Hypothesis matched_expand : forall s p, matched (msg_expand M s p) = None.
Hypothesis matched_backtrack : forall s p, matched (msg_backtrack M s p) = None.

Lemma eval_trace_mut :
  (forall sym i trace r, eval_symbol M G tokens sym i trace r ->
     trace_law matched tokens i trace r) /\
  (forall prod j trace r, eval_members M G tokens prod j trace r ->
     trace_law matched tokens j trace r) /\
  (forall sym i prods trace r, eval_productions M G tokens sym i prods trace r ->
     trace_law matched tokens i trace r).
Proof.
  apply eval_mutind; unfold trace_law.
  - intros sym i trace _. unfold parse_terminal.
    destruct (tokens !! i) as [t|] eqn:E; [destruct (String.eqb_spec t sym) as [->|]|].
    + exists [msg_match M sym]. simpl. rewrite matched_match.
      split; [done|]. split.
      * constructor; [|done]. by eapply list_elem_of_lookup_2.
      * intros _. exists [sym]. split; [|done].
        replace (i + 1) with (S i) by lia. by apply drop_S.
    + eexists [_]. simpl. by rewrite matched_mismatch.
    + eexists [_]. simpl. by rewrite matched_mismatch.
  - done.
  - intros j trace. exists []. rewrite app_nil_r. repeat split; [done|].
    intros _. by exists [].
  - intros s2 rest j trace j' trace' [[ok j''] tr''] _ (evs1 & -> & F1 & S1)
      _ (evs2 & -> & F2 & S2).
    exists (evs1 ++ evs2). rewrite omap_app, app_assoc.
    split; [done|]. split; [by apply Forall_app|].
    intros Hok. destruct (S1 eq_refl) as (seg1 & E1 & Sub1).
    destruct (S2 Hok) as (seg2 & E2 & Sub2).
    exists (seg1 ++ seg2). split; [by rewrite E1, E2, app_assoc|].
    by apply sublist_app.
  - intros s2 rest j trace j' trace' _ (evs & -> & F & _).
    exists evs. by repeat split.
  - intros sym i trace. exists []. rewrite app_nil_r. by repeat split.
  - intros sym i prod rest trace j trace' _ (evs & -> & F & S).
    exists (msg_expand M sym prod :: evs). simpl. rewrite matched_expand.
    split; [by rewrite <- app_assoc|]. by split.
  - intros sym i prod rest trace j trace' [[ok j''] tr''] _
      (evs1 & -> & F1 & _) _ (evs2 & -> & F2 & S2).
    exists ((msg_expand M sym prod :: evs1) ++ msg_backtrack M sym prod :: evs2).
    rewrite omap_app. simpl. rewrite matched_expand, matched_backtrack.
    split; [by rewrite <- !app_assoc|]. split; [by apply Forall_app|].
    intros Hok. destruct (S2 Hok) as (seg & E & Sub).
    exists seg. split; [done|]. by apply sublist_inserts_l.
Qed.

(** A successful evaluation from 0 that reaches the end of the input has
    recorded every token, in order, among its matched items. *)
Lemma accepted_tokens_recorded fuel sym j trace :
  parse_symbol M G tokens fuel sym 0 [] = Some (true, j, trace) ->
  j = length tokens ->
  tokens `sublist_of` omap matched trace /\
  Forall (fun s => s ∈ tokens) (omap matched trace).
Proof.
  intros H%parse_symbol_eval ->. apply eval_trace_mut in H.
  destruct H as (evs & -> & F & S). split; [|done].
  destruct (S eq_refl) as (seg & E & Sub).
  rewrite drop_0, drop_all, app_nil_r in E. by subst.
Qed.
End TraceFacts.

(** ** Order of the alternatives *)
Section FirstMatch.
Context {T : Type}.
Variable M : messages T.
Variable G : gmap string (list (list string)).
Variable tokens : list string.

Lemma parse_productions_app (rec : string -> nat -> list T -> option (outcome T))
    sym i pre rest trace trace1 :
  parse_productions M rec sym i pre trace = Some (false, i, trace1) ->
  parse_productions M rec sym i (pre ++ rest) trace =
  parse_productions M rec sym i rest trace1.
Proof.
  revert trace. induction pre as [|prod pre IH]; intros trace; simpl.
  - by intros [= <-].
  - destruct (parse_members rec prod i _) as [[[[] j] trace']|]; [done| |done].
    apply IH.
Qed.

(** C2: the productions of a nonterminal are tried in table order and
    the first that succeeds decides.  When the alternatives [pre] listed
    before [A] all fail from [i] and [A] succeeds, the call returns the
    result of [A]: position and trace are those reached at the end of
    [A], whatever alternatives [post] are listed after it, so none of
    them is evaluated. *)
Theorem first_match_wins fuel sym i trace pre A post j trace1 trace2 :
  G !! sym = Some (pre ++ A :: post) ->
  parse_productions M (parse_symbol M G tokens fuel) sym i pre trace
    = Some (false, i, trace1) ->
  parse_members (parse_symbol M G tokens fuel) A i (trace1 ++ [msg_expand M sym A])
    = Some (true, j, trace2) ->
  parse_symbol M G tokens (S fuel) sym i trace = Some (true, j, trace2).
Proof.
  intros HG Hpre HA. simpl. rewrite HG.
  rewrite (parse_productions_app _ _ _ _ _ _ _ Hpre). simpl. by rewrite HA.
Qed.
End FirstMatch.

(** On the toy grammar S → a | a b and the tokens "a b", S takes the first
    alternative and stops at index 1. *)
Lemma first_match_wins_witness :
  toy_grammar !! "S" = Some ([] ++ ["a"] :: [["a"; "b"]]) /\
  parse_symbol event_messages toy_grammar ["a"; "b"] 2 "S" 0 []
  = Some (true, 1, [Expand "S" ["a"]; MatchTerminal "a"]).
Proof.
  split; [reflexivity|].
  apply (first_match_wins event_messages toy_grammar ["a"; "b"] 1 "S" 0 []
           [] ["a"] [["a"; "b"]] 1 []); reflexivity.
Defined.

(** *** Reading the trace lines back *)

Lemma strip_prefix_app p s : strip_prefix p (p +:+ s) = Some s.
Proof. induction p as [|a p IH]; simpl; [done|]. by rewrite Ascii.eqb_refl. Qed.

Lemma drop_last_snoc s c : drop_last (s +:+ String c EmptyString) = s.
Proof.
  induction s as [|a s IH]; simpl; [done|]. rewrite IH.
  by destruct s.
Qed.

Lemma codenew_matched_match sym :
  codenew_matched (msg_match CodeNew.trace_messages sym) = Some sym.
Proof.
  unfold codenew_matched, matched_line. simpl msg_match.
  by rewrite strip_prefix_app, drop_last_snoc.
Qed.

Lemma code_matched_match sym :
  code_matched (msg_match Code.trace_messages sym) = Some sym.
Proof.
  unfold code_matched, matched_line. simpl msg_match.
  by rewrite strip_prefix_app, drop_last_snoc.
Qed.

(** An accepting run has recorded every token among its matched lines. *)
Lemma codenew_accepted_trace tokens idx trace :
  CodeNew.parse_symbol "COMMAND" tokens 0 [] = Some (true, idx, trace) ->
  idx = length tokens ->
  tokens `sublist_of` omap codenew_matched trace /\
  Forall (fun s => s ∈ tokens) (omap codenew_matched trace).
Proof.
  apply accepted_tokens_recorded; [apply codenew_matched_match|done..].
Qed.

Lemma code_accepted_trace tokens idx trace :
  Code.parse_symbol "COMMAND" tokens 0 [] = Some (true, idx, trace) ->
  idx = length tokens ->
  tokens `sublist_of` omap code_matched trace /\
  Forall (fun s => s ∈ tokens) (omap code_matched trace).
Proof.
  apply accepted_tokens_recorded; [apply code_matched_match|done..].
Qed.

(** ** The two grammars of the repository *)

Lemma GRAMMAR_depth sym : depth_ok CodeNew.GRAMMAR CodeNew.depth sym = true.
Proof.
  apply (depth_ok_all CodeNew.GRAMMAR 4).
  refine (bool_decide_unpack _ _). by vm_compute.
Qed.

Lemma grammar_depth sym : depth_ok Code.grammar Code.depth sym = true.
Proof.
  apply (depth_ok_all Code.grammar 6).
  refine (bool_decide_unpack _ _). by vm_compute.
Qed.

Lemma codenew_parse_symbol_total sym tokens i trace :
  exists ok j trace', CodeNew.parse_symbol sym tokens i trace = Some (ok, j, trace').
Proof.
  destruct (parse_symbol_total CodeNew.trace_messages CodeNew.GRAMMAR tokens
              CodeNew.depth sym i trace (GRAMMAR_depth sym)) as [[[ok j] trace'] E].
  by exists ok, j, trace'.
Qed.

Lemma code_parse_symbol_total symbol tokens i trace :
  exists ok j trace', Code.parse_symbol symbol tokens i trace = Some (ok, j, trace').
Proof.
  destruct (parse_symbol_total Code.trace_messages Code.grammar tokens
              Code.depth symbol i trace (grammar_depth symbol)) as [[[ok j] trace'] E].
  by exists ok, j, trace'.
Qed.

Lemma top_level_law_intro tokens ok idx (trace : list string) :
  top_level_law tokens (Some (ok, idx, trace))
    (Some (ok && (idx =? length tokens)%nat)).
Proof.
  exists ok, idx, trace. split; [done|]. split; [done|]. split; [split|].
  - intros [? ?%Nat.eqb_eq]%andb_prop. by split.
  - intros [-> ->]. by rewrite Nat.eqb_refl.
  - intros -> Hlt. simpl. apply Nat.eqb_neq. lia.
Qed.

(** C1: the top-level parse accepts exactly when the evaluation of COMMAND
    from position 0 succeeds and the position it returns is the number of
    tokens; a successful parse of a proper prefix is rejected.  Holds for
    [parse_command] of codeNew.py and for [parse] of code.py. *)
Theorem top_level_acceptance (tokens : list string) (show_trace : bool) :
  top_level_law tokens (CodeNew.parse_symbol "COMMAND" tokens 0 [])
    (fst <$> CodeNew.parse_command tokens) /\
  top_level_law tokens (Code.parse_symbol "COMMAND" tokens 0 [])
    (fst <$> Code.parse tokens show_trace).
Proof.
  split.
  - destruct (codenew_parse_symbol_total "COMMAND" tokens 0 [])
      as (ok & idx & trace & E).
    unfold CodeNew.parse_command. rewrite E. apply top_level_law_intro.
  - destruct (code_parse_symbol_total "COMMAND" tokens 0 [])
      as (ok & idx & trace & E).
    unfold Code.parse. rewrite E. apply top_level_law_intro.
Qed.

(** A prefix parse that leaves a token behind: "turn on fan fan" is
    evaluated successfully up to index 3 of 4 and rejected. *)
Example trailing_token_rejected :
  (exists trace, CodeNew.parse_symbol "COMMAND" ["turn"; "on"; "fan"; "fan"] 0 []
                 = Some (true, 3, trace)) /\
  fst <$> CodeNew.parse_command ["turn"; "on"; "fan"; "fan"] = Some false.
Proof. split; [eexists|]; vm_compute; reflexivity. Qed.

(** In code.py "turn off the light in kitchen", one of the commands the
    program lists as correct, stops after "light": the second alternative
    of TARGET succeeds on the prefix and the third is never tried. *)
Example light_in_kitchen_rejected :
  (exists trace, Code.parse_symbol "COMMAND"
                   ["turn"; "off"; "the"; "light"; "in"; "kitchen"] 0 []
                 = Some (true, 4, trace)) /\
  fst <$> Code.parse ["turn"; "off"; "the"; "light"; "in"; "kitchen"] false
  = Some false.
Proof. split; [eexists|]; vm_compute; reflexivity. Qed.

(** ** Accepted inputs and their traces *)

(** The claim as worded fails: "turn on fan" is accepted, and its trace has
    four matched lines, turn, on, fan, fan.  The second alternative of
    DEVICE matches "fan" before it fails on the missing "in"; the line
    stays in the trace when the third alternative matches "fan" again. *)
Lemma matched_lines_repeat_backtracked_token :
  exists trace,
    CodeNew.parse_command ["turn"; "on"; "fan"] = Some (true, trace) /\
    omap codenew_matched trace = ["turn"; "on"; "fan"; "fan"] /\
    omap codenew_matched trace <> ["turn"; "on"; "fan"].
Proof. eexists. split; [vm_compute; reflexivity|]. split; [reflexivity|discriminate]. Qed.

Section CommittedFacts.
Context {T : Type}.
Variable M : messages T.
Variable G : gmap string (list (list string)).
Variable tokens : list string.
Variable depth : nat.
Hypothesis G_depth : forall sym, depth_ok G depth sym = true.

(** Readers of the trace items. *)
Variable matched expanded backtracked : T -> option string.
Variable key : string -> list string -> string.
Hypothesis matched_match : forall s, matched (msg_match M s) = Some s.
Hypothesis matched_mismatch : forall s f, matched (msg_mismatch M s f) = None.
Hypothesis matched_expand : forall s p, matched (msg_expand M s p) = None.
Hypothesis expanded_match : forall s, expanded (msg_match M s) = None.
Hypothesis expanded_mismatch : forall s f, expanded (msg_mismatch M s f) = None.
Hypothesis expanded_expand : forall s p, expanded (msg_expand M s p) = Some (key s p).
Hypothesis backtracked_match : forall s, backtracked (msg_match M s) = None.
Hypothesis backtracked_mismatch : forall s f, backtracked (msg_mismatch M s f) = None.
Hypothesis backtracked_expand : forall s p, backtracked (msg_expand M s p) = None.
Hypothesis backtracked_backtrack :
  forall s p, backtracked (msg_backtrack M s p) = Some (key s p).
Hypothesis key_symbol :
  forall s p s' p', is_Some (G !! s) -> is_Some (G !! s') ->
    key s p = key s' p' -> s = s'.

Lemma depth_ok_S n : forall sym, depth_ok G n sym = true -> depth_ok G (S n) sym = true.
Proof.
  induction n as [|n IH]; intros sym H; [discriminate|].
  simpl in H. change (depth_ok G (S (S n)) sym)
    with (match G !! sym with
          | None => true
          | Some prods => forallb (forallb (depth_ok G (S n))) prods
          end).
  destruct (G !! sym) as [prods|]; [|done].
  rewrite forallb_forall in H. apply forallb_forall. intros prod Hprod.
  specialize (H prod Hprod). rewrite forallb_forall in H.
  apply forallb_forall. intros s Hs. apply IH. by apply H.
Qed.

Lemma below_depth s s' :
  below G s s' -> forall n, depth_ok G (S n) s = true -> depth_ok G n s' = true.
Proof.
  induction 1 as [s prods prod s2 E Hprod Hs|s s2 s3 _ IH1 _ IH2]; intros n Hn.
  - simpl in Hn. rewrite E in Hn. rewrite forallb_forall in Hn.
    specialize (Hn prod ltac:(by apply list_elem_of_In)).
    rewrite forallb_forall in Hn. apply Hn. by apply list_elem_of_In.
  - specialize (IH1 n Hn). destruct n as [|n]; [discriminate|].
    by apply depth_ok_S, IH2.
Qed.

(** No symbol of a grammar of bounded depth is below itself. *)
Lemma below_irreflexive s : ~ below G s s.
Proof.
  assert (forall n s, depth_ok G n s = true -> ~ below G s s) as H.
  { intros n. induction n as [|n IH]; intros s' Hn Hb; [discriminate|].
    eapply IH; [|exact Hb]. by eapply below_depth. }
  by apply (H depth).
Qed.

Lemma replay_app kept evs1 evs2 :
  replay expanded backtracked kept (evs1 ++ evs2)
  = replay expanded backtracked (replay expanded backtracked kept evs1) evs2.
Proof. revert kept. induction evs1 as [|x evs1 IH]; intros kept; simpl; [done|apply IH]. Qed.

(** A Backtrack line of [sym] takes off the lines of symbols below
    [sym] and the Expand line under them. *)
Lemma unwind_block sym prod added kept :
  is_Some (G !! sym) ->
  Forall (fun x => expanded x = None \/
                   exists s p, x = msg_expand M s p /\ is_Some (G !! s) /\
                               below G sym s) added ->
  unwind expanded (key sym prod) (added ++ msg_expand M sym prod :: kept) = kept.
Proof.
  intros Hsym. induction 1 as [|x added Hx _ IH]; simpl.
  - rewrite expanded_expand. by rewrite decide_True.
  - rewrite decide_False; [done|].
    destruct Hx as [->|(s & p & -> & Hs & Hb)]; [done|].
    rewrite expanded_expand. intros [= E].
    apply key_symbol in E; [|done..]. subst s.
    by apply below_irreflexive in Hb.
Qed.

Lemma expands_from_below sym s2 added :
  below G sym s2 -> expands_from M G expanded s2 added ->
  Forall (fun x => expanded x = None \/
                   exists s p, x = msg_expand M s p /\ is_Some (G !! s) /\
                               below G sym s) added.
Proof.
  intros Hb F. unfold expands_from in F. eapply Forall_impl; [exact F|].
  intros x [E|(s & p & -> & Hs & Hr)]; [by left|].
  right. exists s, p. split; [done|]. split; [done|].
  destruct Hr as [->|Hb']; [done|]. by eapply below_trans.
Qed.

Lemma eval_committed_mut :
  (forall sym i trace r, eval_symbol M G tokens sym i trace r ->
     committed_law matched expanded backtracked (expands_from M G expanded sym)
       tokens i trace r) /\
  (forall prod j trace r, eval_members M G tokens prod j trace r ->
     committed_law matched expanded backtracked
       (fun added => forall sym, (forall s2, s2 ∈ prod -> below G sym s2) ->
          Forall (fun x => expanded x = None \/
                   exists s p, x = msg_expand M s p /\ is_Some (G !! s) /\
                               below G sym s) added)
       tokens j trace r) /\
  (forall sym i prods trace r, eval_productions M G tokens sym i prods trace r ->
     (exists all, G !! sym = Some all /\ forall prod, prod ∈ prods -> prod ∈ all) ->
     committed_law matched expanded backtracked (expands_from M G expanded sym)
       tokens i trace r).
Proof.
  apply eval_mutind; unfold committed_law, expands_from.
  - (* terminal *)
    intros sym i trace E. unfold parse_terminal.
    destruct (tokens !! i) as [t|] eqn:Et; [destruct (String.eqb_spec t sym) as [->|]|].
    + exists [msg_match M sym]. split; [done|]. intros kept.
      exists [msg_match M sym]. simpl. rewrite backtracked_match, matched_match.
      split; [done|]. split; [constructor; [by left|done]|].
      intros _. replace (i + 1) with (S i) by lia. by apply drop_S.
    + eexists [_]. split; [done|]. intros kept. eexists [_]. simpl.
      rewrite backtracked_mismatch. split; [done|].
      split; [constructor; [by left|done]|done].
    + eexists [_]. split; [done|]. intros kept. eexists [_]. simpl.
      rewrite backtracked_mismatch. split; [done|].
      split; [constructor; [by left|done]|done].
  - (* nonterminal *)
    intros sym i trace prods r E _ IH. apply IH. by exists prods.
  - (* members: done *)
    intros j trace. exists []. rewrite app_nil_r. split; [done|].
    intros kept. exists []. split; [done|]. split; [by intros; constructor|done].
  - (* members: next *)
    intros s2 rest j trace j' trace' [[ok j''] tr''] _ (evs1 & -> & H1)
      _ (evs2 & -> & H2).
    exists (evs1 ++ evs2). split; [by rewrite app_assoc|]. intros kept.
    destruct (H1 kept) as (added1 & R1 & F1 & S1).
    destruct (H2 (added1 ++ kept)) as (added2 & R2 & F2 & S2).
    exists (added2 ++ added1). rewrite replay_app, R1, R2.
    split; [by rewrite app_assoc|]. split.
    + intros sym Hsym. apply Forall_app. split.
      * apply F2. intros s Hs. apply Hsym. by right.
      * eapply expands_from_below; [|exact F1]. apply Hsym. by left.
    + intros Hok. rewrite rev_app_distr, omap_app, <- app_assoc.
      by rewrite (S1 eq_refl), (S2 Hok).
  - (* members: break *)
    intros s2 rest j trace j' trace' _ (evs & -> & H).
    exists evs. split; [done|]. intros kept.
    destruct (H kept) as (added & R & F & _).
    exists added. split; [done|]. split; [|done].
    intros sym Hsym. eapply expands_from_below; [|exact F]. apply Hsym. by left.
  - (* productions: exhausted *)
    intros sym i trace _. exists []. rewrite app_nil_r. split; [done|].
    intros kept. exists []. by repeat split.
  - (* productions: return *)
    intros sym i prod rest trace j trace' _ (evs & -> & H) (all & E & Hall).
    exists (msg_expand M sym prod :: evs). split; [by rewrite <- app_assoc|].
    intros kept. simpl. rewrite backtracked_expand.
    destruct (H (msg_expand M sym prod :: kept)) as (added & R & F & S).
    exists (added ++ [msg_expand M sym prod]). rewrite R.
    split; [by rewrite <- app_assoc|]. split.
    + apply Forall_app. split.
      * eapply Forall_impl; [apply (F sym)|].
        -- intros s2 Hs2. eapply below_member; [exact E|apply Hall; by left|done].
        -- intros x [Hx|(s & p & -> & Hs & Hb)]; [by left|].
           right. exists s, p. eauto.
      * constructor; [|done]. right. exists sym, prod.
        split; [done|]. split; [by rewrite E|by left].
    + intros _. rewrite rev_app_distr. simpl. rewrite matched_expand. by apply S.
  - (* productions: backtrack *)
    intros sym i prod rest trace j trace' [[ok j''] tr''] _ (evs1 & -> & H1)
      _ IH (all & E & Hall).
    destruct IH as (evs2 & -> & H2).
    { exists all. split; [done|]. intros p Hp. apply Hall. by right. }
    exists (((msg_expand M sym prod :: evs1) ++ [msg_backtrack M sym prod]) ++ evs2).
    split; [by rewrite <- !app_assoc|]. intros kept.
    rewrite !replay_app. simpl. rewrite backtracked_expand.
    destruct (H1 (msg_expand M sym prod :: kept)) as (added & -> & F & _).
    rewrite backtracked_backtrack, unwind_block; [apply H2|by rewrite E|].
    apply F. intros s2 Hs2.
    eapply below_member; [exact E|apply Hall; by left|done].
Qed.

(** An accepting evaluation from 0: the matched lines of the committed
    part of its trace are the tokens. *)
Lemma accepted_committed fuel sym j trace :
  parse_symbol M G tokens fuel sym 0 [] = Some (true, j, trace) ->
  j = length tokens ->
  omap matched (committed expanded backtracked trace) = tokens.
Proof.
  intros H%parse_symbol_eval ->. apply eval_committed_mut in H.
  destruct H as (evs & -> & H). destruct (H []) as (added & R & _ & S).
  unfold committed. simpl. rewrite R, app_nil_r.
  specialize (S eq_refl). by rewrite drop_0, drop_all, app_nil_r in S.
Qed.

(** Replaying only takes lines away, and none when no line is a Backtrack
    line. *)
Lemma unwind_sublist k kept : unwind expanded k kept `sublist_of` kept.
Proof.
  induction kept as [|x kept IH]; simpl; [done|].
  destruct (decide _); [by apply sublist_cons|by apply sublist_cons].
Qed.

Lemma replay_sublist evs : forall kept,
  replay expanded backtracked kept evs `sublist_of` rev evs ++ kept.
Proof.
  induction evs as [|x evs IH]; intros kept; simpl; [done|].
  rewrite <- app_assoc. simpl. etrans; [apply IH|].
  apply sublist_app; [done|].
  destruct (backtracked x); [|done].
  apply sublist_cons, unwind_sublist.
Qed.

Lemma sublist_rev (l1 l2 : list T) : l1 `sublist_of` l2 -> rev l1 `sublist_of` rev l2.
Proof.
  induction 1 as [|x l1 l2 _ IH|x l1 l2 _ IH]; simpl; [done| |].
  - by apply sublist_app.
  - by apply sublist_inserts_r.
Qed.

Lemma committed_sublist trace :
  committed expanded backtracked trace `sublist_of` trace.
Proof.
  unfold committed. pose proof (replay_sublist trace []) as H.
  rewrite app_nil_r in H. apply sublist_rev in H. by rewrite rev_involutive in H.
Qed.

Lemma replay_no_backtrack evs : forall kept,
  Forall (fun x => backtracked x = None) evs ->
  replay expanded backtracked kept evs = rev evs ++ kept.
Proof.
  induction evs as [|x evs IH]; intros kept; [done|].
  intros [Hx Hevs]%Forall_cons. simpl. rewrite Hx, IH by done.
  by rewrite <- app_assoc.
Qed.

Lemma committed_no_backtrack trace :
  Forall (fun x => backtracked x = None) trace ->
  committed expanded backtracked trace = trace.
Proof.
  intros H. unfold committed. rewrite replay_no_backtrack by done.
  by rewrite app_nil_r, rev_involutive.
Qed.
End CommittedFacts.

(** The production of a line names its symbol first, before a blank: two
    lines of the same production are lines of the same symbol. *)
Lemma word_prefix_inj (s s' x x' : string) :
  all_chars (fun c => negb (is_space c)) s = true ->
  all_chars (fun c => negb (is_space c)) s' = true ->
  s +:+ String " " x = s' +:+ String " " x' -> s = s'.
Proof.
  revert s'. induction s as [|c s IH]; intros [|c' s'] Hs Hs' E.
  - done.
  - change (String " " x = String c' (s' +:+ String " " x')) in E.
    injection E as <- _. done.
  - change (String c (s +:+ String " " x) = String " " x') in E.
    injection E as -> _. done.
  - change (String c (s +:+ String " " x) = String c' (s' +:+ String " " x')) in E.
    injection E as <- E.
    simpl in Hs, Hs'. apply andb_prop in Hs as [_ Hs]. apply andb_prop in Hs' as [_ Hs'].
    f_equal. by apply IH.
Qed.

Lemma GRAMMAR_symbols :
  map_Forall (fun s _ => all_chars (fun c => negb (is_space c)) s = true) CodeNew.GRAMMAR.
Proof. refine (bool_decide_unpack _ _). by vm_compute. Qed.

Lemma grammar_symbols :
  map_Forall (fun s _ => all_chars (fun c => negb (is_space c)) s = true) Code.grammar.
Proof. refine (bool_decide_unpack _ _). by vm_compute. Qed.

(** The matched lines of the committed part of an accepting trace are the
    tokens. *)
Lemma codenew_accepted_committed tokens idx trace :
  CodeNew.parse_symbol "COMMAND" tokens 0 [] = Some (true, idx, trace) ->
  idx = length tokens ->
  omap codenew_matched (codenew_committed trace) = tokens.
Proof.
  apply (accepted_committed CodeNew.trace_messages CodeNew.GRAMMAR tokens CodeNew.depth
           GRAMMAR_depth codenew_matched codenew_expanded codenew_backtracked
           (fun s p => s +:+ " → " +:+ join " " p)); try done.
  - apply codenew_matched_match.
  - intros s p s' p' [? Hs] [? Hs'] E.
    exact (word_prefix_inj s s' _ _ (GRAMMAR_symbols _ _ Hs) (GRAMMAR_symbols _ _ Hs') E).
Qed.

Lemma code_accepted_committed tokens idx trace :
  Code.parse_symbol "COMMAND" tokens 0 [] = Some (true, idx, trace) ->
  idx = length tokens ->
  omap code_matched (code_committed trace) = tokens.
Proof.
  apply (accepted_committed Code.trace_messages Code.grammar tokens Code.depth
           grammar_depth code_matched code_expanded code_backtracked
           (fun s p => s +:+ " → " +:+ Code.show_production p)); try done.
  - apply code_matched_match.
  - intros s p s' p' [? Hs] [? Hs'] E.
    exact (word_prefix_inj s s' _ _ (grammar_symbols _ _ Hs) (grammar_symbols _ _ Hs') E).
Qed.

(** C3, amended: for every accepted token sequence the consumed index is
    the number of tokens, and the matched lines of the committed part of
    the trace, read in order, are exactly the input tokens.  The committed
    part is what is left of the trace when every Backtrack line is taken
    out together with the lines back to the Expand line of the same
    production; so a matched line beyond the input only ever lies in an
    abandoned production, and a trace with no Backtrack line has exactly
    the input as its matched lines.  In the whole trace the input tokens
    occur in order among the matched lines and every matched line names a
    token of the input. *)
Theorem accepted_trace_records_tokens (tokens trace : list string) :
  (CodeNew.parse_command tokens = Some (true, trace) ->
   exists idx,
     CodeNew.parse_symbol "COMMAND" tokens 0 [] = Some (true, idx, trace) /\
     idx = length tokens /\
     omap codenew_matched (codenew_committed trace) = tokens /\
     codenew_committed trace `sublist_of` trace /\
     (Forall (fun line => codenew_backtracked line = None) trace ->
      omap codenew_matched trace = tokens) /\
     tokens `sublist_of` omap codenew_matched trace /\
     Forall (fun s => s ∈ tokens) (omap codenew_matched trace)) /\
  (Code.parse tokens true = Some (true, "" :: "--- PARSING TRACE ---" :: trace) ->
   exists idx,
     Code.parse_symbol "COMMAND" tokens 0 [] = Some (true, idx, trace) /\
     idx = length tokens /\
     omap code_matched (code_committed trace) = tokens /\
     code_committed trace `sublist_of` trace /\
     (Forall (fun line => code_backtracked line = None) trace ->
      omap code_matched trace = tokens) /\
     tokens `sublist_of` omap code_matched trace /\
     Forall (fun s => s ∈ tokens) (omap code_matched trace)).
Proof.
  split.
  - unfold CodeNew.parse_command.
    destruct (CodeNew.parse_symbol "COMMAND" tokens 0 [])
      as [[[ok idx] trace']|] eqn:E; [|discriminate].
    intros [= Hv ->]. apply andb_prop in Hv as [-> Hidx%Nat.eqb_eq]. exists idx.
    pose proof (codenew_accepted_committed _ _ _ E Hidx) as Hc.
    split; [done|]. split; [done|]. split; [done|].
    split; [apply committed_sublist|].
    split; [|by eapply codenew_accepted_trace].
    intros Hnb. unfold codenew_committed in Hc.
    by rewrite committed_no_backtrack in Hc.
  - unfold Code.parse.
    destruct (Code.parse_symbol "COMMAND" tokens 0 [])
      as [[[ok idx] trace']|] eqn:E; [|discriminate].
    intros [= Hv ->]. apply andb_prop in Hv as [-> Hidx%Nat.eqb_eq]. exists idx.
    pose proof (code_accepted_committed _ _ _ E Hidx) as Hc.
    split; [done|]. split; [done|]. split; [done|].
    split; [apply committed_sublist|].
    split; [|by eapply code_accepted_trace].
    intros Hnb. unfold code_committed in Hc.
    by rewrite committed_no_backtrack in Hc.
Qed.

(** "turn on fan": four matched lines in the trace, the three tokens in
    its committed part. *)
Lemma accepted_trace_records_tokens_witness :
  exists trace,
    CodeNew.parse_command ["turn"; "on"; "fan"] = Some (true, trace) /\
    omap codenew_matched trace = ["turn"; "on"; "fan"; "fan"] /\
    omap codenew_matched (codenew_committed trace) = ["turn"; "on"; "fan"].
Proof.
  eexists. split; [vm_compute; reflexivity|]. split; [reflexivity|].
  match goal with
  | |- omap _ (codenew_committed ?t) = _ =>
      destruct (proj1 (accepted_trace_records_tokens ["turn"; "on"; "fan"] t))
        as (idx & _ & _ & Hc & _); [vm_compute; reflexivity|exact Hc]
  end.
Defined.

(** The committed part of the trace of "turn on fan", line by line, and a
    trace with no Backtrack line. *)
Example committed_turn_on_fan :
  (exists trace,
     CodeNew.parse_command ["turn"; "on"; "fan"] = Some (true, trace) /\
     codenew_committed trace
     = ["Expanding COMMAND → ACTION"; "Expanding ACTION → VERB SWITCH DEVICE";
        "Expanding VERB → turn"; "✓ Matched 'turn'";
        "Expanding SWITCH → on"; "✓ Matched 'on'";
        "Expanding DEVICE → DEVICE_NP"; "Expanding DEVICE_NP → fan";
        "✓ Matched 'fan'"]) /\
  (exists trace,
     CodeNew.parse_command ["turn"; "on"; "the"; "living"; "room"; "light"]
     = Some (true, trace) /\
     Forall (fun line => codenew_backtracked line = None) trace /\
     omap codenew_matched trace = ["turn"; "on"; "the"; "living"; "room"; "light"]).
Proof.
  split; eexists; (split; [vm_compute; reflexivity|]).
  - vm_compute. reflexivity.
  - split; [|vm_compute; reflexivity].
    refine (bool_decide_unpack _ _). by vm_compute.
Qed.

(** ** Positions *)

(** C7: whenever the evaluation of a symbol fails, by a terminal mismatch
    or because every production failed, the position returned with the
    failure is the starting position [i].  The evaluator does return: the
    statement holds of its result, for both grammars. *)
Theorem failure_restores_position (sym : string) (tokens : list string)
    (i : nat) (trace : list string) :
  (exists ok j trace',
     CodeNew.parse_symbol sym tokens i trace = Some (ok, j, trace') /\
     (ok = false -> j = i)) /\
  (exists ok j trace',
     Code.parse_symbol sym tokens i trace = Some (ok, j, trace') /\
     (ok = false -> j = i)).
Proof.
  split.
  - destruct (codenew_parse_symbol_total sym tokens i trace) as (ok & j & trace' & E).
    exists ok, j, trace'. split; [done|].
    by apply parse_symbol_position in E as (_ & ? & _).
  - destruct (code_parse_symbol_total sym tokens i trace) as (ok & j & trace' & E).
    exists ok, j, trace'. split; [done|].
    by apply parse_symbol_position in E as (_ & ? & _).
Qed.

(** A failure after two matched tokens: ACTION on "turn on the" gives back
    position 0. *)
Lemma failure_restores_position_witness :
  exists trace', CodeNew.parse_symbol "ACTION" ["turn"; "on"; "the"] 0 []
                 = Some (false, 0, trace').
Proof.
  destruct (proj1 (failure_restores_position "ACTION" ["turn"; "on"; "the"] 0 []))
    as (ok & j & trace' & E & Hj).
  exists trace'. rewrite E. revert E Hj. vm_compute.
  intros [= <- <- _] Hj. reflexivity.
Defined.

(** C8: from a starting position [i] within the input, the position
    returned by the evaluator lies between [i] and the number of tokens;
    with [i = 0] this bounds the consumed index of the top-level parse. *)
Theorem position_within_input (sym : string) (tokens : list string)
    (i : nat) (trace : list string) :
  i <= length tokens ->
  (exists ok j trace',
     CodeNew.parse_symbol sym tokens i trace = Some (ok, j, trace') /\
     i <= j <= length tokens) /\
  (exists ok j trace',
     Code.parse_symbol sym tokens i trace = Some (ok, j, trace') /\
     i <= j <= length tokens).
Proof.
  intros Hi. split.
  - destruct (codenew_parse_symbol_total sym tokens i trace) as (ok & j & trace' & E).
    exists ok, j, trace'. split; [done|].
    apply parse_symbol_position in E as (? & _ & ?). auto.
  - destruct (code_parse_symbol_total sym tokens i trace) as (ok & j & trace' & E).
    exists ok, j, trace'. split; [done|].
    apply parse_symbol_position in E as (? & _ & ?). auto.
Qed.

Lemma position_within_input_witness :
  1 <= length ["turn"; "on"; "fan"] /\
  exists ok j trace',
    CodeNew.parse_symbol "SWITCH" ["turn"; "on"; "fan"] 1 [] = Some (ok, j, trace') /\
    1 <= j <= 3.
Proof.
  split; [simpl; lia|].
  apply (position_within_input "SWITCH" ["turn"; "on"; "fan"] 1 []). simpl; lia.
Defined.

(** ** Determinism *)

(** C9: parsing is deterministic.  The parser returns a verdict and a
    trace, and every evaluation of COMMAND from position 0 on the same
    tokens, i.e. every derivation in the relation that follows the code
    path by path, ends with the same success flag, the same consumed index
    and the same trace, item for item. *)
Theorem parsing_deterministic (tokens : list string) :
  (exists ok idx trace,
     CodeNew.parse_command tokens = Some (ok && (idx =? length tokens)%nat, trace) /\
     forall r, eval_symbol CodeNew.trace_messages CodeNew.GRAMMAR tokens
                 "COMMAND" 0 [] r -> r = (ok, idx, trace)) /\
  (exists ok idx trace,
     Code.parse tokens true
       = Some (ok && (idx =? length tokens)%nat,
               "" :: "--- PARSING TRACE ---" :: trace) /\
     forall r, eval_symbol Code.trace_messages Code.grammar tokens
                 "COMMAND" 0 [] r -> r = (ok, idx, trace)).
Proof.
  split.
  - destruct (codenew_parse_symbol_total "COMMAND" tokens 0 [])
      as (ok & idx & trace & E).
    exists ok, idx, trace. unfold CodeNew.parse_command. rewrite E.
    split; [done|]. intros r Hr. apply parse_symbol_eval in E.
    eapply eval_symbol_functional; eauto.
  - destruct (code_parse_symbol_total "COMMAND" tokens 0 [])
      as (ok & idx & trace & E).
    exists ok, idx, trace. unfold Code.parse. rewrite E.
    split; [done|]. intros r Hr. apply parse_symbol_eval in E.
    eapply eval_symbol_functional; eauto.
Qed.

(** ** The device controller *)

(** C10: [set_device] leaves every device other than the one it names as
    it was, whether the call succeeds or fails; it neither adds nor
    removes a device; a failing call changes nothing at all.  In
    codeNew.py the device named is the one found under the name once
    stripped and with its double blanks replaced, as the lookup does. *)
Theorem set_device_frame (devices : gmap string string) (name state other : string) :
  let name' := replace_double_space (strip name) in
  let r := CodeNew.set_device devices name state in
  let h := Hybrid.set_device devices name state in
  ((other <> name' -> r.2 !! other = devices !! other) /\
   dom r.2 = dom devices /\
   (r.1 = true <-> is_Some (devices !! name')) /\
   (r.1 = false -> r.2 = devices)) /\
  ((other <> name -> h.2 !! other = devices !! other) /\
   dom h.2 = dom devices /\
   (h.1 = true <-> is_Some (devices !! name)) /\
   (h.1 = false -> h.2 = devices)).
Proof.
  intros name' r h. subst r h. unfold CodeNew.set_device, Hybrid.set_device.
  fold name'. split.
  - destruct (devices !! name') as [old|] eqn:E; simpl.
    + split; [intros; by rewrite lookup_insert_ne|].
      split; [|split; [by split; eauto|done]].
      rewrite dom_insert_L. apply elem_of_dom_2 in E.
      apply set_eq. intros x. rewrite elem_of_union, elem_of_singleton.
      split; [by intros [->|?]|by right].
    + split; [done|]. split; [done|]. split; [|done].
      split; [done|]. by intros [? ?].
  - destruct (devices !! name) as [old|] eqn:E; simpl.
    + split; [intros; by rewrite lookup_insert_ne|].
      split; [|split; [by split; eauto|done]].
      rewrite dom_insert_L. apply elem_of_dom_2 in E.
      apply set_eq. intros x. rewrite elem_of_union, elem_of_singleton.
      split; [by intros [->|?]|by right].
    + split; [done|]. split; [done|]. split; [|done].
      split; [done|]. by intros [? ?].
Qed.

(** Switching the kitchen fan on leaves the bedroom heater off; an unknown
    name changes nothing. *)
Lemma set_device_frame_witness :
  (CodeNew.set_device CodeNew.initial_devices " kitchen  fan " "on").2
    !! "bedroom heater" = Some "off" /\
  (CodeNew.set_device CodeNew.initial_devices "garden lights" "on").2
    = CodeNew.initial_devices.
Proof.
  split.
  - rewrite (proj1 (proj1 (set_device_frame CodeNew.initial_devices
                             " kitchen  fan " "on" "bedroom heater")));
      [reflexivity|vm_compute; discriminate].
  - apply (proj1 (set_device_frame CodeNew.initial_devices
                    "garden lights" "on" "")).
    reflexivity.
Defined.

(** ** The dispatcher *)

(** C6: when the extracted intent is a device command, [handle] calls the
    device registry whatever the grammar verdict [ok] is: the devices
    after the call are those [set_device] leaves, the outcome reports
    whether the registry knew the name, and [ok] is only handed back
    beside it, with the trace. *)
Theorem device_intent_reaches_registry (text : string) (clock now : datetime)
    (id : string) (w : CodeNew.world) (command device state : string) :
  CodeNew.interpret text clock = Ok (CodeNew.sem_device command device state) ->
  exists ok trace w',
    CodeNew.parse_command (CodeNew.tokenize text) = Some (ok, trace) /\
    let r := CodeNew.set_device (CodeNew.devices w) device state in
    CodeNew.handle text clock now id w
    = Some (Ok ({| CodeNew.ok := ok; CodeNew.trace := trace;
                   CodeNew.result := if r.1 then CodeNew.device_executed
                                     else CodeNew.unknown_device |}, w')) /\
    CodeNew.devices w' = r.2 /\
    CodeNew.status <$> CodeNew.events w' !! id
    = Some (if r.1 then "done" else "failed").
Proof.
  intros Hsem.
  destruct (codenew_parse_symbol_total "COMMAND" (CodeNew.tokenize text) 0 [])
    as (ok0 & idx & trace & E).
  unfold CodeNew.handle, CodeNew.parse_command. rewrite E, Hsem. simpl.
  destruct (CodeNew.set_device (CodeNew.devices w) device state) as [done devices'].
  do 3 eexists. split; [reflexivity|]. simpl. split; [reflexivity|].
  split; [reflexivity|]. unfold CodeNew.persist_event. simpl.
  by rewrite lookup_insert_eq.
Qed.

(** "turn on the kitchen fan please" is rejected by the grammar (the last
    token is left over) and the fan is switched on all the same. *)
Lemma device_intent_reaches_registry_witness :
  exists trace w',
    CodeNew.handle "turn on the kitchen fan please" sample_now sample_now "id-1"
      fresh_world
    = Some (Ok ({| CodeNew.ok := false; CodeNew.trace := trace;
                   CodeNew.result := CodeNew.device_executed |}, w')) /\
    CodeNew.devices w' !! "kitchen fan" = Some "on".
Proof.
  destruct (device_intent_reaches_registry "turn on the kitchen fan please"
              sample_now sample_now "id-1" fresh_world
              "turn on the kitchen fan please" "kitchen fan" "on")
    as (ok & trace & w' & Hparse & Hhandle & Hdev & _); [vm_compute; reflexivity|].
  exists trace, w'. split.
  - rewrite Hhandle. revert Hparse. vm_compute. by intros [= <- _].
  - rewrite Hdev. vm_compute. reflexivity.
Defined.

(** ** Time resolution *)

Section TimeFacts.
Local Open Scope Z_scope.

(** The field-wise order is the order of instants. *)
Lemma datetime_le_to_us a b :
  valid_datetime a -> valid_datetime b ->
  datetime_le a b = (to_us a <=? to_us b).
Proof.
  intros (_ & Ha1 & Ha2 & Ha3 & Ha4) (_ & Hb1 & Hb2 & Hb3 & Hb4).
  unfold datetime_le.
  destruct (Z.compare_spec (ordinal a) (ordinal b));
    [destruct (Z.compare_spec (hour a) (hour b));
      [destruct (Z.compare_spec (minute a) (minute b));
        [destruct (Z.compare_spec (second a) (second b));
          [destruct (Z.leb_spec (microsecond a) (microsecond b))|..]|..]|..]|..];
    symmetry; first [apply Z.leb_le | apply Z.leb_gt]; unfold_units; lia.
Qed.

(** [of_us] and [to_us] are inverse of each other. *)
Lemma of_us_to_us d :
  0 <= hour d < 24 -> 0 <= minute d < 60 -> 0 <= second d < 60 ->
  0 <= microsecond d < 1000000 ->
  of_us (to_us d) = d.
Proof.
  intros Hh Hm Hs Hu. destruct d as [o h m s u]. unfold_units.
  f_equal.
  - symmetry. apply Z.div_unique with (r := h * 3600000000 + m * 60000000 + s * 1000000 + u); lia.
  - rewrite <- (Z.mod_unique _ _ o (h * 3600000000 + m * 60000000 + s * 1000000 + u)) by lia.
    symmetry. apply Z.div_unique with (r := m * 60000000 + s * 1000000 + u); lia.
  - rewrite <- (Z.mod_unique _ _ (o * 24 + h) (m * 60000000 + s * 1000000 + u)) by lia.
    symmetry. apply Z.div_unique with (r := s * 1000000 + u); lia.
  - rewrite <- (Z.mod_unique _ _ ((o * 24 + h) * 60 + m) (s * 1000000 + u)) by lia.
    symmetry. apply Z.div_unique with (r := u); lia.
  - symmetry. apply Z.mod_unique with (q := ((o * 24 + h) * 60 + m) * 60 + s); lia.
Qed.

Lemma mod_mod_multiple u a b k :
  0 < b -> a = k * b -> 0 < k -> (u mod a) mod b = u mod b.
Proof.
  intros Hb -> Hk. rewrite (Z.mod_eq u (k * b)) by lia.
  replace (u - k * b * (u / (k * b))) with (u + - (k * (u / (k * b))) * b) by ring.
  apply Z.mod_add. lia.
Qed.

Lemma to_us_of_us u : to_us (of_us u) = u.
Proof.
  unfold_units.
  pose proof (Z.div_mod u 86400000000 ltac:(lia)).
  pose proof (Z.div_mod (u mod 86400000000) 3600000000 ltac:(lia)).
  pose proof (Z.div_mod ((u mod 86400000000) mod 3600000000) 60000000 ltac:(lia)).
  pose proof (Z.div_mod (((u mod 86400000000) mod 3600000000) mod 60000000)
                1000000 ltac:(lia)).
  assert (E1 : u mod 1000000
               = ((u mod 86400000000) mod 3600000000) mod 60000000 mod 1000000).
  { rewrite (mod_mod_multiple _ 60000000 1000000 60) by lia.
    rewrite (mod_mod_multiple _ 3600000000 1000000 3600) by lia.
    by rewrite (mod_mod_multiple _ 86400000000 1000000 86400) by lia. }
  assert (E2 : u mod 60000000 = ((u mod 86400000000) mod 3600000000) mod 60000000).
  { rewrite (mod_mod_multiple _ 3600000000 60000000 60) by lia.
    by rewrite (mod_mod_multiple _ 86400000000 60000000 1440) by lia. }
  assert (E3 : u mod 3600000000 = (u mod 86400000000) mod 3600000000).
  { by rewrite (mod_mod_multiple _ 86400000000 3600000000 24) by lia. }
  rewrite E1, E2, E3. lia.
Qed.

(** [parse_time_of_day] is the hour read from the text, then the
    arithmetic on [ref]. *)
Lemma parse_time_of_day_unfold t ref :
  CodeNew.parse_time_of_day t ref =
  match matched_hour t with
  | None => Raise ValueError
  | Some h =>
      dt ← replace_time ref h;
      if datetime_le dt ref
      then day ← timedelta 1 0 0; datetime_add dt day
      else Ok dt
  end.
Proof.
  unfold CodeNew.parse_time_of_day, matched_hour.
  by destruct (re_match CodeNew.time_of_day_re t).
Qed.

Lemma matched_hour_clock_text H pm :
  1 <= H <= 12 -> matched_hour (clock_text H pm) = Some (twelve_hour_clock H pm).
Proof.
  intros HH.
  assert (H = 1 \/ H = 2 \/ H = 3 \/ H = 4 \/ H = 5 \/ H = 6 \/ H = 7 \/ H = 8 \/
          H = 9 \/ H = 10 \/ H = 11 \/ H = 12) as Hcases by lia.
  destruct pm; repeat (destruct Hcases as [->|Hcases]); try subst H;
    vm_compute; reflexivity.
Qed.

Lemma twelve_hour_clock_range H pm :
  1 <= H <= 12 -> 0 <= twelve_hour_clock H pm <= 23.
Proof.
  intros HH. unfold twelve_hour_clock.
  destruct pm; destruct (Z.eqb_spec H 12); lia.
Qed.

Lemma valid_at_hour day h :
  1 <= day <= MAXORDINAL -> 0 <= h <= 23 -> valid_datetime (at_hour day h).
Proof. intros. unfold valid_datetime, at_hour. simpl. lia. Qed.

(** The arithmetic of [parse_time_of_day] for an hour of the day. *)
Lemma resolve_hour h ref :
  0 <= h <= 23 -> valid_datetime ref ->
  (dt ← replace_time ref h;
   if datetime_le dt ref
   then day ← timedelta 1 0 0; datetime_add dt day
   else Ok dt)
  = (if ordinal (next_occurrence h ref) <=? MAXORDINAL
     then Ok (next_occurrence h ref) else Raise OverflowError).
Proof.
  intros Hh Href. unfold replace_time.
  destruct (Z.leb_spec 0 h); [|lia]. destruct (Z.leb_spec h 23); [|lia].
  simpl. fold (at_hour (ordinal ref) h).
  pose proof Href as (Ho & _).
  rewrite datetime_le_to_us by (by apply valid_at_hour || done).
  unfold next_occurrence.
  destruct (Z.ltb_spec (to_us ref) (to_us (at_hour (ordinal ref) h))) as [Hlt|Hge].
  - destruct (Z.leb_spec (to_us (at_hour (ordinal ref) h)) (to_us ref)); [lia|].
    simpl. destruct (Z.leb_spec (ordinal ref) MAXORDINAL); [done|lia].
  - destruct (Z.leb_spec (to_us (at_hour (ordinal ref) h)) (to_us ref)); [|lia].
    simpl. unfold datetime_add.
    assert (E : to_us (at_hour (ordinal ref) h)
                  + (1 * us_per_day + 0 * us_per_hour + 0 * us_per_minute)
                = to_us (at_hour (ordinal ref + 1) h)) by (unfold_units; lia).
    rewrite E.
    assert (D : to_us (at_hour (ordinal ref + 1) h) / us_per_day = ordinal ref + 1).
    { symmetry. apply Z.div_unique with (r := h * us_per_hour); unfold_units; lia. }
    rewrite D, of_us_to_us by (simpl; lia).
    destruct (Z.leb_spec 1 (ordinal ref + 1)); [|lia]. done.
Qed.

(** The instant [next_occurrence] picks is ahead of [ref], and no other
    [h]:00:00 lies between the two. *)
Lemma next_occurrence_least h ref :
  0 <= h <= 23 -> valid_datetime ref ->
  to_us ref < to_us (next_occurrence h ref) /\
  hour (next_occurrence h ref) = h /\
  forall d, valid_datetime d -> hour d = h -> minute d = 0 -> second d = 0 ->
            microsecond d = 0 -> to_us ref < to_us d ->
            to_us (next_occurrence h ref) <= to_us d.
Proof.
  intros Hh (Ho & Hrh & Hrm & Hrs & Hru). unfold next_occurrence.
  destruct (Z.ltb_spec (to_us ref) (to_us (at_hour (ordinal ref) h))) as [Hlt|Hge].
  - split; [done|]. split; [done|].
    intros d (Hdo & _) Hdh Hdm Hds Hdu Hd. unfold_units. lia.
  - split; [unfold_units; lia|]. split; [done|].
    intros d (Hdo & _) Hdh Hdm Hds Hdu Hd. unfold_units. lia.
Qed.

(** [ref + timedelta(...)] for a non-negative number of microseconds. *)
Lemma datetime_add_forward ref delta :
  valid_datetime ref -> 0 <= delta ->
  datetime_add ref delta
  = (if (to_us ref + delta) / us_per_day <=? MAXORDINAL
     then Ok (of_us (to_us ref + delta)) else Raise OverflowError).
Proof.
  intros (Ho & Hrh & Hrm & Hrs & Hru) Hd. unfold datetime_add.
  assert (1 <= (to_us ref + delta) / us_per_day).
  { apply Z.div_le_lower_bound; unfold_units; lia. }
  destruct (Z.leb_spec 1 ((to_us ref + delta) / us_per_day)); [done|lia].
Qed.

Lemma parse_duration_forward N (unit_us : Z) ref :
  valid_datetime ref -> 0 <= N -> 0 < unit_us ->
  (delta ← (let us := N * unit_us in
            if (-999999999 <=? us / us_per_day) && (us / us_per_day <=? 999999999)
            then Ok us else Raise OverflowError);
   datetime_add ref delta)
  = (if (to_us ref + N * unit_us) / us_per_day <=? MAXORDINAL
     then Ok (of_us (to_us ref + N * unit_us)) else Raise OverflowError).
Proof.
  intros Href HN Hu. pose proof Href as (Ho & Hrh & Hrm & Hrs & Hru).
  assert (0 <= N * unit_us) by nia.
  assert (0 <= N * unit_us / us_per_day) by (apply Z.div_pos; unfold_units; lia).
  assert (N * unit_us / us_per_day <= (to_us ref + N * unit_us) / us_per_day).
  { apply Z.div_le_mono; unfold_units; lia. }
  simpl.
  destruct (Z.leb_spec (-999999999) (N * unit_us / us_per_day)); [|lia].
  destruct (Z.leb_spec (N * unit_us / us_per_day) 999999999); simpl.
  - by apply datetime_add_forward.
  - destruct (Z.leb_spec ((to_us ref + N * unit_us) / us_per_day) MAXORDINAL);
      [unfold MAXORDINAL in *; lia|done].
Qed.
End TimeFacts.

(** The claim as worded fails where the instant cannot be held by a
    datetime: "after 99999999 hours", issued on 2026-11-03, raises
    OverflowError instead of resolving to a time, in [parse_duration] and
    so in [interpret]; and so does "3 pm" asked at 16:00 of the last day. *)
Lemma duration_beyond_datetime_range :
  CodeNew.parse_duration 99999999 "hours" sample_now = Raise OverflowError /\
  CodeNew.interpret "schedule a water the plants after 99999999 hours" sample_now
  = Raise OverflowError /\
  CodeNew.parse_time_of_day "3 pm"
    {| ordinal := MAXORDINAL; hour := 16; minute := 0; second := 0;
       microsecond := 0 |}
  = Raise OverflowError.
Proof. repeat split; vm_compute; reflexivity. Qed.

(** C5, amended: issued at a reference time [ref], a clock time "H am/pm"
    with H from 1 to 12 resolves to the next strictly future occurrence of
    that hour on a 12-hour clock ("12 pm" is hour 12, "12 am" hour 0):
    today at H:00 if that is still ahead of [ref], tomorrow at H:00
    otherwise; a duration "N hours" or "N minutes" resolves to [ref] plus N
    of that unit.  Both hold as long as the resulting day is one a
    datetime can hold (up to 9999-12-31); beyond it the call raises
    OverflowError and no time is produced. *)
Theorem time_resolution (H N : Z) (pm : bool) (ref : datetime) :
  (1 <= H <= 12)%Z -> (0 <= N)%Z -> valid_datetime ref ->
  let t := next_occurrence (twelve_hour_clock H pm) ref in
  let after_hours := (to_us ref + N * us_per_hour)%Z in
  let after_minutes := (to_us ref + N * us_per_minute)%Z in
  CodeNew.parse_time_of_day (clock_text H pm) ref
  = (if (ordinal t <=? MAXORDINAL)%Z then Ok t else Raise OverflowError) /\
  ((to_us ref < to_us t)%Z /\
   hour t = twelve_hour_clock H pm /\
   forall d, valid_datetime d -> hour d = twelve_hour_clock H pm ->
             minute d = 0%Z -> second d = 0%Z -> microsecond d = 0%Z ->
             (to_us ref < to_us d)%Z -> (to_us t <= to_us d)%Z) /\
  CodeNew.parse_duration N "hours" ref
  = (if (after_hours / us_per_day <=? MAXORDINAL)%Z
     then Ok (of_us after_hours) else Raise OverflowError) /\
  CodeNew.parse_duration N "minutes" ref
  = (if (after_minutes / us_per_day <=? MAXORDINAL)%Z
     then Ok (of_us after_minutes) else Raise OverflowError) /\
  to_us (of_us after_hours) = after_hours /\
  to_us (of_us after_minutes) = after_minutes.
Proof.
  intros HH HN Href t after_hours after_minutes. subst t after_hours after_minutes.
  pose proof (twelve_hour_clock_range H pm HH) as Hrange.
  split; [|split; [|split; [|split; [|split]]]].
  - rewrite parse_time_of_day_unfold, matched_hour_clock_text by done.
    by apply resolve_hour.
  - by apply next_occurrence_least.
  - unfold CodeNew.parse_duration.
    replace (contains "hour" "hours") with true by reflexivity.
    unfold timedelta. rewrite Z.mul_0_l, Z.add_0_l, Z.add_0_r.
    by apply parse_duration_forward.
  - unfold CodeNew.parse_duration.
    replace (contains "hour" "minutes") with false by reflexivity.
    unfold timedelta. rewrite !Z.mul_0_l, !Z.add_0_l.
    by apply parse_duration_forward.
  - apply to_us_of_us.
  - apply to_us_of_us.
Qed.

(** With "tomorrow at" the reference handed to [parse_time_of_day] is one
    day after now: asked at 16:00, "tomorrow at 3 pm" is 15:00 of the day
    after tomorrow. *)
Example tomorrow_counts_from_tomorrow :
  CodeNew.interpret "remind me to take medicine tomorrow at 3 pm" (at_hour 739923 16)
  = Ok (CodeNew.sem_schedule "remind me to take medicine tomorrow at 3 pm"
          "take medicine" (at_hour 739925 15)).
Proof. vm_compute. reflexivity. Qed.

(** "3 pm" asked at 10:30 is today 15:00, asked at 16:00 it is tomorrow
    15:00; two hours after 10:30 is 12:30. *)
Lemma time_resolution_witness :
  CodeNew.parse_time_of_day "3 pm" sample_now = Ok (at_hour 739923 15) /\
  CodeNew.parse_time_of_day "3 pm" (at_hour 739923 16) = Ok (at_hour 739924 15) /\
  CodeNew.parse_duration 2 "hours" sample_now
  = Ok {| ordinal := 739923; hour := 12; minute := 30; second := 0;
          microsecond := 0 |}.
Proof.
  assert (V1 : valid_datetime sample_now) by (vm_compute; intuition discriminate).
  assert (V2 : valid_datetime (at_hour 739923 16)) by (vm_compute; intuition discriminate).
  split; [|split].
  - exact (proj1 (time_resolution 3 2 true sample_now ltac:(lia) ltac:(lia) V1)).
  - exact (proj1 (time_resolution 3 2 true (at_hour 739923 16)
                    ltac:(lia) ltac:(lia) V2)).
  - exact (proj1 (proj2 (proj2 (time_resolution 3 2 true sample_now
                                  ltac:(lia) ltac:(lia) V1)))).
Defined.

(** ** The matcher answers with matches *)
Section MatcherFacts.
Context {R : Type}.

Lemma strip_prefix_Some p s s' : strip_prefix p s = Some s' -> s = p +:+ s'.
Proof.
  revert s. induction p as [|a p IH]; intros s; simpl.
  - by intros [= ->].
  - destruct s as [|b s]; [done|].
    destruct (Ascii.eqb_spec a b) as [->|]; [|done]. by intros ->%IH.
Qed.

Lemma append_cons x (a b : string) : String x a +:+ b = String x (a +:+ b).
Proof. reflexivity. Qed.

Lemma append_assoc (a b c : string) : (a +:+ b) +:+ c = a +:+ (b +:+ c).
Proof.
  induction a as [|x a IH]; [done|]. rewrite !append_cons. by f_equal.
Qed.

Lemma length_append (a b : string) :
  String.length (a +:+ b) = String.length a + String.length b.
Proof.
  induction a as [|x a IH]; [done|]. rewrite append_cons. simpl. by f_equal.
Qed.

Lemma substring_prefix (w s : string) :
  String.substring 0 (String.length w) (w +:+ s) = w.
Proof.
  induction w as [|x w IH]; [by destruct s|].
  rewrite append_cons. simpl. by f_equal.
Qed.

Lemma consumed_app w s : consumed (w +:+ s) s = w.
Proof.
  unfold consumed. rewrite length_append.
  replace (String.length w + String.length s - String.length s)
    with (String.length w) by lia.
  apply substring_prefix.
Qed.

Lemma rep_law_nil cls hi : rep_law cls 0 hi EmptyString.
Proof. repeat split; simpl; intros; lia. Qed.

Lemma rep_law_cons cls lo hi c w :
  cls c = true -> may_take hi = true ->
  rep_law cls (Nat.pred lo) (Nat.pred <$> hi) w ->
  rep_law cls lo hi (String c w).
Proof.
  intros Hc Hhi (Hall & Hlo & Hmax). repeat split; simpl.
  - by rewrite Hc.
  - lia.
  - intros n ->. destruct n as [|n]; [done|].
    specialize (Hmax n eq_refl). lia.
Qed.

Lemma rep_greedy_sound cls s : forall lo hi (k : string -> option R) x,
  rep_greedy cls lo hi s k = Some x ->
  exists w s', s = w +:+ s' /\ rep_law cls lo hi w /\ k s' = Some x.
Proof.
  induction s as [|c s IH]; intros lo hi k x; simpl.
  - destruct lo; [|done]. intros Hk. exists EmptyString, EmptyString.
    split; [done|]. split; [apply rep_law_nil|done].
  - assert (Hstop : match lo with 0 => k (String c s) | S _ => None end = Some x ->
              exists w s', String c s = w +:+ s' /\ rep_law cls lo hi w /\ k s' = Some x).
    { destruct lo; [|done]. intros Hk. exists EmptyString, (String c s).
      split; [done|]. split; [apply rep_law_nil|done]. }
    destruct (cls c) eqn:Hc; [|exact Hstop].
    destruct (may_take hi) eqn:Hhi; [|exact Hstop]. simpl.
    destruct (rep_greedy cls (Nat.pred lo) (Nat.pred <$> hi) s k) as [y|] eqn:E;
      [|exact Hstop].
    intros [= ->]. destruct (IH _ _ _ _ E) as (w & s' & -> & Hw & Hk).
    exists (String c w), s'. split; [done|]. split; [by apply rep_law_cons|done].
Qed.

Lemma rep_lazy_sound cls s : forall lo hi (k : string -> option R) x,
  rep_lazy cls lo hi s k = Some x ->
  exists w s', s = w +:+ s' /\ rep_law cls lo hi w /\ k s' = Some x.
Proof.
  induction s as [|c s IH]; intros lo hi k x; simpl.
  - destruct lo; [|done]. destruct (k EmptyString) eqn:Hk; [|done].
    intros [= ->]. exists EmptyString, EmptyString.
    split; [done|]. split; [apply rep_law_nil|done].
  - destruct (match lo with 0 => k (String c s) | S _ => None end) as [y|] eqn:Hstop.
    + intros [= ->]. destruct lo; [|done]. exists EmptyString, (String c s).
      split; [done|]. split; [apply rep_law_nil|done].
    + destruct (cls c) eqn:Hc; [|done].
      destruct (may_take hi) eqn:Hhi; [|done]. simpl.
      intros E. destruct (IH _ _ _ _ E) as (w & s' & -> & Hw & Hk).
      exists (String c w), s'. split; [done|]. split; [by apply rep_law_cons|done].
Qed.

Lemma rmatch_sound r : forall s caps (k : string -> gmap nat string -> option R) x,
  rmatch r s caps k = Some x ->
  exists w s' caps', s = w +:+ s' /\ matches r w caps caps' /\ k s' caps' = Some x.
Proof.
  induction r as [l|greedy cls lo hi|r1 IH1 r2 IH2|r1 IH1 r2 IH2|r IH|n r IH];
    intros s caps k x; simpl.
  - destruct (strip_prefix l s) as [s'|] eqn:E; [|done].
    intros Hk. apply strip_prefix_Some in E as ->.
    exists l, s', caps. split; [done|]. split; [constructor|done].
  - intros H.
    assert (exists w s', s = w +:+ s' /\ rep_law cls lo hi w /\ k s' caps = Some x)
      as (w & s' & -> & (? & ? & ?) & Hk).
    { destruct greedy; [by apply rep_greedy_sound in H|by apply rep_lazy_sound in H]. }
    exists w, s', caps. split; [done|]. split; [by constructor|done].
  - intros H. apply IH1 in H as (w1 & s1 & caps1 & -> & M1 & H).
    apply IH2 in H as (w2 & s2 & caps2 & -> & M2 & H).
    exists (w1 +:+ w2), s2, caps2. rewrite append_assoc.
    split; [done|]. split; [by econstructor|done].
  - destruct (rmatch r1 s caps k) as [y|] eqn:E.
    + intros [= ->]. apply IH1 in E as (w & s' & caps' & -> & M & H).
      exists w, s', caps'. split; [done|]. split; [by apply matches_alt_l|done].
    + intros H. apply IH2 in H as (w & s' & caps' & -> & M & H).
      exists w, s', caps'. split; [done|]. split; [by apply matches_alt_r|done].
  - destruct (rmatch r s caps k) as [y|] eqn:E.
    + intros [= ->]. apply IH in E as (w & s' & caps' & -> & M & H).
      exists w, s', caps'. split; [done|]. split; [by apply matches_opt_some|done].
    + intros H. exists EmptyString, s, caps.
      split; [done|]. split; [apply matches_opt_none|done].
  - intros H. apply IH in H as (w & s' & caps' & -> & M & H).
    rewrite consumed_app in H.
    exists w, s', (<[n := w]> caps'). split; [done|].
    split; [by constructor|done].
Qed.
End MatcherFacts.

Lemma re_match_sound r s m :
  re_match r s = Some m ->
  exists s', s = group0 m +:+ s' /\ matches r (group0 m) ∅ (groups m).
Proof.
  unfold re_match. intros H.
  apply rmatch_sound in H as (w & s' & caps' & -> & M & [= <-]). simpl.
  rewrite consumed_app. by exists s'.
Qed.

Lemma re_search_sound r s : forall m,
  re_search r s = Some m ->
  exists pre post, s = pre +:+ group0 m +:+ post /\ matches r (group0 m) ∅ (groups m).
Proof.
  induction s as [|c s IH]; intros m; simpl.
  - destruct (re_match r EmptyString) as [m'|] eqn:E; [|done].
    intros [= ->]. apply re_match_sound in E as (s' & E & M).
    by exists EmptyString, s'.
  - destruct (re_match r (String c s)) as [m'|] eqn:E.
    + intros [= ->]. apply re_match_sound in E as (s' & E & M).
      by exists EmptyString, s'.
    + intros H. apply IH in H as (pre & post & -> & M).
      by exists (String c pre), post.
Qed.

(** A match leaves alone the groups that do not occur in the pattern. *)
Lemma matches_frame r w caps caps' n :
  matches r w caps caps' -> has_group n r = false -> caps' !! n = caps !! n.
Proof.
  induction 1 as [| |r1 r2 w1 w2 c c1 c2 _ IH1 _ IH2|r1 r2 w c c' _ IH
                  |r1 r2 w c c' _ IH|r w c c' _ IH| |m r w c c' _ IH]; simpl;
    try done.
  - intros [? ?]%orb_false_elim. by rewrite IH2, IH1.
  - intros [? ?]%orb_false_elim. auto.
  - intros [? ?]%orb_false_elim. auto.
  - intros [Hn%Nat.eqb_neq ?]%orb_false_elim.
    rewrite lookup_insert_ne by done. auto.
Qed.

(** *** Device-name resolution *)

Lemma rstrip_spaces ws : all_chars is_space ws = true -> rstrip ws = EmptyString.
Proof.
  induction ws as [|c ws IH]; simpl; [done|].
  intros [Hc Hws]%andb_prop. by rewrite IH, Hc.
Qed.

Lemma rstrip_app_spaces x ws :
  all_chars is_space ws = true -> rstrip (x +:+ ws) = rstrip x.
Proof.
  intros Hws. induction x as [|c x IH]; [by apply rstrip_spaces|].
  rewrite append_cons. simpl. by rewrite IH.
Qed.

(** What a match of the device pattern has in its groups 3 and 4: group 4
    is the device noun the match ends with; group 3, when it took part, is
    a room word and the blanks after it, right before the noun. *)
Lemma device_re_groups w caps :
  matches CodeNew.device_re w ∅ caps ->
  exists pre noun,
    w = pre +:+ noun /\ noun ∈ device_nouns /\ caps !! 4 = Some noun /\
    (caps !! 3 = None \/
     exists pre' room ws,
       pre = pre' +:+ room +:+ ws /\ room ∈ room_words /\
       all_chars is_space ws = true /\ caps !! 3 = Some (room +:+ ws)).
Proof.
  unfold CodeNew.device_re. simpl seqs. intros H.
  inversion H as [| |? ? w1 wr1 ? c1 ? M1 H1| | | | |]; subst; clear H.
  inversion H1 as [| |? ? w2 wr2 ? c2 ? M2 H2| | | | |]; subst; clear H1.
  inversion H2 as [| |? ? w3 wr3 ? c3 ? M3 H3| | | | |]; subst; clear H2.
  inversion H3 as [| |? ? w4 wr4 ? c4 ? M4 H4| | | | |]; subst; clear H3.
  inversion H4 as [| |? ? w5 wr5 ? c5 ? M5 H5| | | | |]; subst; clear H4.
  inversion H5 as [| |? ? w6 w7 ? c6 ? M6 M7| | | | |]; subst; clear H5.
  assert (F : c5 !! 3 = None).
  { rewrite (matches_frame _ _ _ _ 3 M5), (matches_frame _ _ _ _ 3 M4),
      (matches_frame _ _ _ _ 3 M3), (matches_frame _ _ _ _ 3 M2),
      (matches_frame _ _ _ _ 3 M1) by reflexivity. apply lookup_empty. }
  clear M1 M2 M3 M4 M5.
  exists (w1 +:+ w2 +:+ w3 +:+ w4 +:+ w5 +:+ w6), w7.
  split; [by rewrite !append_assoc|].
  unfold ws_plus in *. invert M7; invert M6; inv_matches;
    (split; [solve_elem_of|]);
    (split; [apply lookup_insert_eq|]);
    rewrite lookup_insert_ne by done.
  all: try (left; assumption).
  all: right;
    match goal with
    | |- context [<[3 := ?room +:+ ?ws]> _] =>
        exists (w1 +:+ w2 +:+ w3 +:+ w4 +:+ w5), room, ws
    end;
    (split; [by rewrite !append_assoc|]);
    (split; [solve_elem_of|]);
    (split; [assumption|apply lookup_insert_eq]).
Qed.

Lemma strip_room_blanks room ws :
  room ∈ room_words -> all_chars is_space ws = true -> strip (room +:+ ws) = room.
Proof.
  intros Hr Hws. apply list_elem_of_In in Hr. simpl in Hr.
  destruct Hr as [<-|[<-|[<-|[<-|[]]]]]; unfold strip;
    match goal with
    | |- rstrip (lstrip (?r +:+ ws)) = _ => change (lstrip (r +:+ ws)) with (r +:+ ws)
    end;
    by rewrite rstrip_app_spaces.
Qed.

Lemma strip_device_name room noun :
  room = EmptyString \/ room ∈ room_words -> noun ∈ device_nouns ->
  strip (room +:+ " " +:+ noun)
  = match room with EmptyString => noun | _ => room +:+ " " +:+ noun end.
Proof.
  intros Hr Hn. rewrite list_elem_of_In in Hr. apply list_elem_of_In in Hn.
  simpl in Hr, Hn.
  destruct Hr as [->|[<-|[<-|[<-|[<-|[]]]]]];
    destruct Hn as [<-|[<-|[<-|[<-|[<-|[]]]]]]; reflexivity.
Qed.


(** *** The command phrase *)

Lemma consumed_prefix w b a : a = w +:+ b -> consumed a b = w.
Proof. intros ->. apply consumed_app. Qed.

Lemma append_nil_r (s : string) : s +:+ EmptyString = s.
Proof. induction s as [|c s IH]; [done|]. rewrite append_cons. by f_equal. Qed.

Lemma re_search_head r s m : re_match r s = Some m -> re_search r s = Some m.
Proof. intros H. destruct s; simpl; by rewrite H. Qed.

(** A match of the device pattern is a command phrase, and its groups 2,
    3 and 4 are the switch word, the room word with its blanks, and the
    noun. *)
Lemma device_re_phrase w caps :
  matches CodeNew.device_re w ∅ caps ->
  device_phrase (default "" (caps !! 2))
    (strip (strip (default "" (caps !! 3)) +:+ " " +:+ default "" (caps !! 4))) w.
Proof.
  unfold CodeNew.device_re. simpl seqs. intros H.
  inversion H as [| |? ? w1 wr1 ? c1 ? M1 H1| | | | |]; subst; clear H.
  inversion H1 as [| |? ? w2 wr2 ? c2 ? M2 H2| | | | |]; subst; clear H1.
  inversion H2 as [| |? ? w3 wr3 ? c3 ? M3 H3| | | | |]; subst; clear H2.
  inversion H3 as [| |? ? w4 wr4 ? c4 ? M4 H4| | | | |]; subst; clear H3.
  inversion H4 as [| |? ? w5 wr5 ? c5 ? M5 H5| | | | |]; subst; clear H4.
  inversion H5 as [| |? ? w6 w7 ? c6 ? M6 M7| | | | |]; subst; clear H5.
  assert (w1 ∈ ["turn"; "switch"]) as Hverb.
  { clear -M1. inv_matches; solve_elem_of. }
  assert (blanks w2 /\ c2 = c1) as [Hws1 ->].
  { clear -M2. unfold ws_plus in M2. by invert M2. }
  assert (w3 ∈ ["on"; "off"] /\ c3 !! 2 = Some w3 /\ c3 !! 3 = None) as (Hstate & G2 & G3).
  { pose proof (matches_frame _ _ _ _ 3 M1 eq_refl) as F. rewrite lookup_empty in F.
    clear -M3 F. inv_matches; (split; [solve_elem_of|]);
      (split; [apply lookup_insert_eq|by rewrite lookup_insert_ne]). }
  assert (blanks w4 /\ c4 = c3) as [Hws2 ->].
  { clear -M4. unfold ws_plus in M4. by invert M4. }
  assert ((w5 = "" \/ exists ws, w5 = "the" +:+ ws /\ blanks ws) /\ c5 = c3) as [Hthe ->].
  { clear -M5. unfold ws_plus in M5. inv_matches; (split; [|done]); [right|by left].
    eexists. split; [done|]. by split. }
  clear M1 M2 M3 M4 M5.
  assert (w7 ∈ device_nouns /\ caps = <[4 := w7]> c6) as [Hnoun ->].
  { clear -M7. inv_matches; (split; [solve_elem_of|done]). }
  clear M7.
  exists w1, w2, w4, w5, w6, w7.
  assert (<[4:=w7]> c6 !! 2 = Some w3 /\
          ((w6 = "" /\ <[4:=w7]> c6 !! 3 = None) \/
           exists room ws, w6 = room +:+ ws /\ room ∈ room_words /\ blanks ws /\
                           <[4:=w7]> c6 !! 3 = Some (room +:+ ws))) as [G2' Hroom].
  { rewrite !(lookup_insert_ne _ 4) by done.
    clear -M6 G2 G3. unfold ws_plus in M6. inv_matches;
      try (rewrite !(lookup_insert_ne _ 3 2) by done; split; [done|]; right;
           eexists _, _; split; [done|]; split; [solve_elem_of|];
           split; [by split|apply lookup_insert_eq]).
    split; [done|]. by left. }
  rewrite G2', lookup_insert_eq. simpl.
  split; [done|]. do 6 (split; [done|]).
  destruct Hroom as [[-> ->]|(room & ws & -> & Hr & Hws & ->)]; simpl.
  - left. split; [done|]. change (strip "") with "".
    by rewrite (strip_device_name "" w7) by (done || by left).
  - right. exists room, ws. do 3 (split; [done|]).
    rewrite (strip_room_blanks room ws) by (done || apply Hws).
    rewrite strip_device_name by (done || by right).
    apply list_elem_of_In in Hr. simpl in Hr.
    by destruct Hr as [<-|[<-|[<-|[<-|[]]]]].
Qed.

(** *** A command that begins the text *)

(** One blank before a letter is all that [\s+] takes. *)
Lemma ws_plus_one {R : Type} (s : string) (caps : gmap nat string)
    (k : string -> gmap nat string -> option R) :
  starts_nonblank s = true ->
  rmatch ws_plus (String " " s) caps k = k s caps.
Proof.
  destruct s as [|c s]; [done|]. simpl. intros Hc%negb_true_iff.
  unfold ws_plus. simpl. rewrite Hc. simpl. by destruct (k (String c s) caps).
Qed.

(** The verb and the switch word at the head of the text. *)
Lemma device_re_head {R : Type} (verb state rest : string)
    (k : string -> gmap nat string -> option R) :
  verb ∈ ["turn"; "switch"] -> state ∈ ["on"; "off"] ->
  starts_nonblank rest = true ->
  rmatch CodeNew.device_re (verb +:+ " " +:+ state +:+ " " +:+ rest) ∅ k
  = rmatch device_tail rest (<[2 := state]> (<[1 := verb]> ∅)) k.
Proof.
  intros Hv Hst Hrest. apply list_elem_of_In in Hv, Hst. simpl in Hv, Hst.
  change CodeNew.device_re
    with (Seq (Group 1 (alts [Lit "turn"; Lit "switch"]))
            (Seq ws_plus (Seq (Group 2 (alts [Lit "on"; Lit "off"]))
                            (Seq ws_plus device_tail)))).
  generalize device_tail. intros tail.
  destruct Hv as [<-|[<-|[]]]; destruct Hst as [<-|[<-|[]]];
    cbv [String.append]; cbn -[consumed insert ws_plus];
    rewrite ws_plus_one by done; cbn -[consumed insert ws_plus];
    rewrite ws_plus_one by done;
    read_consumed consumed_prefix;
    by destruct (rmatch tail rest _ k).
Qed.

(** The rest of the pattern on the tokens that follow, before the end of
    the text or a blank: the room word is taken when it is there, and the
    noun. *)
Lemma device_tail_match {R : Type} (the room noun : list string) (tail : string)
    (caps : gmap nat string) (F : string -> gmap nat string -> R) :
  the ∈ [[]; ["the"]] -> room ∈ room_tokens -> noun ∈ noun_tokens ->
  tail = "" \/ (exists s, tail = String " " s) ->
  rmatch device_tail (join " " (the ++ room ++ noun) +:+ tail) caps
    (fun s' caps' => Some (F s' caps'))
  = Some (F tail (tail_groups room noun caps)).
Proof.
  intros Hthe Hroom Hnoun Htail. apply list_elem_of_In in Hthe, Hroom, Hnoun.
  simpl in Hthe, Hroom, Hnoun.
  destruct Hthe as [<-|[<-|[]]];
    destruct Hroom as [<-|[<-|[<-|[<-|[<-|[]]]]]];
    destruct Hnoun as [<-|[<-|[<-|[<-|[<-|[]]]]]];
    destruct Htail as [->|[s ->]];
    lazy -[consumed insert map_insert gmap_partial_alter Nat.eq_dec nat_countable];
    read_consumed consumed_prefix; reflexivity.
Qed.

Lemma device_tail_starts (the room noun : list string) (tail : string) :
  the ∈ [[]; ["the"]] -> room ∈ room_tokens -> noun ∈ noun_tokens ->
  starts_nonblank (join " " (the ++ room ++ noun) +:+ tail) = true.
Proof.
  intros Hthe Hroom Hnoun. apply list_elem_of_In in Hthe, Hroom, Hnoun.
  simpl in Hthe, Hroom, Hnoun.
  destruct Hthe as [<-|[<-|[]]];
    destruct Hroom as [<-|[<-|[<-|[<-|[<-|[]]]]]];
    destruct Hnoun as [<-|[<-|[<-|[<-|[<-|[]]]]]]; reflexivity.
Qed.

(** The device that [interpret] makes of the groups. *)
Lemma tail_groups_device (room noun : list string) (caps : gmap nat string) :
  room ∈ room_tokens -> noun ∈ noun_tokens -> caps !! 3 = None ->
  strip (strip (default "" (tail_groups room noun caps !! 3)) +:+ " "
         +:+ default "" (tail_groups room noun caps !! 4))
  = join " " (room ++ noun).
Proof.
  intros Hroom Hnoun Hcaps. apply list_elem_of_In in Hroom, Hnoun.
  simpl in Hroom, Hnoun. unfold tail_groups.
  destruct Hroom as [<-|[<-|[<-|[<-|[<-|[]]]]]];
    destruct Hnoun as [<-|[<-|[<-|[<-|[<-|[]]]]]];
    rewrite lookup_insert_eq, lookup_insert_ne by done;
    rewrite ?lookup_insert_eq, ?Hcaps; reflexivity.
Qed.

Lemma join_cons (x y : string) (l : list string) :
  join " " (x :: y :: l) = x +:+ " " +:+ join " " (y :: l).
Proof. reflexivity. Qed.

Lemma join_rest (l rest : list string) :
  l <> [] -> join " " (l ++ rest) = join " " l +:+ rest_text rest.
Proof.
  induction l as [|x [|y l] IH]; intros Hl; [done| |].
  - destruct rest as [|t rest]; simpl app.
    + by rewrite append_nil_r.
    + by rewrite join_cons.
  - change ((x :: y :: l) ++ rest) with (x :: y :: (l ++ rest)).
    rewrite !join_cons, !append_assoc. f_equal.
    change (" " +:+ join " " (y :: l ++ rest))
      with (String " " (join " " ((y :: l) ++ rest))).
    change (" " +:+ join " " (y :: l) +:+ rest_text rest)
      with (String " " (join " " (y :: l) +:+ rest_text rest)).
    f_equal. by apply IH.
Qed.

(** The device intent of a text whose tokens begin with a command. *)
Lemma leading_command_intent (text : string) (now : datetime)
    (verb state : string) (the room noun rest : list string) :
  verb ∈ ["turn"; "switch"] -> state ∈ ["on"; "off"] ->
  the ∈ [[]; ["the"]] -> room ∈ room_tokens -> noun ∈ noun_tokens ->
  CodeNew.tokenize text = [verb; state] ++ the ++ room ++ noun ++ rest ->
  CodeNew.interpret text now
  = Ok (CodeNew.sem_device text (join " " (room ++ noun)) state).
Proof.
  intros Hverb Hstate Hthe Hroom Hnoun Htokens.
  assert (the ++ room ++ noun <> []) as Hne.
  { apply list_elem_of_In in Hnoun. simpl in Hnoun.
    destruct Hnoun as [<-|[<-|[<-|[<-|[<-|[]]]]]]; by destruct the, room. }
  unfold CodeNew.interpret. rewrite Htokens.
  replace ([verb; state] ++ the ++ room ++ noun ++ rest)
    with (verb :: state :: ((the ++ room ++ noun) ++ rest))
    by (simpl; by rewrite <- !app_assoc).
  destruct ((the ++ room ++ noun) ++ rest) as [|t l] eqn:El;
    [by destruct (the ++ room ++ noun)|].
  rewrite !join_cons, <- El, join_rest by done. clear t l El.
  erewrite re_search_head; cycle 1.
  { unfold re_match.
    rewrite device_re_head by (done || by apply device_tail_starts).
    apply device_tail_match; [done..|]. destruct rest; [by left|right; by eexists]. }
  simpl. unfold group. simpl groups.
  rewrite tail_groups_device; [|done..|by rewrite !lookup_insert_ne].
  do 2 f_equal. unfold tail_groups.
  rewrite lookup_insert_ne by done.
  destruct room; [|rewrite lookup_insert_ne by done]; by rewrite lookup_insert_eq.
Qed.


(** The room word has to stand right before the noun: the device pattern
    has "living", not "living room", so "turn on the living room lights",
    which the grammar accepts, is no device intent for [interpret]. *)
Example living_room_lights_not_interpreted :
  fst <$> CodeNew.parse_command (CodeNew.tokenize "turn on the living room lights")
  = Some true /\
  CodeNew.interpret "turn on the living room lights" sample_now
  = Ok (CodeNew.sem_none "turn on the living room lights") /\
  CodeNew.interpret "turn on the kitchen fan" sample_now
  = Ok (CodeNew.sem_device "turn on the kitchen fan" "kitchen fan" "on").
Proof. repeat split; vm_compute; reflexivity. Qed.


(** * Further properties *)

(** ** The parser against the grammar *)
Section GrammarFacts.
Context {T : Type}.
Variable M : messages T.
Variable G : gmap string (list (list string)).
Variable tokens : list string.

(** A successful evaluation has read a token list that the symbol
    derives. *)
Lemma eval_derives_mut :
  (forall sym i trace r, eval_symbol M G tokens sym i trace r ->
     let '(ok, j, _) := r in
     ok = true -> exists seg, drop i tokens = seg ++ drop j tokens /\ derives G sym seg) /\
  (forall prod i trace r, eval_members M G tokens prod i trace r ->
     let '(ok, j, _) := r in
     ok = true -> exists seg, drop i tokens = seg ++ drop j tokens /\
                              derives_members G prod seg) /\
  (forall sym i prods trace r, eval_productions M G tokens sym i prods trace r ->
     let '(ok, j, _) := r in
     ok = true -> exists seg prod, drop i tokens = seg ++ drop j tokens /\
                                   prod ∈ prods /\ derives_members G prod seg).
Proof.
  apply eval_mutind.
  - intros sym i trace E. unfold parse_terminal.
    destruct (tokens !! i) as [t|] eqn:Et; [destruct (String.eqb_spec t sym) as [->|]|];
      try done.
    intros _. exists [sym]. split; [|by constructor].
    replace (i + 1) with (S i) by lia. by apply drop_S.
  - intros sym i trace prods [[ok j] tr'] E _ IH Hok.
    destruct (IH Hok) as (seg & prod & Hseg & Hin & Hd).
    exists seg. split; [done|]. by econstructor.
  - intros j trace _. exists []. split; [done|constructor].
  - intros s2 rest j trace j' trace' [[ok j''] tr''] _ IH1 _ IH2 Hok.
    destruct (IH1 eq_refl) as (seg1 & E1 & D1).
    destruct (IH2 Hok) as (seg2 & E2 & D2).
    exists (seg1 ++ seg2). split; [by rewrite E1, E2, app_assoc|by constructor].
  - done.
  - done.
  - intros sym i prod rest trace j trace' _ IH _.
    destruct (IH eq_refl) as (seg & E & D).
    exists seg, prod. split; [done|]. split; [left|done].
  - intros sym i prod rest trace j trace' [[ok j''] tr''] _ _ _ IH Hok.
    destruct (IH Hok) as (seg & prod' & E & Hin & D).
    exists seg, prod'. split; [done|]. split; [by right|done].
Qed.

(** X1: the parser is sound for the grammar table.  Whatever the table, if
    the evaluation of a symbol from position 0 succeeds and ends at the
    number of tokens, the whole token list is derived by that symbol with
    the productions of the table. *)
Theorem accepted_is_derived fuel sym j trace :
  parse_symbol M G tokens fuel sym 0 [] = Some (true, j, trace) ->
  j = length tokens ->
  derives G sym tokens.
Proof.
  intros H%parse_symbol_eval ->. apply eval_derives_mut in H.
  destruct (H eq_refl) as (seg & E & D).
  rewrite drop_0, drop_all, app_nil_r in E. by subst.
Qed.
End GrammarFacts.

Lemma accepted_is_derived_witness :
  derives CodeNew.GRAMMAR "COMMAND" ["switch"; "off"; "lights"; "in"; "bedroom"].
Proof.
  eapply (accepted_is_derived CodeNew.trace_messages CodeNew.GRAMMAR
            ["switch"; "off"; "lights"; "in"; "bedroom"] CodeNew.depth "COMMAND" 5);
    vm_compute; reflexivity.
Defined.

(** ** The trace as an append-only log *)
Section LogFacts.
Context {T : Type}.
Variable M : messages T.
Variable G : gmap string (list (list string)).
Variable tokens : list string.

(** What a call appends does not depend on what the trace already holds. *)
Lemma eval_frame_mut :
  (forall sym i trace r, eval_symbol M G tokens sym i trace r ->
     let '(ok, j, trace') := r in
     exists evs, trace' = trace ++ evs /\
       forall trace0, eval_symbol M G tokens sym i trace0 (ok, j, trace0 ++ evs)) /\
  (forall prod i trace r, eval_members M G tokens prod i trace r ->
     let '(ok, j, trace') := r in
     exists evs, trace' = trace ++ evs /\
       forall trace0, eval_members M G tokens prod i trace0 (ok, j, trace0 ++ evs)) /\
  (forall sym i prods trace r, eval_productions M G tokens sym i prods trace r ->
     let '(ok, j, trace') := r in
     exists evs, trace' = trace ++ evs /\
       forall trace0, eval_productions M G tokens sym i prods trace0 (ok, j, trace0 ++ evs)).
Proof.
  apply eval_mutind.
  - intros sym i trace E.
    assert (exists ok j e, forall t, parse_terminal M tokens sym i t = (ok, j, t ++ [e]))
      as (ok & j & e & Ht).
    { unfold parse_terminal.
      destruct (tokens !! i) as [t|]; [destruct (String.eqb t sym)|]; by do 3 eexists. }
    rewrite Ht. exists [e]. split; [done|]. intros trace0. rewrite <- Ht. by constructor.
  - intros sym i trace prods [[ok j] tr'] E _ (evs & -> & IH).
    exists evs. split; [done|]. intros trace0. by econstructor.
  - intros j trace. exists []. rewrite app_nil_r. split; [done|].
    intros trace0. rewrite app_nil_r. constructor.
  - intros s2 rest j trace j' trace' [[ok j''] tr''] _ (evs1 & -> & IH1) _ (evs2 & -> & IH2).
    exists (evs1 ++ evs2). rewrite app_assoc. split; [done|].
    intros trace0. rewrite app_assoc. by econstructor.
  - intros s2 rest j trace j' trace' _ (evs & -> & IH).
    exists evs. split; [done|]. intros trace0. by apply eval_members_break.
  - intros sym i trace. exists []. rewrite app_nil_r. split; [done|].
    intros trace0. rewrite app_nil_r. constructor.
  - intros sym i prod rest trace j trace' _ (evs & -> & IH).
    exists (msg_expand M sym prod :: evs). split; [by rewrite <- app_assoc|].
    intros trace0. apply eval_productions_return.
    specialize (IH (trace0 ++ [msg_expand M sym prod])). by rewrite <- app_assoc in IH.
  - intros sym i prod rest trace j trace' [[ok j''] tr''] _ (evs1 & -> & IH1)
      _ (evs2 & -> & IH2).
    exists ((msg_expand M sym prod :: evs1) ++ msg_backtrack M sym prod :: evs2).
    split; [by rewrite <- !app_assoc|].
    intros trace0. eapply eval_productions_backtrack; [apply IH1|].
    specialize (IH2 (((trace0 ++ [msg_expand M sym prod]) ++ evs1)
                       ++ [msg_backtrack M sym prod])).
    by rewrite <- !app_assoc in *.
Qed.

(** A failed nonterminal has tried and abandoned every production. *)
Lemma eval_exhausts_mut :
  (forall sym i trace r, eval_symbol M G tokens sym i trace r ->
     let '(ok, j, trace') := r in
     exists evs, trace' = trace ++ evs /\
       (ok = false -> forall prods, G !! sym = Some prods ->
          abandoned_items M sym prods `sublist_of` evs /\
          last evs = last (abandoned_items M sym prods))) /\
  (forall prod i trace r, eval_members M G tokens prod i trace r ->
     let '(ok, j, trace') := r in exists evs, trace' = trace ++ evs) /\
  (forall sym i prods trace r, eval_productions M G tokens sym i prods trace r ->
     let '(ok, j, trace') := r in
     exists evs, trace' = trace ++ evs /\
       (ok = false ->
          abandoned_items M sym prods `sublist_of` evs /\
          last evs = last (abandoned_items M sym prods))).
Proof.
  apply eval_mutind.
  - intros sym i trace E. unfold parse_terminal.
    destruct (tokens !! i) as [t|]; [destruct (String.eqb t sym)|];
      (eexists [_]; split; [done|]); intros _ prods; congruence.
  - intros sym i trace prods [[ok j] tr'] E _ (evs & -> & IH).
    exists evs. split; [done|]. intros Hok prods' E'.
    assert (prods' = prods) as -> by congruence. auto.
  - intros j trace. exists []. by rewrite app_nil_r.
  - intros s2 rest j trace j' trace' [[ok j''] tr''] _ (evs1 & -> & _) _ (evs2 & ->).
    exists (evs1 ++ evs2). by rewrite app_assoc.
  - intros s2 rest j trace j' trace' _ (evs & -> & _). by exists evs.
  - intros sym i trace. exists []. rewrite app_nil_r. by split.
  - intros sym i prod rest trace j trace' _ (evs & ->).
    exists (msg_expand M sym prod :: evs). split; [by rewrite <- app_assoc|done].
  - intros sym i prod rest trace j trace' [[ok j''] tr''] _ (evs1 & ->)
      _ (evs2 & -> & IH).
    exists (msg_expand M sym prod :: evs1 ++ msg_backtrack M sym prod :: evs2).
    split; [by rewrite <- !app_assoc|].
    intros Hok. destruct (IH Hok) as [Hsub Hlast].
    change (abandoned_items M sym (prod :: rest))
      with (msg_expand M sym prod :: msg_backtrack M sym prod
              :: abandoned_items M sym rest).
    split.
    + apply sublist_skip. apply sublist_inserts_l. by apply sublist_skip.
    + rewrite !last_cons, last_app, !last_cons, Hlast.
      by destruct (last (abandoned_items M sym rest)).
Qed.

(** X2: a nonterminal only fails after every one of its productions was
    tried and abandoned.  The items appended by a failed evaluation hold
    the Expand and the Backtrack item of each production, in table order,
    and end with the Backtrack item of the last production. *)
Theorem failure_exhausts_productions fuel sym i trace j trace' prods :
  parse_symbol M G tokens fuel sym i trace = Some (false, j, trace') ->
  G !! sym = Some prods ->
  exists evs, trace' = trace ++ evs /\
    abandoned_items M sym prods `sublist_of` evs /\
    last evs = last (abandoned_items M sym prods).
Proof.
  intros H%parse_symbol_eval HG. apply eval_exhausts_mut in H.
  destruct H as (evs & -> & H). exists evs. split; [done|]. by apply H.
Qed.
End LogFacts.

Lemma failure_exhausts_productions_witness :
  exists evs,
    parse_symbol event_messages CodeNew.GRAMMAR ["open"; "door"] 5 "COMMAND" 0 []
    = Some (false, 0, evs) /\
    last evs = Some (Backtrack "COMMAND" ["SCHEDULE"]).
Proof.
  eexists. split; [vm_compute; reflexivity|].
  match goal with
  | |- last ?evs = _ =>
      destruct (failure_exhausts_productions event_messages CodeNew.GRAMMAR
                  ["open"; "door"] 5 "COMMAND" 0 [] 0 evs
                  [["ACTION"]; ["SCHEDULE"]])
        as (evs' & E & _ & Hlast); [vm_compute; reflexivity..|]
  end.
  simpl in E. subst evs'. exact Hlast.
Defined.

(** X3: what [parse_symbol] appends to the trace is the same whatever the
    trace already holds, and so are the flag and the position it returns:
    the call only appends, and never reads or rewrites what is there. *)
Theorem trace_is_append_only (sym : string) (tokens : list string) (i : nat)
    (trace : list string) :
  (exists ok j evs,
     CodeNew.parse_symbol sym tokens i [] = Some (ok, j, evs) /\
     CodeNew.parse_symbol sym tokens i trace = Some (ok, j, trace ++ evs)) /\
  (exists ok j evs,
     Code.parse_symbol sym tokens i [] = Some (ok, j, evs) /\
     Code.parse_symbol sym tokens i trace = Some (ok, j, trace ++ evs)).
Proof.
  split.
  - destruct (codenew_parse_symbol_total sym tokens i []) as (ok & j & evs & E).
    destruct (codenew_parse_symbol_total sym tokens i trace) as (ok' & j' & tr' & E').
    exists ok, j, evs. split; [done|]. rewrite E'. f_equal.
    apply parse_symbol_eval in E, E'.
    apply eval_frame_mut in E as (evs0 & -> & F).
    eapply eval_symbol_functional; [exact E'|apply F].
  - destruct (code_parse_symbol_total sym tokens i []) as (ok & j & evs & E).
    destruct (code_parse_symbol_total sym tokens i trace) as (ok' & j' & tr' & E').
    exists ok, j, evs. split; [done|]. rewrite E'. f_equal.
    apply parse_symbol_eval in E, E'.
    apply eval_frame_mut in E as (evs0 & -> & F).
    eapply eval_symbol_functional; [exact E'|apply F].
Qed.

(** ** How long an accepted command can be *)
Section YieldFacts.
Variable G : gmap string (list (list string)).

Lemma foldr_max_ge (l : list nat) x : x ∈ l -> x <= foldr Nat.max 0 l.
Proof.
  induction 1 as [x l|x y l _ IH]; simpl; lia.
Qed.

Lemma foldr_min_le (l : list nat) d :
  foldr Nat.min d l <= d /\ forall x, x ∈ l -> foldr Nat.min d l <= x.
Proof.
  induction l as [|y l [IH1 IH2]]; simpl.
  - split; [lia|]. intros x Hx. by apply elem_of_nil in Hx.
  - split; [lia|]. intros x [->|Hx]%elem_of_cons; [lia|].
    specialize (IH2 x Hx). lia.
Qed.

Lemma members_yield (lo hi : string -> nat) prod w :
  (forall s w', s ∈ prod -> derives G s w' -> lo s <= length w' <= hi s) ->
  derives_members G prod w ->
  foldr Nat.add 0 (map lo prod) <= length w <= foldr Nat.add 0 (map hi prod).
Proof.
  intros Hs D. induction D as [|s2 rest w1 w2 D1 D2 IH]; simpl; [lia|].
  rewrite length_app.
  assert (lo s2 <= length w1 <= hi s2) by (apply Hs; [left|done]).
  assert (foldr Nat.add 0 (map lo rest) <= length w2
          <= foldr Nat.add 0 (map hi rest)).
  { apply IH. intros s w' Hin. apply Hs. by right. }
  lia.
Qed.

(** Within its nesting depth a symbol derives token lists whose length is
    between [min_yield] and [max_yield]. *)
Lemma yield_bounds n : forall sym w,
  depth_ok G n sym = true -> derives G sym w ->
  min_yield G n sym <= length w <= max_yield G n sym.
Proof.
  induction n as [|n IH]; intros sym w Hok D; [discriminate|].
  simpl in Hok. simpl. inversion D as [? E|? prods prod ? E Hin Dm]; subst.
  - rewrite E. simpl. lia.
  - rewrite E in Hok |- *.
    rewrite forallb_forall in Hok.
    specialize (Hok prod ltac:(by apply list_elem_of_In)).
    rewrite forallb_forall in Hok.
    pose proof (members_yield (min_yield G n) (max_yield G n) prod w) as Hm.
    destruct Hm as [Hlo Hhi]; [|done|].
    { intros s w' Hs Ds. apply IH; [|done]. apply Hok. by apply list_elem_of_In. }
    split.
    + destruct prods as [|prod0 prods']; [by apply elem_of_nil in Hin|].
      pose proof (foldr_min_le
        (map (fun prod => foldr Nat.add 0 (map (min_yield G n) prod)) prods')
        (foldr Nat.add 0 (map (min_yield G n) prod0))) as [Hd Hx].
      apply elem_of_cons in Hin as [->|Hin]; [lia|].
      etrans; [apply Hx|exact Hlo].
      apply list_elem_of_In.
      apply (in_map (fun prod => foldr Nat.add 0 (map (min_yield G n) prod))).
      by apply list_elem_of_In.
    + etrans; [exact Hhi|]. apply foldr_max_ge.
      apply list_elem_of_In.
      apply (in_map (fun prod => foldr Nat.add 0 (map (max_yield G n) prod))).
      by apply list_elem_of_In.
Qed.
End YieldFacts.

(** X4: every command that [parse_command] of codeNew.py accepts has from
    3 to 10 tokens, and every command that [parse] of code.py accepts has
    from 3 to 7 tokens: neither grammar has a recursive symbol, and these
    are the shortest and the longest token lists COMMAND derives.  The
    four bounds are reached: each parser accepts a command of the least
    and one of the greatest length. *)
Theorem accepted_length_bounds (tokens trace out : list string) (show_trace : bool) :
  ((CodeNew.parse_command tokens = Some (true, trace) -> 3 <= length tokens <= 10) /\
   (Code.parse tokens show_trace = Some (true, out) -> 3 <= length tokens <= 7)) /\
  (exists short long,
     length short = 3 /\ length long = 10 /\
     fst <$> CodeNew.parse_command short = Some true /\
     fst <$> CodeNew.parse_command long = Some true) /\
  (exists short long,
     length short = 3 /\ length long = 7 /\
     fst <$> Code.parse short show_trace = Some true /\
     fst <$> Code.parse long show_trace = Some true).
Proof.
  split; [split|split].
  - unfold CodeNew.parse_command.
    destruct (CodeNew.parse_symbol "COMMAND" tokens 0 [])
      as [[[ok idx] trace']|] eqn:E; [|discriminate].
    intros [= Hv _]. apply andb_prop in Hv as [-> Hidx%Nat.eqb_eq].
    apply parse_symbol_eval, eval_derives_mut in E.
    destruct (E eq_refl) as (seg & Hseg & D). subst idx.
    rewrite drop_0, drop_all, app_nil_r in Hseg. subst seg.
    apply (yield_bounds _ CodeNew.depth) in D; [|apply GRAMMAR_depth].
    exact D.
  - unfold Code.parse.
    destruct (Code.parse_symbol "COMMAND" tokens 0 [])
      as [[[ok idx] trace']|] eqn:E; [|discriminate].
    intros [= Hv _]. apply andb_prop in Hv as [-> Hidx%Nat.eqb_eq].
    apply parse_symbol_eval, eval_derives_mut in E.
    destruct (E eq_refl) as (seg & Hseg & D). subst idx.
    rewrite drop_0, drop_all, app_nil_r in Hseg. subst seg.
    apply (yield_bounds _ Code.depth) in D; [|apply grammar_depth].
    exact D.
  - exists ["turn"; "on"; "fan"],
      ["remind"; "me"; "to"; "water"; "the"; "plants"; "tomorrow"; "at"; "6"; "pm"].
    repeat split; vm_compute; reflexivity.
  - exists ["turn"; "on"; "fan"],
      ["turn"; "on"; "the"; "living"; "room"; "air"; "conditioner"].
    destruct show_trace; repeat split; vm_compute; reflexivity.
Qed.

(** A command of ten tokens that codeNew.py accepts and one of seven that
    code.py accepts, within the bounds. *)
Lemma accepted_length_bounds_witness :
  (exists trace,
     CodeNew.parse_command
       ["remind"; "me"; "to"; "water"; "the"; "plants"; "tomorrow"; "at"; "6"; "pm"]
     = Some (true, trace) /\
     3 <= length ["remind"; "me"; "to"; "water"; "the"; "plants"; "tomorrow"; "at";
                  "6"; "pm"] <= 10) /\
  (Code.parse ["turn"; "on"; "the"; "living"; "room"; "air"; "conditioner"] false
   = Some (true, []) /\
   3 <= length ["turn"; "on"; "the"; "living"; "room"; "air"; "conditioner"] <= 7).
Proof.
  split.
  - eexists. split; [vm_compute; reflexivity|].
    eapply (proj1 (proj1 (accepted_length_bounds
      ["remind"; "me"; "to"; "water"; "the"; "plants"; "tomorrow"; "at"; "6"; "pm"]
      _ [] false))).
    vm_compute. reflexivity.
  - split; [vm_compute; reflexivity|].
    eapply (proj2 (proj1 (accepted_length_bounds
      ["turn"; "on"; "the"; "living"; "room"; "air"; "conditioner"] [] [] false))).
    vm_compute. reflexivity.
Defined.

(** ** The tokenizers *)

Lemma all_chars_app P a b :
  all_chars P (a +:+ b) = all_chars P a && all_chars P b.
Proof.
  induction a as [|c a IH]; [done|]. rewrite append_cons. simpl.
  by rewrite IH, andb_assoc.
Qed.

Lemma all_chars_impl (P Q : ascii -> bool) s :
  (forall c, P c = true -> Q c = true) -> all_chars P s = true -> all_chars Q s = true.
Proof.
  intros HPQ. induction s as [|c s IH]; simpl; [done|].
  intros [Hc Hs]%andb_prop. by rewrite (HPQ c Hc), IH.
Qed.

Lemma all_chars_lstrip P s : all_chars P s = true -> all_chars P (lstrip s) = true.
Proof.
  induction s as [|c s IH]; simpl; [done|].
  intros H. destruct (is_space c); [|done].
  apply andb_prop in H as [_ H]. auto.
Qed.

Lemma all_chars_rstrip P s : all_chars P s = true -> all_chars P (rstrip s) = true.
Proof.
  induction s as [|c s IH]; simpl; [done|].
  intros [Hc Hs]%andb_prop. specialize (IH Hs).
  destruct (rstrip s) as [|a r].
  - destruct (is_space c); simpl; [done|by rewrite Hc].
  - change (all_chars P (String c (String a r)))
      with (P c && all_chars P (String a r)). by rewrite Hc, IH.
Qed.

Lemma all_chars_strip P s : all_chars P s = true -> all_chars P (strip s) = true.
Proof. intros H. by apply all_chars_rstrip, all_chars_lstrip. Qed.

Lemma all_chars_remove P cls s :
  all_chars P s = true -> all_chars P (remove_chars cls s) = true.
Proof.
  induction s as [|c s IH]; simpl; [done|].
  intros [Hc Hs]%andb_prop. destruct (cls c); simpl; [auto|by rewrite Hc, IH].
Qed.

Lemma all_chars_removed cls s :
  all_chars (fun c => negb (cls c)) (remove_chars cls s) = true.
Proof.
  induction s as [|c s IH]; simpl; [done|].
  destruct (cls c) eqn:E; simpl; [done|by rewrite E, IH].
Qed.

Lemma all_chars_drop_last P s : all_chars P s = true -> all_chars P (drop_last s) = true.
Proof.
  induction s as [|c s IH]; simpl; [done|].
  intros [Hc Hs]%andb_prop. destruct s as [|a s]; [done|].
  change (all_chars P (String c (drop_last (String a s))))
    with (P c && all_chars P (drop_last (String a s))). by rewrite Hc, IH.
Qed.

Lemma lower_char_not_upper c : is_upper (lower_char c) = false.
Proof. destruct c as [[] [] [] [] [] [] [] []]; reflexivity. Qed.

Lemma all_chars_lower s : all_chars (fun c => negb (is_upper c)) (lower s) = true.
Proof.
  induction s as [|c s IH]; simpl; [done|]. by rewrite lower_char_not_upper, IH.
Qed.

Lemma all_chars_and (P Q : ascii -> bool) s :
  all_chars P s = true -> all_chars Q s = true ->
  all_chars (fun c => P c && Q c) s = true.
Proof.
  induction s as [|c s IH]; simpl; [done|].
  intros [-> ?]%andb_prop [-> ?]%andb_prop. simpl. auto.
Qed.

(** [split] cuts a text of [P] characters into non-empty runs of [P]
    characters that are no blanks. *)
Lemma split_from_chars (P : ascii -> bool) s : forall word,
  all_chars P s = true ->
  all_chars (fun c => P c && negb (is_space c)) word = true ->
  Forall (fun t => t <> EmptyString /\
                   all_chars (fun c => P c && negb (is_space c)) t = true)
    (split_from word s).
Proof.
  induction s as [|c s IH]; intros word Hs Hw; simpl.
  - destruct word; [constructor|]. by repeat constructor.
  - apply andb_prop in Hs as [Hc Hs]. destruct (is_space c) eqn:Ec.
    + destruct word; [by apply IH|].
      constructor; [done|]. by apply IH.
    + apply IH; [done|]. rewrite all_chars_app, Hw. simpl. by rewrite Hc, Ec.
Qed.

Lemma codenew_tokens_clean (s : string) :
  Forall (fun t => t <> EmptyString /\ all_chars token_char t = true)
    (CodeNew.tokenize s).
Proof.
  unfold CodeNew.tokenize, split.
  apply (split_from_chars (fun c => negb (is_punctuation c) && negb (is_upper c)));
    [|done].
  apply all_chars_and; [apply all_chars_removed|].
  apply all_chars_remove, all_chars_lower.
Qed.

(** X5: the tokens of [tokenize] are never empty and hold no blank and no
    capital letter; those of codeNew.py hold none of the characters
    [. , ; ! ?] either. *)
Theorem tokens_are_clean (s : string) :
  Forall (fun t => t <> EmptyString /\ all_chars token_char t = true)
    (CodeNew.tokenize s) /\
  Forall (fun t => t <> EmptyString /\ all_chars word_char t = true)
    (Code.tokenize s).
Proof.
  split; [apply codenew_tokens_clean|].
  unfold Code.tokenize, split.
  apply (split_from_chars (fun c => negb (is_upper c))); [|done].
  destruct (Code.ends_with_dot _); [apply all_chars_drop_last|];
    apply all_chars_lower.
Qed.

Lemma lower_id s : all_chars (fun c => negb (is_upper c)) s = true -> lower s = s.
Proof.
  induction s as [|c s IH]; simpl; [done|].
  intros [Hc Hs]%andb_prop. rewrite IH by done. f_equal.
  unfold lower_char. unfold is_upper in Hc. by destruct (_ && _)%bool.
Qed.

Lemma remove_chars_id cls s :
  all_chars (fun c => negb (cls c)) s = true -> remove_chars cls s = s.
Proof.
  induction s as [|c s IH]; simpl; [done|].
  intros [Hc Hs]%andb_prop. destruct (cls c); [done|]. by rewrite IH.
Qed.

(** Blanks at either end do not change what [split] returns. *)
Lemma split_lstrip s : split (lstrip s) = split s.
Proof.
  unfold split. induction s as [|c s IH]; simpl; [done|].
  destruct (is_space c) eqn:Ec; [done|]. simpl. by rewrite Ec.
Qed.

Lemma split_from_cons word c s :
  split_from word (String c s)
  = if is_space c
    then match word with
         | EmptyString => split_from EmptyString s
         | _ => word :: split_from EmptyString s
         end
    else split_from (word +:+ String c EmptyString) s.
Proof. reflexivity. Qed.

Lemma split_from_rstrip s : forall word,
  split_from word (rstrip s) = split_from word s.
Proof.
  induction s as [|c s IH]; intros word; [done|].
  change (rstrip (String c s))
    with (match rstrip s with
          | EmptyString => if is_space c then EmptyString else String c EmptyString
          | String a r => String c (String a r)
          end).
  rewrite (split_from_cons word c s).
  destruct (rstrip s) as [|a r] eqn:E.
  - destruct (is_space c) eqn:Ec.
    + rewrite <- (IH EmptyString). by destruct word.
    + rewrite split_from_cons, Ec. by rewrite <- IH.
  - rewrite (split_from_cons word c (String a r)).
    destruct (is_space c); [|apply IH].
    by rewrite <- (IH EmptyString).
Qed.

Lemma split_strip s : split (strip s) = split s.
Proof.
  rewrite <- (split_lstrip s). unfold strip, split. apply split_from_rstrip.
Qed.

Lemma split_from_word t : forall word rest,
  all_chars (fun c => negb (is_space c)) t = true ->
  split_from word (t +:+ rest) = split_from (word +:+ t) rest.
Proof.
  induction t as [|c t IH]; intros word rest Ht.
  - by rewrite append_nil_r.
  - simpl in Ht. apply andb_prop in Ht as [Hc Ht].
    rewrite append_cons. simpl. apply negb_true_iff in Hc. rewrite Hc.
    rewrite IH by done. f_equal.
    by rewrite append_assoc.
Qed.

(** [split] undoes [" ".join] on blank-free, non-empty words. *)
Lemma split_join l :
  Forall (fun t => t <> EmptyString /\
                   all_chars (fun c => negb (is_space c)) t = true) l ->
  split (join " " l) = l.
Proof.
  unfold split, join. induction 1 as [|t l [Hne Ht] Hl IH]; [done|].
  destruct l as [|t' l'].
  - simpl.
    replace (split_from EmptyString t)
      with (split_from EmptyString (t +:+ EmptyString)) by (by rewrite append_nil_r).
    rewrite split_from_word by done. simpl.
    change (EmptyString +:+ t) with t. by destruct t.
  - change (String.concat " " (t :: t' :: l'))
      with (t +:+ String " " (String.concat " " (t' :: l'))).
    rewrite split_from_word by done.
    change (EmptyString +:+ t) with t. rewrite split_from_cons.
    change (is_space " ") with true. cbv iota.
    destruct t; [done|]. by rewrite IH.
Qed.

Lemma all_chars_join P l :
  P " "%char = true -> Forall (fun t => all_chars P t = true) l ->
  all_chars P (join " " l) = true.
Proof.
  intros Hsp. unfold join. induction 1 as [|t l Ht Hl IH]; [done|].
  destruct l as [|t' l']; [done|].
  change (String.concat " " (t :: t' :: l'))
    with (t +:+ String " " (String.concat " " (t' :: l'))).
  rewrite all_chars_app, Ht.
  change (all_chars P (String " " (String.concat " " (t' :: l'))))
    with (P " "%char && all_chars P (String.concat " " (t' :: l'))).
  by rewrite Hsp, IH.
Qed.

(** X6: [tokenize] of codeNew.py is stable: joining its tokens with single
    blanks and tokenizing again gives the same tokens, so the text that
    [interpret] searches holds exactly the tokens that the grammar saw. *)
Theorem tokenize_join_roundtrip (s : string) :
  CodeNew.tokenize (join " " (CodeNew.tokenize s)) = CodeNew.tokenize s.
Proof.
  pose proof (codenew_tokens_clean s) as Hclean.
  set (l := CodeNew.tokenize s) in *.
  assert (Hup : all_chars (fun c => negb (is_upper c)) (strip (join " " l)) = true).
  { apply all_chars_strip, all_chars_join; [done|].
    eapply Forall_impl; [exact Hclean|]. intros t [_ Ht].
    eapply all_chars_impl; [|exact Ht].
    unfold token_char. by intros c [[_ ?]%andb_prop _]%andb_prop. }
  assert (Hpu : all_chars (fun c => negb (is_punctuation c)) (strip (join " " l)) = true).
  { apply all_chars_strip, all_chars_join; [done|].
    eapply Forall_impl; [exact Hclean|]. intros t [_ Ht].
    eapply all_chars_impl; [|exact Ht].
    unfold token_char. by intros c [[? _]%andb_prop _]%andb_prop. }
  unfold CodeNew.tokenize at 1.
  rewrite lower_id, remove_chars_id, split_strip by done.
  apply split_join. eapply Forall_impl; [exact Hclean|]. intros t [Hne Ht].
  split; [done|]. eapply all_chars_impl; [|exact Ht].
  unfold token_char. by intros c [_ ?]%andb_prop.
Qed.

(** In code.py only one final full stop is dropped, so the same does not
    hold there: "on.." gives the token "on.", which tokenizes to "on". *)
Example code_tokenize_not_stable :
  Code.tokenize "on.." = ["on."] /\ Code.tokenize (join " " ["on."]) = ["on"].
Proof. split; reflexivity. Qed.

Lemma split_blanks s : all_chars is_space s = true -> split s = [].
Proof.
  unfold split. induction s as [|c s IH]; simpl; [done|].
  intros [-> Hs]%andb_prop. auto.
Qed.

Lemma blank_or_punctuation_not_upper c :
  blank_or_punctuation c = true -> negb (is_upper c) = true.
Proof. destruct c as [[] [] [] [] [] [] [] []]; done. Qed.

Lemma remove_punctuation_blanks s :
  all_chars blank_or_punctuation s = true ->
  all_chars is_space (remove_chars is_punctuation s) = true.
Proof.
  induction s as [|c s IH]; simpl; [done|].
  intros [Hc Hs]%andb_prop. destruct (is_punctuation c) eqn:Ep; [auto|].
  simpl. unfold blank_or_punctuation in Hc. rewrite Ep, orb_false_r in Hc.
  by rewrite Hc, IH.
Qed.

(** An input of blanks and punctuation has no token. *)
Lemma tokenize_blank s :
  all_chars blank_or_punctuation s = true -> CodeNew.tokenize s = [].
Proof.
  intros H. unfold CodeNew.tokenize.
  apply all_chars_strip in H.
  rewrite lower_id
    by (eapply all_chars_impl; [apply blank_or_punctuation_not_upper|done]).
  by apply split_blanks, remove_punctuation_blanks.
Qed.

(** X7: an input made only of blanks and of the characters [. , ; ! ?],
    the empty input included, has no token; [handle] answers that the
    command is not recognized, with [ok] false, and leaves the devices,
    the [events] table and the timers as they were. *)
Theorem blank_input_not_recognized (text : string) (clock now : datetime)
    (id : string) (w : CodeNew.world) :
  all_chars blank_or_punctuation text = true ->
  CodeNew.tokenize text = [] /\
  exists trace,
    CodeNew.handle text clock now id w
    = Some (Ok ({| CodeNew.ok := false; CodeNew.trace := trace;
                   CodeNew.result := CodeNew.not_recognized |}, w)).
Proof.
  intros H%tokenize_blank. split; [done|].
  unfold CodeNew.handle, CodeNew.interpret. rewrite H.
  by eexists.
Qed.

Lemma blank_input_not_recognized_witness :
  CodeNew.tokenize "  ?!  " = [] /\
  exists trace,
    CodeNew.handle "  ?!  " sample_now sample_now "id-1" fresh_world
    = Some (Ok ({| CodeNew.ok := false; CodeNew.trace := trace;
                   CodeNew.result := CodeNew.not_recognized |}, fresh_world)).
Proof.
  apply (blank_input_not_recognized "  ?!  " sample_now sample_now "id-1" fresh_world).
  reflexivity.
Defined.

(** ** Times, whatever the text *)
Section MoreTimeFacts.
Local Open Scope Z_scope.

(** A time returned by [parse_time_of_day] is a next occurrence of some
    hour of the day. *)
Lemma parse_time_of_day_next t ref dt :
  valid_datetime ref -> CodeNew.parse_time_of_day t ref = Ok dt ->
  exists h, 0 <= h <= 23 /\ dt = next_occurrence h ref /\ ordinal dt <= MAXORDINAL.
Proof.
  intros Href. rewrite parse_time_of_day_unfold.
  destruct (matched_hour t) as [h|]; [|done].
  destruct (decide (0 <= h <= 23)) as [Hh|Hh].
  - rewrite resolve_hour by done.
    destruct (Z.leb_spec (ordinal (next_occurrence h ref)) MAXORDINAL); [|done].
    intros [= <-]. by exists h.
  - unfold replace_time.
    destruct (Z.leb_spec 0 h), (Z.leb_spec h 23); try done. lia.
Qed.

(** X8: whatever its text, a time that [parse_time_of_day] returns is a
    valid datetime at a full hour, strictly after the reference time and
    at most one day after it. *)
Theorem time_of_day_is_next_full_hour (t : string) (ref dt : datetime) :
  valid_datetime ref -> CodeNew.parse_time_of_day t ref = Ok dt ->
  valid_datetime dt /\
  minute dt = 0 /\ second dt = 0 /\ microsecond dt = 0 /\
  to_us ref < to_us dt <= to_us ref + us_per_day.
Proof.
  intros Href H. pose proof Href as (Ho & Hrh & Hrm & Hrs & Hru).
  destruct (parse_time_of_day_next t ref dt Href H) as (h & Hh & -> & Hmax).
  revert Hmax. unfold next_occurrence.
  destruct (Z.ltb_spec (to_us ref) (to_us (at_hour (ordinal ref) h))) as [Hlt|Hge];
    intros Hmax; (split; [apply valid_at_hour; simpl in *; lia|]);
    (do 3 (split; [done|])); unfold_units; lia.
Qed.

Lemma time_of_day_is_next_full_hour_witness :
  to_us sample_now < to_us (at_hour 739924 9) <= to_us sample_now + us_per_day.
Proof.
  refine (proj2 (proj2 (proj2 (proj2
    (time_of_day_is_next_full_hour "9am tomorrow" sample_now (at_hour 739924 9)
       _ _))))).
  - vm_compute. intuition discriminate.
  - vm_compute. reflexivity.
Defined.

(** The hour read from "H am" or "H pm" for a one- or two-digit H. *)
Lemma matched_hour_two_digits_nat (n : nat) pm :
  (n < 100)%nat ->
  matched_hour (clock_text (Z.of_nat n) pm)
  = Some (if pm then (if Z.of_nat n =? 12 then Z.of_nat n else Z.of_nat n + 12)
          else (if Z.of_nat n =? 12 then 0 else Z.of_nat n)).
Proof.
  intros Hn.
  destruct pm;
    do 100 (destruct n as [|n]; [vm_compute; reflexivity|]); lia.
Qed.

Lemma matched_hour_two_digits H pm :
  0 <= H <= 99 ->
  matched_hour (clock_text H pm)
  = Some (if pm then (if H =? 12 then H else H + 12)
          else (if H =? 12 then 0 else H)).
Proof.
  intros HH. pose proof (matched_hour_two_digits_nat (Z.to_nat H) pm) as E.
  rewrite Z2Nat.id in E by lia. apply E. lia.
Qed.

(** X9: [parse_time_of_day] raises ValueError on the empty text and on a
    text that begins with an ASCII character other than a digit, and on
    the hours that are not on the 12-hour clock once they leave the day:
    "H pm" for H from 13 to 99 and "H am" for H from 24 to 99.  ("H am"
    for H from 13 to 23 is read as hour H.)  A text that begins with a
    character outside ASCII is left out: [\d] and [int] of Python also
    read the decimal digits of other scripts. *)
Theorem time_of_day_value_errors (t : string) (H : Z) (pm : bool) (ref : datetime) :
  (match t with
   | EmptyString => True
   | String c _ => is_ascii c = true /\ is_digit c = false
   end -> CodeNew.parse_time_of_day t ref = Raise ValueError) /\
  (13 <= H <= 99 -> pm = true \/ 24 <= H ->
   CodeNew.parse_time_of_day (clock_text H pm) ref = Raise ValueError) /\
  (13 <= H <= 23 -> valid_datetime ref -> ordinal ref < MAXORDINAL ->
   CodeNew.parse_time_of_day (clock_text H false) ref = Ok (next_occurrence H ref)).
Proof.
  split; [|split].
  - unfold CodeNew.parse_time_of_day, re_match. destruct t as [|c t]; [done|].
    intros [_ Hc]. simpl. by rewrite Hc.
  - intros HH Hcase. rewrite parse_time_of_day_unfold, matched_hour_two_digits by lia.
    unfold replace_time.
    destruct pm, (Z.eqb_spec H 12); try lia.
    + destruct (Z.leb_spec 0 (H + 12)), (Z.leb_spec (H + 12) 23); try done; lia.
    + destruct (Z.leb_spec 0 H), (Z.leb_spec H 23); try done; lia.
  - intros HH Href Hmax. rewrite parse_time_of_day_unfold, matched_hour_two_digits by lia.
    destruct (Z.eqb_spec H 12); [lia|].
    rewrite resolve_hour by (done || lia).
    assert (ordinal (next_occurrence H ref) <= MAXORDINAL).
    { unfold next_occurrence. destruct (_ <? _); simpl; [|lia].
      destruct Href as ((? & ?) & _). lia. }
    by destruct (Z.leb_spec (ordinal (next_occurrence H ref)) MAXORDINAL); [|lia].
Qed.

Lemma time_of_day_value_errors_witness :
  CodeNew.parse_time_of_day "noon" sample_now = Raise ValueError /\
  CodeNew.parse_time_of_day "13 pm" sample_now = Raise ValueError /\
  CodeNew.parse_time_of_day "13 am" sample_now = Ok (at_hour 739923 13).
Proof.
  assert (V : valid_datetime sample_now) by (vm_compute; intuition discriminate).
  split; [|split].
  - apply (proj1 (time_of_day_value_errors "noon" 13 true sample_now)).
    split; reflexivity.
  - apply (proj1 (proj2 (time_of_day_value_errors "" 13 true sample_now)));
      [lia|by left].
  - apply (proj2 (proj2 (time_of_day_value_errors "" 13 true sample_now)));
      [lia|exact V|reflexivity].
Defined.

(** A sum that [datetime_add] returns is the instant asked for. *)
Lemma datetime_add_sum ref delta dt :
  datetime_add ref delta = Ok dt ->
  to_us dt = to_us ref + delta /\ 1 <= ordinal dt <= MAXORDINAL.
Proof.
  unfold datetime_add.
  destruct (Z.leb_spec 1 ((to_us ref + delta) / us_per_day)); [|done].
  destruct (Z.leb_spec ((to_us ref + delta) / us_per_day) MAXORDINAL); [|done].
  intros [= <-]. rewrite to_us_of_us. by split.
Qed.

(** X10: a time that [parse_duration] returns is the reference time plus
    [num] hours when the unit holds the text "hour", and plus [num]
    minutes for every other unit; a negative [num] goes back in time. *)
Theorem duration_is_added (num : Z) (unit : string) (ref dt : datetime) :
  CodeNew.parse_duration num unit ref = Ok dt ->
  to_us dt = to_us ref
             + num * (if contains "hour" unit then us_per_hour else us_per_minute) /\
  1 <= ordinal dt <= MAXORDINAL.
Proof.
  unfold CodeNew.parse_duration, timedelta.
  destruct (contains "hour" unit); rewrite ?Z.mul_0_l, ?Z.add_0_l, ?Z.add_0_r;
    destruct (_ && _)%bool; try done; apply datetime_add_sum.
Qed.

Lemma duration_is_added_witness :
  to_us (at_hour 739923 10) = to_us sample_now + (-30) * us_per_minute.
Proof.
  apply (duration_is_added (-30) "seconds" sample_now (at_hour 739923 10)).
  vm_compute. reflexivity.
Defined.

(** The datetime of an instant within the range is a valid one. *)
Lemma valid_of_us u :
  1 <= u / us_per_day <= MAXORDINAL -> valid_datetime (of_us u).
Proof.
  intros Hd. unfold valid_datetime, of_us. simpl.
  change us_per_day with 86400000000 in *.
  change us_per_hour with 3600000000. change us_per_minute with 60000000.
  change us_per_second with 1000000.
  pose proof (Z.mod_pos_bound u 86400000000 ltac:(lia)).
  pose proof (Z.mod_pos_bound u 3600000000 ltac:(lia)).
  pose proof (Z.mod_pos_bound u 60000000 ltac:(lia)).
  pose proof (Z.mod_pos_bound u 1000000 ltac:(lia)).
  repeat split; try lia;
    first [apply Z.div_pos; lia | apply Z.div_lt_upper_bound; lia].
Qed.

Lemma int_from_nonneg s : forall acc,
  all_chars is_digit s = true -> 0 <= acc -> 0 <= int_from acc s.
Proof.
  induction s as [|c s IH]; intros acc; simpl; [done|].
  intros [Hc Hs]%andb_prop Hacc. apply IH; [done|].
  assert (0 <= digit_value c); [|lia].
  revert Hc. unfold is_digit, digit_value.
  intros [?%Nat.leb_le _]%andb_prop. lia.
Qed.

(** The number that [interpret] reads from the phrase is a run of digits. *)
Lemma search_number_digits phrase n :
  CodeNew.search_group1 CodeNew.number_re phrase = Ok n ->
  all_chars is_digit n = true.
Proof.
  unfold CodeNew.search_group1.
  destruct (re_search CodeNew.number_re phrase) as [m|] eqn:E; [|done].
  apply re_search_sound in E as (pre & post & _ & Hm).
  unfold group. intros [= <-].
  unfold CodeNew.number_re, digits_plus in Hm. inv_matches.
  by rewrite lookup_insert_eq.
Qed.

(** X11: a reminder is never set in the past.  When [interpret], asked at
    a valid time [now], answers a schedule intent, its time is not before
    [now]. *)
Theorem schedule_not_in_the_past (text : string) (now : datetime)
    (command task : string) (t : datetime) :
  valid_datetime now ->
  CodeNew.interpret text now = Ok (CodeNew.sem_schedule command task t) ->
  to_us now <= to_us t.
Proof.
  intros Hnow. unfold CodeNew.interpret.
  destruct (re_search CodeNew.device_re _); [done|].
  destruct (re_search CodeNew.schedule_re _) as [m|]; [|done].
  set (phrase := default "" (group m 3)).
  destruct (contains "after" phrase).
  - destruct (CodeNew.search_group1 CodeNew.number_re phrase) as [n|] eqn:En; [|done].
    simpl. destruct (CodeNew.parse_duration _ _ now) as [t0|] eqn:Et; [|done].
    simpl. intros [= _ _ <-].
    apply search_number_digits in En.
    pose proof (int_from_nonneg n 0 En ltac:(lia)) as Hn. fold (int n) in Hn.
    revert Et. unfold CodeNew.parse_duration, timedelta.
    destruct (contains "hour" _); rewrite ?Z.mul_0_l, ?Z.add_0_l, ?Z.add_0_r;
      destruct (_ && _)%bool; try done; simpl;
      intros [-> _]%datetime_add_sum; unfold_units; lia.
  - destruct (contains "tomorrow" phrase).
    + destruct (CodeNew.search_group1 CodeNew.clock_re phrase) as [hr|]; [|done].
      simpl. destruct (datetime_add now _) as [ref|] eqn:Eref; [|done].
      simpl. destruct (CodeNew.parse_time_of_day hr ref) as [t0|] eqn:Et; [|done].
      simpl. intros [= _ _ <-].
      pose proof Eref as [Hsum Hord]%datetime_add_sum.
      assert (Href : valid_datetime ref).
      { revert Eref. unfold datetime_add.
        destruct (Z.leb_spec 1 ((to_us now + (1 * us_per_day + 0 * us_per_hour
                                              + 0 * us_per_minute)) / us_per_day));
          [|done].
        destruct (Z.leb_spec ((to_us now + (1 * us_per_day + 0 * us_per_hour
                                            + 0 * us_per_minute)) / us_per_day)
                    MAXORDINAL); [|done].
        intros [= <-]. by apply valid_of_us. }
      destruct (parse_time_of_day_next hr ref t0 Href Et) as (h & Hh & -> & _).
      destruct (next_occurrence_least h ref Hh Href) as [Hlt _].
      unfold_units. lia.
    + destruct (CodeNew.search_group1 CodeNew.clock_re phrase) as [hr|]; [|done].
      simpl. destruct (CodeNew.parse_time_of_day hr now) as [t0|] eqn:Et; [|done].
      simpl. intros [= _ _ <-].
      destruct (parse_time_of_day_next hr now t0 Hnow Et) as (h & Hh & -> & _).
      destruct (next_occurrence_least h now Hh Hnow) as [Hlt _]. lia.
Qed.

Lemma schedule_not_in_the_past_witness :
  to_us sample_now
  <= to_us {| ordinal := 739923; hour := 10; minute := 30; second := 0;
              microsecond := 0 |}.
Proof.
  apply (schedule_not_in_the_past "schedule a read the book after 0 minutes"
           sample_now "schedule a read the book after 0 minutes" "read the book").
  - vm_compute. intuition discriminate.
  - vm_compute. reflexivity.
Defined.
End MoreTimeFacts.

(** ** Device intents *)

(** Group 2 of a match of the device pattern is "on" or "off". *)
Lemma device_re_state w caps :
  matches CodeNew.device_re w ∅ caps ->
  caps !! 2 = Some "on" \/ caps !! 2 = Some "off".
Proof.
  unfold CodeNew.device_re. simpl seqs. intros H.
  inversion H as [| |? ? w1 wr1 ? c1 ? M1 H1| | | | |]; subst; clear H.
  inversion H1 as [| |? ? w2 wr2 ? c2 ? M2 H2| | | | |]; subst; clear H1.
  inversion H2 as [| |? ? w3 wr3 ? c3 ? M3 H3| | | | |]; subst; clear H2.
  rewrite (matches_frame _ _ _ _ 2 H3) by reflexivity.
  clear H3 M1 M2. inv_matches; rewrite lookup_insert_eq; auto.
Qed.

(** The names a device intent can carry. *)
Lemma device_intent_names text now command device state :
  CodeNew.interpret text now = Ok (CodeNew.sem_device command device state) ->
  device ∈ intent_names.
Proof.
  unfold CodeNew.interpret.
  destruct (re_search CodeNew.device_re _) as [m|] eqn:E.
  - intros [= <- <- <-].
    apply re_search_sound in E as (pre0 & post & _ & M).
    apply device_re_groups in M as (pre & noun & _ & Hn & G4 & G3).
    unfold group. rewrite G4. apply list_elem_of_In in Hn. simpl in Hn.
    destruct G3 as [G3|(pre' & room & ws & _ & Hr & Hws & G3)]; rewrite G3; simpl.
    + destruct Hn as [<-|[<-|[<-|[<-|[<-|[]]]]]]; solve_elem_of.
    + rewrite (strip_room_blanks room ws) by done.
      apply list_elem_of_In in Hr. simpl in Hr.
      destruct Hr as [<-|[<-|[<-|[<-|[]]]]];
        destruct Hn as [<-|[<-|[<-|[<-|[<-|[]]]]]]; solve_elem_of.
  - destruct (re_search CodeNew.schedule_re _); [|done].
    destruct (_ : res datetime); done.
Qed.

(** X12: a device intent of [interpret] carries the text it was given, a
    power state that is "on" or "off", and a device name from a closed
    list of 25: one of the five device nouns, alone or after one of the
    four room words. *)
Theorem device_intent_fields (text : string) (now : datetime)
    (command device state : string) :
  CodeNew.interpret text now = Ok (CodeNew.sem_device command device state) ->
  command = text /\
  (state = "on" \/ state = "off") /\
  device ∈ intent_names.
Proof.
  intros H. split; [|split; [|by eapply device_intent_names]].
  - revert H. unfold CodeNew.interpret.
    destruct (re_search CodeNew.device_re _); [by intros [= <- _ _]|].
    destruct (re_search CodeNew.schedule_re _); [|done].
    destruct (_ : res datetime); done.
  - revert H. unfold CodeNew.interpret.
    destruct (re_search CodeNew.device_re _) as [m|] eqn:E.
    + intros [= _ _ <-].
      apply re_search_sound in E as (pre0 & post & _ & M).
      apply device_re_state in M. unfold group.
      destruct M as [-> | ->]; auto.
    + destruct (re_search CodeNew.schedule_re _); [|done].
      destruct (_ : res datetime); done.
Qed.

Lemma device_intent_fields_witness :
  "bedroom heater" ∈ intent_names.
Proof.
  apply (device_intent_fields "Switch OFF the bedroom heater!" sample_now
           "Switch OFF the bedroom heater!" "bedroom heater" "off").
  vm_compute. reflexivity.
Defined.

(** ** The registry and the dispatcher *)

(** X13: [set_device] writes what it is given and the last write wins.
    After a successful call the named device has the new state; a second
    call under the same name succeeds or fails as the first did and leaves
    the registry as if it had been the only call. *)
Theorem set_device_last_write_wins (devices : gmap string string)
    (name s1 s2 : string) :
  let name' := replace_double_space (strip name) in
  let r1 := CodeNew.set_device devices name s1 in
  let r2 := CodeNew.set_device r1.2 name s2 in
  let h1 := Hybrid.set_device devices name s1 in
  let h2 := Hybrid.set_device h1.2 name s2 in
  ((r1.1 = true -> r1.2 !! name' = Some s1) /\
   r2.1 = r1.1 /\ r2.2 = (CodeNew.set_device devices name s2).2) /\
  ((h1.1 = true -> h1.2 !! name = Some s1) /\
   h2.1 = h1.1 /\ h2.2 = (Hybrid.set_device devices name s2).2).
Proof.
  intros name'. unfold CodeNew.set_device, Hybrid.set_device. fold name'. simpl.
  split.
  - destruct (devices !! name') as [old|] eqn:E; simpl.
    + rewrite lookup_insert_eq. simpl. by rewrite insert_insert_eq.
    + by rewrite E.
  - destruct (devices !! name) as [old|] eqn:E; simpl.
    + rewrite lookup_insert_eq. simpl. by rewrite insert_insert_eq.
    + by rewrite E.
Qed.

Lemma set_device_last_write_wins_witness :
  (CodeNew.set_device CodeNew.initial_devices "kitchen fan " "on").2 !! "kitchen fan"
  = Some "on".
Proof.
  apply (proj1 (proj1 (set_device_last_write_wins CodeNew.initial_devices
                         "kitchen fan " "on" "off"))).
  reflexivity.
Defined.

Lemma codenew_set_device_dom (devices : gmap string string) (name state : string) :
  dom (CodeNew.set_device devices name state).2 = dom devices.
Proof.
  unfold CodeNew.set_device.
  destruct (devices !! _) as [old|] eqn:E; simpl; [|done].
  apply dom_insert_lookup_L. eauto.
Qed.

Lemma codenew_set_device_failed (devices : gmap string string) (name state : string) :
  (CodeNew.set_device devices name state).1 = false ->
  (CodeNew.set_device devices name state).2 = devices.
Proof. unfold CodeNew.set_device. by destruct (devices !! _). Qed.

Lemma hybrid_set_device_dom (devices : gmap string string) (name state : string) :
  dom (Hybrid.set_device devices name state).2 = dom devices.
Proof.
  unfold Hybrid.set_device.
  destruct (devices !! _) as [old|] eqn:E; simpl; [|done].
  apply dom_insert_lookup_L. eauto.
Qed.

(** X14: what [handle] can change.  Whatever the command, a call that
    returns keeps the set of devices, writes no row of the [events] table
    other than the one under its fresh id, and adds at most one timer.
    When the command is not recognized it changes nothing and answers
    [ok] false, even when the grammar accepted the tokens; an unknown
    device leaves every device state as it was; and a reminder leaves
    the registry alone and adds exactly its timer. *)
Theorem handle_effects (text : string) (clock now : datetime) (id : string)
    (w w' : CodeNew.world) (r : CodeNew.response) :
  CodeNew.handle text clock now id w = Some (Ok (r, w')) ->
  dom (CodeNew.devices w') = dom (CodeNew.devices w) /\
  (forall k, k <> id -> CodeNew.events w' !! k = CodeNew.events w !! k) /\
  match CodeNew.result r with
  | CodeNew.not_recognized => w' = w /\ CodeNew.ok r = false
  | CodeNew.unknown_device =>
      CodeNew.devices w' = CodeNew.devices w /\ CodeNew.timers w' = CodeNew.timers w /\
      CodeNew.status <$> CodeNew.events w' !! id = Some "failed"
  | CodeNew.device_executed =>
      CodeNew.timers w' = CodeNew.timers w /\
      CodeNew.status <$> CodeNew.events w' !! id = Some "done"
  | CodeNew.reminder_set t =>
      CodeNew.devices w' = CodeNew.devices w /\
      (exists task, CodeNew.timers w' = CodeNew.timers w ++ [(t, task)]) /\
      CodeNew.status <$> CodeNew.events w' !! id = Some "scheduled"
  end.
Proof.
  unfold CodeNew.handle.
  destruct (CodeNew.parse_command _) as [[ok trace]|]; [|done].
  destruct (CodeNew.interpret text clock) as [[c device state|c task t|c]|]; simpl;
    [| | |done].
  - pose proof (codenew_set_device_dom (CodeNew.devices w) device state) as Hdom.
    pose proof (codenew_set_device_failed (CodeNew.devices w) device state) as Hfail.
    destruct (CodeNew.set_device (CodeNew.devices w) device state)
      as [[] devices'] eqn:E; simpl in *; intros [= <- <-]; simpl;
      (split; [done|]); (split; [by intros; rewrite lookup_insert_ne|]);
      rewrite lookup_insert_eq; auto.
  - intros [= <- <-]. simpl. split; [done|].
    split; [by intros; rewrite lookup_insert_ne|].
    rewrite lookup_insert_eq. eauto.
  - intros [= <- <-]. simpl. done.
Qed.

Lemma handle_effects_witness :
  exists r w',
    CodeNew.handle "remind me to water the plants after 2 hours" sample_now sample_now
      "e1" fresh_world = Some (Ok (r, w')) /\
    dom (CodeNew.devices w') = dom (CodeNew.devices fresh_world).
Proof.
  eexists _, _. split; [vm_compute; reflexivity|].
  refine (proj1 (handle_effects "remind me to water the plants after 2 hours"
                   sample_now sample_now "e1" fresh_world _ _ _)).
  vm_compute. reflexivity.
Defined.

(** The grammar and the interpreter do not agree on every command: "remind
    me to take medicine after 1 hour" is accepted by [parse_command], the
    pattern of [interpret] wants "hours", and [handle] answers not
    recognized with [ok] false. *)
Example after_one_hour_not_recognized :
  fst <$> CodeNew.parse_command
            (CodeNew.tokenize "remind me to take medicine after 1 hour") = Some true /\
  exists trace,
    CodeNew.handle "remind me to take medicine after 1 hour" sample_now sample_now
      "e1" fresh_world
    = Some (Ok ({| CodeNew.ok := false; CodeNew.trace := trace;
                   CodeNew.result := CodeNew.not_recognized |}, fresh_world)).
Proof. split; [|eexists]; vm_compute; reflexivity. Qed.
(** ** The accepted language *)
Section LanguageFacts.
Variable G : gmap string (list (list string)).

Lemma members_language_complete (lang : string -> list (list string)) prod w :
  (forall s w', s ∈ prod -> derives G s w' -> w' ∈ lang s) ->
  derives_members G prod w -> w ∈ members_language lang prod.
Proof.
  intros Hs D. induction D as [|s2 rest w1 w2 D1 D2 IH]; simpl.
  - by left.
  - apply list_elem_of_bind. exists w1. split; [|apply Hs; [left|done]].
    apply list_elem_of_bind. exists w2. split; [by left|].
    apply IH. intros s w' Hin. apply Hs. by right.
Qed.

Lemma members_language_sound (lang : string -> list (list string)) prod : forall w,
  (forall s w', s ∈ prod -> w' ∈ lang s -> derives G s w') ->
  w ∈ members_language lang prod -> derives_members G prod w.
Proof.
  induction prod as [|s2 rest IH]; intros w Hs; simpl.
  - intros ->%list_elem_of_singleton. constructor.
  - intros (w1 & (w2 & ->%list_elem_of_singleton & H2)%list_elem_of_bind & H1)%list_elem_of_bind.
    constructor; [apply Hs; [left|done]|].
    apply IH; [|done]. intros s w' Hin. apply Hs. by right.
Qed.

(** [language] lists what a symbol derives, all of it when the depth is
    enough for the symbol. *)
Lemma language_complete n : forall sym w,
  depth_ok G n sym = true -> derives G sym w -> w ∈ language G n sym.
Proof.
  induction n as [|n IH]; intros sym w Hok D; [discriminate|].
  simpl in Hok. simpl. inversion D as [? E|? prods prod ? E Hin Dm]; subst.
  - rewrite E. by left.
  - rewrite E in Hok |- *.
    rewrite forallb_forall in Hok.
    specialize (Hok prod ltac:(by apply list_elem_of_In)).
    rewrite forallb_forall in Hok.
    apply list_elem_of_bind. exists prod. split; [|done].
    apply members_language_complete; [|done].
    intros s w' Hs Ds. apply IH; [|done]. apply Hok. by apply list_elem_of_In.
Qed.

Lemma language_sound n : forall sym w,
  w ∈ language G n sym -> derives G sym w.
Proof.
  induction n as [|n IH]; intros sym w; simpl; [by intros ?%elem_of_nil|].
  destruct (G !! sym) as [prods|] eqn:E.
  - intros (prod & Hw & Hin)%list_elem_of_bind.
    econstructor; [done..|].
    apply (members_language_sound (language G n)); [|done].
    intros s w' _. apply IH.
  - intros ->%list_elem_of_singleton. by constructor.
Qed.
End LanguageFacts.

Lemma codenew_accepted_derives tokens :
  fst <$> CodeNew.parse_command tokens = Some true ->
  derives CodeNew.GRAMMAR "COMMAND" tokens.
Proof.
  unfold CodeNew.parse_command.
  destruct (CodeNew.parse_symbol "COMMAND" tokens 0 [])
    as [[[ok idx] trace']|] eqn:E; [|discriminate].
  intros [= Hv]. apply andb_prop in Hv as [-> Hidx%Nat.eqb_eq].
  apply parse_symbol_eval, eval_derives_mut in E.
  destruct (E eq_refl) as (seg & Hseg & D). subst idx.
  rewrite drop_0, drop_all, app_nil_r in Hseg. by subst seg.
Qed.

Lemma code_accepted_derives tokens show_trace :
  fst <$> Code.parse tokens show_trace = Some true ->
  derives Code.grammar "COMMAND" tokens.
Proof.
  unfold Code.parse.
  destruct (Code.parse_symbol "COMMAND" tokens 0 [])
    as [[[ok idx] trace']|] eqn:E; [|discriminate].
  intros [= Hv]. apply andb_prop in Hv as [-> Hidx%Nat.eqb_eq].
  apply parse_symbol_eval, eval_derives_mut in E.
  destruct (E eq_refl) as (seg & Hseg & D). subst idx.
  rewrite drop_0, drop_all, app_nil_r in Hseg. by subst seg.
Qed.

Lemma code_verdict_without_trace tokens show_trace :
  fst <$> Code.parse tokens show_trace = fst <$> Code.parse tokens false.
Proof.
  unfold Code.parse.
  by destruct (Code.parse_symbol "COMMAND" tokens 0 []) as [[[ok idx] trace']|].
Qed.

(** Every sentence of the grammar of codeNew.py is accepted. *)
Lemma codenew_language_accepted :
  forallb codenew_accepts (language CodeNew.GRAMMAR CodeNew.depth "COMMAND") = true.
Proof. vm_compute. reflexivity. Qed.

(** A sentence of the grammar of code.py is accepted when, and only when,
    its target is not a device followed by "in" and a room. *)
Lemma code_language_accepted :
  forallb (fun t => Bool.eqb (code_accepts t)
                      (negb (bool_decide (drop 2 t ∈ language Code.grammar Code.depth
                                                       "DEVICE_IN_ROOM"))))
    (language Code.grammar Code.depth "COMMAND") = true.
Proof. vm_compute. reflexivity. Qed.

Lemma verdict_from_table (accepts : list string -> bool) (L LC : list (list string)) :
  forallb (fun t => Bool.eqb (accepts t) (negb (bool_decide (drop 2 t ∈ L)))) LC = true ->
  forall t, t ∈ LC -> accepts t = negb (bool_decide (drop 2 t ∈ L)).
Proof.
  rewrite forallb_forall. intros H t Hin.
  by apply Bool.eqb_prop, H, list_elem_of_In.
Qed.

(** X15: the language each parser accepts.  [parse_command] of codeNew.py
    accepts exactly the token lists that COMMAND derives in its grammar
    table.  [parse] of code.py accepts less than its table derives: a
    token list is accepted exactly when COMMAND derives it and its target
    is not a device followed by "in" and a room, so no sentence of the
    third alternative of TARGET is ever accepted. *)
Theorem accepted_language (tokens : list string) (show_trace : bool) :
  (fst <$> CodeNew.parse_command tokens = Some true <->
   derives CodeNew.GRAMMAR "COMMAND" tokens) /\
  (fst <$> Code.parse tokens show_trace = Some true <->
   derives Code.grammar "COMMAND" tokens /\ ~ in_room_sentence tokens).
Proof.
  split.
  - split; [apply codenew_accepted_derives|].
    intros D. apply (language_complete _ CodeNew.depth) in D; [|apply GRAMMAR_depth].
    pose proof codenew_language_accepted as H.
    rewrite forallb_forall in H. apply list_elem_of_In, H in D.
    by apply bool_decide_eq_true in D.
  - rewrite code_verdict_without_trace.
    pose proof (verdict_from_table _ _ _ code_language_accepted tokens) as V.
    split.
    + intros A. pose proof (code_accepted_derives _ _ A) as D.
      split; [done|]. intros (v & s & w & -> & Dw).
      apply (language_complete _ Code.depth) in D; [|apply grammar_depth].
      apply (language_complete _ Code.depth) in Dw; [|apply grammar_depth].
      specialize (V D).
      rewrite (bool_decide_eq_true_2 (drop 2 (v :: s :: w) ∈ _) Dw) in V.
      unfold code_accepts in V. rewrite (bool_decide_eq_true_2 _ A) in V.
      discriminate V.
    + intros [D Hn].
      apply (language_complete _ Code.depth) in D as Hin; [|apply grammar_depth].
      specialize (V Hin).
      destruct (bool_decide (drop 2 tokens ∈ _)) eqn:Ed.
      * exfalso. apply Hn. apply bool_decide_eq_true in Ed.
        apply language_sound in Ed.
        apply (yield_bounds _ Code.depth) in D; [|apply grammar_depth].
        destruct D as [D _]. change (3 <= length tokens) in D.
        destruct tokens as [|v [|s w]]; [simpl in D; lia..|].
        exists v, s, w. split; [reflexivity|exact Ed].
      * by apply bool_decide_eq_true in V.
Qed.

(** "switch on the heater in bedroom" is among the commands code.py lists
    as examples to try; COMMAND derives it and [parse] rejects it. *)
Example heater_in_bedroom_derived_not_accepted :
  derives Code.grammar "COMMAND" ["switch"; "on"; "heater"; "in"; "bedroom"] /\
  fst <$> Code.parse ["switch"; "on"; "heater"; "in"; "bedroom"] false = Some false.
Proof.
  split; [|vm_compute; reflexivity].
  apply (language_sound _ Code.depth).
  refine (bool_decide_unpack _ _). by vm_compute.
Qed.
(** The names of device intents are already in the form [set_device]
    looks up. *)
Lemma intent_names_normal device :
  device ∈ intent_names -> replace_double_space (strip device) = device.
Proof.
  intros H. apply list_elem_of_In in H. vm_compute in H.
  repeat (destruct H as [<-|H]; [reflexivity|]). destruct H.
Qed.

(** X16: [handle] only ever writes a device whose name is a device noun,
    alone or after one room word.  The state of every other device is the
    same after the call as before, whatever the command: among the
    devices of the initial registry this is the case of "living room
    lights", which no command can switch. *)
Theorem handle_writes_intent_names_only (text : string) (clock now : datetime)
    (id : string) (w w' : CodeNew.world) (r : CodeNew.response) (name : string) :
  CodeNew.handle text clock now id w = Some (Ok (r, w')) ->
  name ∉ intent_names ->
  CodeNew.devices w' !! name = CodeNew.devices w !! name.
Proof.
  unfold CodeNew.handle. intros H Hname.
  destruct (CodeNew.parse_command _) as [[ok trace]|]; [|done].
  destruct (CodeNew.interpret text clock) as [[c device state|c task t|c]|] eqn:E;
    simpl in H; [| | |done].
  - apply device_intent_names in E.
    unfold CodeNew.set_device in H. rewrite (intent_names_normal _ E) in H.
    destruct (CodeNew.devices w !! device); injection H as <- <-; simpl; [|done].
    apply lookup_insert_ne. by intros ->.
  - by injection H as <- <-.
  - by injection H as <- <-.
Qed.

Lemma handle_writes_intent_names_only_witness :
  exists r w',
    CodeNew.handle "Turn on the kitchen fan" sample_now sample_now "e1" fresh_world
    = Some (Ok (r, w')) /\
    CodeNew.devices w' !! "living room lights"
    = CodeNew.devices fresh_world !! "living room lights".
Proof.
  eexists _, _. split; [vm_compute; reflexivity|].
  eapply (handle_writes_intent_names_only "Turn on the kitchen fan" sample_now
            sample_now "e1" fresh_world).
  - vm_compute. reflexivity.
  - refine (bool_decide_unpack _ _). by vm_compute.
Defined.
(** ** The hybrid assistant *)

(** [needle in hay] finds exactly the substrings. *)
Lemma prefix_app (n b : string) : String.prefix n (n +:+ b) = true.
Proof.
  induction n as [|c n IH]; [by destruct b|].
  rewrite append_cons. simpl. by destruct (ascii_dec c c).
Qed.

Lemma prefix_elim (n : string) : forall s,
  String.prefix n s = true -> exists b, s = n +:+ b.
Proof.
  induction n as [|c n IH]; intros s H; [by exists s|].
  destruct s as [|c' s]; [done|]. simpl in H.
  destruct (ascii_dec c c') as [<-|]; [|done].
  apply IH in H as [b ->]. by exists b.
Qed.

Lemma contains_unfold n c s :
  contains n (String c s)
  = if String.prefix n (String c s) then true else contains n s.
Proof. reflexivity. Qed.

Lemma contains_cons n c s : contains n s = true -> contains n (String c s) = true.
Proof.
  intros H. rewrite contains_unfold, H. by destruct (String.prefix n (String c s)).
Qed.

Lemma contains_intro (n a b : string) : contains n (a +:+ n +:+ b) = true.
Proof.
  induction a as [|c a IH].
  - change (EmptyString +:+ n +:+ b) with (n +:+ b).
    pose proof (prefix_app n b) as P.
    destruct (n +:+ b) as [|c s]; [|by rewrite contains_unfold, P].
    unfold contains. by rewrite P.
  - rewrite append_cons. by apply contains_cons.
Qed.

Lemma contains_elim (n : string) : forall s,
  contains n s = true -> exists a b, s = a +:+ n +:+ b.
Proof.
  induction s as [|c s IH].
  - unfold contains. destruct (String.prefix n EmptyString) eqn:E; [|done].
    intros _. apply prefix_elim in E as [b E]. by exists EmptyString, b.
  - rewrite contains_unfold. destruct (String.prefix n (String c s)) eqn:E.
    + intros _. apply prefix_elim in E as [b E]. by exists EmptyString, b.
    + intros (a & b & ->)%IH. by exists (String c a), b.
Qed.

Lemma contains_trans (x n s : string) :
  contains x n = true -> contains n s = true -> contains x s = true.
Proof.
  intros (a & b & ->)%contains_elim (a' & b' & ->)%contains_elim.
  rewrite !append_assoc, <- append_assoc. apply contains_intro.
Qed.
Lemma contains_head (n b : string) : contains n (n +:+ b) = true.
Proof. apply (contains_intro n EmptyString b). Qed.

Lemma contains_app_r (n a s : string) :
  contains n s = true -> contains n (a +:+ s) = true.
Proof.
  intros (p & q & ->)%contains_elim. rewrite <- append_assoc. apply contains_intro.
Qed.

Lemma contains_last (n : string) : contains n n = true.
Proof.
  pose proof (contains_head n EmptyString) as H. by rewrite append_nil_r in H.
Qed.

(** A text that one of the two patterns matches somewhere holds a switch
    word and one of the three device names. *)
Lemma pattern_mentions p text m :
  In p HybridAssistant.patterns -> re_search p text = Some m ->
  exists st dev,
    (st = "on" \/ st = "off") /\
    (dev = "living room light" \/ dev = "kitchen fan" \/ dev = "bedroom heater") /\
    contains st text = true /\ contains dev text = true.
Proof.
  intros Hp E. apply re_search_sound in E as (pre & post & -> & M).
  unfold HybridAssistant.patterns, HybridAssistant.device_names, ws_plus in Hp.
  simpl in Hp.
  destruct Hp as [<- | [<- | []]]; inv_matches; rewrite ?append_assoc.
  all: let mention st dev :=
         solve [exists st, dev; (split; [auto|split; [auto|split]]);
                repeat first [apply contains_head | apply contains_last
                             | apply contains_app_r]] in
       first [ mention "on" "living room light" | mention "on" "kitchen fan"
             | mention "on" "bedroom heater" | mention "off" "living room light"
             | mention "off" "kitchen fan" | mention "off" "bedroom heater" ].
Qed.

Lemma cfg_match_mentions text :
  HybridAssistant.cfg_device_match text = true ->
  exists st dev,
    (st = "on" \/ st = "off") /\
    (dev = "living room light" \/ dev = "kitchen fan" \/ dev = "bedroom heater") /\
    contains st text = true /\ contains dev text = true.
Proof.
  unfold HybridAssistant.cfg_device_match. intros (p & Hp & H)%existsb_exists.
  destruct (re_search p text) as [m|] eqn:E; [|done].
  by eapply pattern_mentions.
Qed.

Lemma extract_device_of_mention text dev :
  dev = "living room light" \/ dev = "kitchen fan" \/ dev = "bedroom heater" ->
  contains dev text = true ->
  exists d, Hybrid.extract_device text = Some d /\
            is_Some (Hybrid.initial_devices !! d).
Proof.
  assert (forall d, In d ["living room light"; "kitchen fan"; "bedroom heater"] ->
            is_Some (Hybrid.initial_devices !! d)) as Hreg.
  { intros d [<-|[<-|[<-|[]]]]; by eexists. }
  unfold Hybrid.extract_device, Hybrid.DEFAULT_LIGHT.
  intros [-> | [-> | ->]] H.
  - rewrite (contains_trans "living" "living room light" text eq_refl H),
      (contains_trans "light" "living room light" text eq_refl H). simpl.
    eexists. split; [done|]. apply Hreg. simpl. auto.
  - rewrite (contains_trans "kitchen" "kitchen fan" text eq_refl H),
      (contains_trans "fan" "kitchen fan" text eq_refl H).
    destruct (contains "living" text && contains "light" text); simpl;
      (eexists; split; [done|]; apply Hreg; simpl; auto).
  - rewrite (contains_trans "heater" "bedroom heater" text eq_refl H).
    destruct (contains "living" text && contains "light" text),
      (contains "kitchen" text && contains "fan" text); simpl;
      (eexists; split; [done|]; apply Hreg; simpl; auto).
Qed.

Lemma extract_state_of_mention text st :
  st = "on" \/ st = "off" -> contains st text = true ->
  exists s, HybridAssistant.extract_state text = Some s /\ (s = "on" \/ s = "off").
Proof.
  unfold HybridAssistant.extract_state. intros [-> | ->] H.
  - rewrite H. eauto.
  - rewrite H. destruct (contains "on" text); eauto.
Qed.

(** X17: when [cfg_device_match] accepts a text, the two extractors both
    answer: [extract_device] with one of the three devices of the initial
    registry and [extract_state] with "on" or "off".  So the grammar
    branch of [handle] never gives [None] to [set_device], and its
    incomplete-command exit in hybrid_smart_home_assistant.py is never
    taken. *)
Theorem cfg_match_extracts (text : string) :
  HybridAssistant.cfg_device_match text = true ->
  exists d s,
    Hybrid.extract_device text = Some d /\
    is_Some (Hybrid.initial_devices !! d) /\
    HybridAssistant.extract_state text = Some s /\
    (s = "on" \/ s = "off").
Proof.
  intros (st & dev & Hst & Hdev & Cst & Cdev)%cfg_match_mentions.
  destruct (extract_device_of_mention text dev Hdev Cdev) as (d & Ed & Hd).
  destruct (extract_state_of_mention text st Hst Cst) as (s & Es & Hs).
  by exists d, s.
Qed.

Lemma cfg_match_extracts_witness :
  exists d s,
    Hybrid.extract_device "bedroom heater off" = Some d /\
    is_Some (Hybrid.initial_devices !! d) /\
    HybridAssistant.extract_state "bedroom heater off" = Some s /\
    (s = "on" \/ s = "off").
Proof.
  apply (cfg_match_extracts "bedroom heater off"). vm_compute. reflexivity.
Defined.

(** The state word is looked for anywhere in the text, "on" first:
    "switch off kitchen fan once" matches the grammar and switches the
    fan on. *)
Example once_switches_on :
  HybridAssistant.cfg_device_match "switch off kitchen fan once" = true /\
  HybridAssistant.devices
    (HybridAssistant.handle (fun _ => "device") "switch off kitchen fan once"
       fresh_hybrid_world) !! "kitchen fan" = Some "on".
Proof. split; vm_compute; reflexivity. Qed.

Lemma device_command_success command text w source d s :
  Hybrid.extract_device text = Some d ->
  HybridAssistant.extract_state text = Some s ->
  let w' := HybridAssistant.device_command command text source w in
  dom (HybridAssistant.devices w') = dom (HybridAssistant.devices w) /\
  exists e,
    HybridAssistant.logs w' = HybridAssistant.logs w ++ [e] /\
    HybridAssistant.log_command e = command /\
    HybridAssistant.log_status e = "success" /\
    HybridAssistant.log_intent e = "device" /\
    HybridAssistant.reminders w' = HybridAssistant.reminders w /\
    HybridAssistant.devices w'
    = (Hybrid.set_device (HybridAssistant.devices w) d s).2.
Proof.
  intros Ed Es. unfold HybridAssistant.device_command. rewrite Ed, Es.
  pose proof (hybrid_set_device_dom (HybridAssistant.devices w) d s) as Hdom.
  destruct (Hybrid.set_device (HybridAssistant.devices w) d s) as [done devices'].
  simpl in *. split; [done|]. eexists. split; [done|]. done.
Qed.

(** X18: what [handle] of the hybrid assistant can change, whatever the
    classifier answers.  The set of devices stays the same and at most one
    row is logged, with the command as typed.  A "success" row means the
    device and the state extracted from the normalized text were given to
    [set_device]; a "failed" row comes from the classifier branch only and
    leaves devices and reminders alone; a "scheduled" row adds the command
    to the reminders and leaves the devices alone; with no row nothing
    changed. *)
Theorem hybrid_handle_effects (predict : string -> string) (command : string)
    (w : HybridAssistant.world) :
  let text := HybridAssistant.normalize command in
  let w' := HybridAssistant.handle predict command w in
  dom (HybridAssistant.devices w') = dom (HybridAssistant.devices w) /\
  (w' = w \/
   exists e,
     HybridAssistant.logs w' = HybridAssistant.logs w ++ [e] /\
     HybridAssistant.log_command e = command /\
     ((HybridAssistant.log_status e = "success" /\
       HybridAssistant.log_intent e = "device" /\
       HybridAssistant.reminders w' = HybridAssistant.reminders w /\
       exists d s,
         Hybrid.extract_device text = Some d /\
         HybridAssistant.extract_state text = Some s /\
         HybridAssistant.devices w'
         = (Hybrid.set_device (HybridAssistant.devices w) d s).2) \/
      (HybridAssistant.log_status e = "failed" /\
       HybridAssistant.log_source e = "ML" /\
       HybridAssistant.devices w' = HybridAssistant.devices w /\
       HybridAssistant.reminders w' = HybridAssistant.reminders w) \/
      (HybridAssistant.log_status e = "scheduled" /\
       HybridAssistant.log_source e = "ML" /\
       HybridAssistant.devices w' = HybridAssistant.devices w /\
       HybridAssistant.reminders w' = HybridAssistant.reminders w ++ [command]))).
Proof.
  intros text w'. subst w'. unfold HybridAssistant.handle. fold text.
  destruct (HybridAssistant.cfg_device_match text) eqn:Ecfg.
  - apply cfg_match_mentions in Ecfg as (st & dev & Hst & Hdev & Cst & Cdev).
    destruct (extract_device_of_mention text dev Hdev Cdev) as (d & Ed & _).
    destruct (extract_state_of_mention text st Hst Cst) as (s & Es & _).
    destruct (device_command_success command text w "CFG" d s Ed Es) as (Hdom & e & Hl & Hc & Hs & Hi & Hr & Hd).
    split; [done|]. right. exists e. split; [done|]. split; [done|].
    left. eauto 10.
  - simpl. destruct (String.eqb (predict text) "device").
    + destruct (Hybrid.extract_device text) as [d|] eqn:Ed;
        [destruct (HybridAssistant.extract_state text) as [s|] eqn:Es|].
      * destruct (device_command_success command text w "ML" d s Ed Es) as (Hdom & e & Hl & Hc & Hs & Hi & Hr & Hd).
        split; [done|]. right. exists e. split; [done|]. split; [done|].
        left. eauto 10.
      * unfold HybridAssistant.device_command. rewrite Ed, Es. simpl.
        split; [done|]. right. eexists. split; [done|]. split; [done|].
        right. left. done.
      * unfold HybridAssistant.device_command. rewrite Ed. simpl.
        split; [done|]. right. eexists. split; [done|]. split; [done|].
        right. left. done.
    + destruct (String.eqb (predict text) "schedule"); simpl.
      * split; [done|]. right. eexists. split; [done|]. split; [done|].
        right. right. done.
      * split; [done|]. by left.
Qed.

Lemma normalize_chars s : all_chars normal_char (HybridAssistant.normalize s) = true.
Proof.
  unfold HybridAssistant.normalize, normal_char. apply all_chars_and.
  - eapply all_chars_impl; [|apply all_chars_removed].
    intros c. simpl. by rewrite negb_involutive.
  - apply all_chars_remove, all_chars_lower.
Qed.

(** X19: [normalize] answers with small letters, digits, underscores and
    blanks only, and normalizing a normalized text changes nothing. *)
Theorem normalize_idempotent (s : string) :
  all_chars normal_char (HybridAssistant.normalize s) = true /\
  HybridAssistant.normalize (HybridAssistant.normalize s)
  = HybridAssistant.normalize s.
Proof.
  pose proof (normalize_chars s) as H. split; [done|].
  set (t := HybridAssistant.normalize s) in *.
  unfold HybridAssistant.normalize. rewrite lower_id.
  - apply remove_chars_id. eapply all_chars_impl; [|exact H].
    intros c [Hc _]%andb_prop. by rewrite Hc.
  - eapply all_chars_impl; [|exact H]. by intros c [_ Hc]%andb_prop.
Qed.
